(** * Adsorption-site generator for prebuilt HEA slabs: a shallow embedding

    The development follows [add_adsorbate.py]: the slab is an ASE [Atoms]
    object (atomic numbers, Cartesian positions, a 3x3 cell and periodicity
    flags); the script aligns it to +z, screens the surface atoms by a height
    percentile and a 2D convex hull, enumerates top / bridge / hollow sites and
    writes one structure per site.

    Numbers: numpy's float64 values are modelled by the real numbers [R], so
    the statements below are about exact arithmetic.  The one law that asserts
    an exact equality between computed numbers (the height of a Top site) is
    also evaluated in IEEE binary64, on a copy of the Top pass over primitive
    floats.

    Library routines the script calls are modelled as follows.
    - [numpy.cross], [numpy.dot], [numpy.linalg.norm], [numpy.clip],
      [numpy.arccos], [numpy.degrees], [numpy.percentile] (method "linear"),
      [numpy.where]: written out.
    - [ase.Atoms.rotate], [ase.Atoms.get_center_of_mass], [ase.Atoms.copy],
      [ase.Atoms.__iadd__], [ase.Atom]: written out from ASE's definitions.
    - [str.endswith], [str.rfind], [os.path.join] and [os.path.splitext]
      (POSIX): written out.
    - [ase.io.write]: recorded as the path and the structure handed to it;
      what the writer itself may raise is not modelled.
    - [ase.geometry.find_mic], [scipy.spatial.ConvexHull], [ase.io.read], the
      names [os.listdir] returns and ASE's element tables ([atomic_numbers],
      [atomic_masses]): parameters. *)

From Stdlib Require Import Ascii String DecimalString DecimalNat PrimFloat.
From Stdlib Require Import Reals Lra Lia RNsatz Bool Arith ZArith List Sorted.
Import ListNotations.

Open Scope R_scope.

(** ** Exceptions, log records and the monad of the script *)

Inductive exn : Type :=
| ValueError          (* numpy.percentile: percentile out of [0, 100] *)
| IndexError          (* an index past the end of an array or list *)
| KeyError            (* ase.Atom: unknown element symbol *)
| ZeroDivisionError   (* ase.Atoms.rotate: rotation axis of norm 0 *)
| QhullError.         (* scipy.spatial.ConvexHull: degenerate input *)

Inductive level : Type := INFO | WARNING | ERROR.

(** One constructor per [logging] call of the script, with the values the
    format string interpolates. *)
Inductive message : Type :=
| MsgRotated (angle_deg : R)
| MsgCandidates (percentile z_th : R) (ncand : nat)
| MsgTooFew
| MsgHull (nsurf : nat)
| MsgSites (nsites : nat)
| MsgWrote (fname : string)
| MsgNoSurface (fname : string).

Definition log_record : Type := level * message.

(** A computation emits log records and either raises or returns. *)
Definition M (A : Type) : Type := list log_record * (exn + A).

Definition ret {A} (x : A) : M A := ([], inr x).
Definition raise {A} (e : exn) : M A := ([], inl e).
Definition logging (l : level) (m : message) : M unit := ([(l, m)], inr tt).

Definition bind {A B} (m : M A) (f : A -> M B) : M B :=
  match m with
  | (l, inl e) => (l, inl e)
  | (l, inr x) => let (l', r) := f x in (l ++ l', r)
  end.

Notation "x <- m ;; k" := (bind m (fun x => k))
  (at level 61, m at next level, right associativity).
Notation "m ;;; k" := (bind m (fun _ => k))
  (at level 61, right associativity).

Definition logs {A} (m : M A) : list log_record := fst m.
Definition outcome {A} (m : M A) : exn + A := snd m.

(** [for x in xs: sites.extend(body(x))] *)
Fixpoint for_each {A B} (xs : list A) (body : A -> M (list B)) : M (list B) :=
  match xs with
  | [] => ret []
  | x :: xs' =>
      ys <- body x ;;
      zs <- for_each xs' body ;;
      ret (ys ++ zs)
  end.

(** ** Comparisons of numbers, as booleans *)

Definition Rleb (x y : R) : bool := if Rle_dec x y then true else false.
Definition Rltb (x y : R) : bool := if Rlt_dec x y then true else false.
Definition Rgeb (x y : R) : bool := Rleb y x.
Definition Rgtb (x y : R) : bool := Rltb y x.
Definition Reqb (x y : R) : bool := if Req_dec_T x y then true else false.

(** ** Vectors (numpy arrays of shape (3,)) *)

Record vec : Type := V3 { vx : R; vy : R; vz : R }.

Definition vadd (a b : vec) : vec := V3 (vx a + vx b) (vy a + vy b) (vz a + vz b).
Definition vsub (a b : vec) : vec := V3 (vx a - vx b) (vy a - vy b) (vz a - vz b).
Definition vopp (a : vec) : vec := V3 (- vx a) (- vy a) (- vz a).
Definition vscale (k : R) (a : vec) : vec := V3 (k * vx a) (k * vy a) (k * vz a).
Definition vmul (a : vec) (k : R) : vec := V3 (vx a * k) (vy a * k) (vz a * k).
Definition vdiv (a : vec) (k : R) : vec := V3 (vx a / k) (vy a / k) (vz a / k).
Definition vzero : vec := V3 0 0 0.

(** [numpy.dot], [numpy.cross], [numpy.linalg.norm] *)
Definition dot (a b : vec) : R := vx a * vx b + vy a * vy b + vz a * vz b.
Definition cross (a b : vec) : vec :=
  V3 (vy a * vz b - vz a * vy b)
     (vz a * vx b - vx a * vz b)
     (vx a * vy b - vy a * vx b).
Definition norm (a : vec) : R := sqrt (dot a a).

(** [numpy.clip(x, lo, hi)] is [minimum(hi, maximum(x, lo))]. *)
Definition clip (x lo hi : R) : R := Rmin hi (Rmax x lo).

(** [numpy.degrees] *)
Definition degrees (x : R) : R := x * (180 / PI).

(** ** The structure (ase.Atoms) *)

Record Cell : Type := mkCell { row0 : vec; row1 : vec; row2 : vec }.

Record Atoms : Type := mkAtoms {
  numbers   : list nat;          (* atomic numbers *)
  positions : list vec;          (* Cartesian positions *)
  cell      : Cell;              (* cell vectors, one per row *)
  pbc       : bool * bool * bool (* periodicity per axis *)
}.

Definition natoms (s : Atoms) : nat := length (positions s).

(** The normal the script computes: [np.cross(cell[0], cell[1])]. *)
Definition cell_normal (c : Cell) : vec := cross (row0 c) (row1 c).

Inductive centering : Type := COM | COP | Point (p : vec).

(** [sum] of a list of reals and of vectors *)
Definition Rsum (l : list R) : R := fold_right Rplus 0 l.
Definition vsum (l : list vec) : vec := fold_right vadd vzero l.

Section ASE.

(** ASE's table of atomic masses, indexed by atomic number. *)
Variable atomic_masses : nat -> R.

(** [Atoms.get_masses] (no custom masses are set by the script) *)
Definition get_masses (s : Atoms) : list R := map atomic_masses (numbers s).

(** [Atoms.get_center_of_mass]: [masses @ positions / masses.sum()] *)
Definition get_center_of_mass (s : Atoms) : vec :=
  let masses := get_masses s in
  vdiv (vsum (map (fun mp => vscale (fst mp) (snd mp))
                  (combine masses (positions s))))
       (Rsum masses).

Definition get_center_of_positions (s : Atoms) : vec :=
  vdiv (vsum (positions s)) (INR (natoms s)).

Definition centering_as_array (s : Atoms) (c : centering) : vec :=
  match c with
  | COM => get_center_of_mass s
  | COP => get_center_of_positions s
  | Point p => p
  end.

(** The expression ASE applies to every row:
    [c * p - cross(p, s * v) + outer(dot(p, v), (1 - c) * v)]. *)
Definition rotate_row (c s : R) (v p : vec) : vec :=
  vadd (vsub (vscale c p) (cross p (vscale s v)))
       (vscale (dot p v) (vscale (1 - c) v)).

(** [Atoms.rotate(a, v, center, rotate_cell)] with a number [a]: the angle
    is in DEGREES ([a *= pi / 180]); the axis is normalised; the positions
    turn about [center]; the cell rows turn about the origin. *)
Definition rotate (a : R) (v : vec) (center : centering)
    (rotate_cell : bool) (s : Atoms) : M Atoms :=
  let normv := norm v in
  if Reqb normv 0 then raise ZeroDivisionError
  else
    let a := a * (PI / 180) in
    let v := vdiv v normv in
    let c := cos a in
    let sn := sin a in
    let ctr := centering_as_array s center in
    let pos' :=
      map (fun p => vadd (rotate_row c sn v (vsub p ctr)) ctr) (positions s) in
    let cell' :=
      if rotate_cell
      then mkCell (rotate_row c sn v (row0 (cell s)))
                  (rotate_row c sn v (row1 (cell s)))
                  (rotate_row c sn v (row2 (cell s)))
      else cell s in
    ret (mkAtoms (numbers s) pos' cell' (pbc s)).

(** *** align_slab_to_z *)

Definition angle_tol : R := 1 / 1000000.

(** The unit normal after the sign flip of line 34-35. *)
Definition upward_normal (c : Cell) : vec :=
  let n := cell_normal c in
  let n := vdiv n (norm n) in
  if Rltb (vz n) 0 then vopp n else n.

Definition target : vec := V3 0 0 1.

Definition rotation_angle (c : Cell) : R :=
  let cosang := clip (dot (upward_normal c) target) (-1) 1 in
  acos cosang.

(** The slab is rotated in place and returned; the value returned is the
    slab after the rotation.  When [a x b] is the zero vector numpy divides
    0 by 0: every later comparison with the resulting nan is false and the
    slab is returned as it is; the first test stands for that case. *)
Definition align_slab_to_z (slab : Atoms) : M Atoms :=
  if Reqb (norm (cell_normal (cell slab))) 0 then ret slab
  else
    let n := upward_normal (cell slab) in
    let angle := rotation_angle (cell slab) in
    if Rgtb angle angle_tol then
      let axis := cross n target in
      let axis := vdiv axis (norm axis) in
      slab' <- rotate angle axis COM true slab ;;
      logging INFO (MsgRotated (degrees angle)) ;;;
      ret slab'
    else ret slab.

End ASE.

(** ** Surface selector *)

(** Ascending sort of the heights. *)
Fixpoint insert_sorted (x : R) (l : list R) : list R :=
  match l with
  | [] => [x]
  | y :: t => if Rleb x y then x :: l else y :: insert_sorted x t
  end.

Definition sort (l : list R) : list R := fold_right insert_sorted [] l.

(** numpy's [_lerp]: [a + (b - a) * t], computed from [b] when [t >= 0.5]. *)
Definition lerp (a b t : R) : R :=
  if Rgeb t (1 / 2) then b - (b - a) * (1 - t) else a + (b - a) * t.

(** [numpy.percentile(a, q)] with the default method "linear": [q / 100]
    must lie in [0, 1] (checked first, [ValueError]); the virtual index is
    [(n - 1) * q / 100]; at or above [n - 1] the last order statistic is
    taken, otherwise the two neighbouring order statistics are interpolated.
    An empty array has no order statistic to index. *)
Definition percentile (a : list R) (q : R) : M R :=
  let quant := q / 100 in
  if Rleb 0 quant then
    if Rleb quant 1 then
      match a with
      | [] => raise IndexError
      | _ :: _ =>
          let arr := sort a in
          let n := length a in
          let virtual := (INR n - 1) * quant in
          if Rgeb virtual (INR n - 1) then ret (last arr 0)
          else
            let previous := Z.to_nat (Int_part virtual) in
            let gamma := virtual - IZR (Int_part virtual) in
            ret (lerp (nth previous arr 0) (nth (S previous) arr 0) gamma)
      end
    else raise ValueError
  else raise ValueError.

(** [np.where(zs >= z_th)[0]]: the indices, in ascending order. *)
Definition where_ge (zs : list R) (z_th : R) : list nat :=
  map fst
      (filter (fun iz => Rgeb (snd iz) z_th)
              (combine (seq 0 (length zs)) zs)).

(** Indexing an array by an array of indices, [a[idx]]. *)
Fixpoint take {A} (a : list A) (idx : list nat) : M (list A) :=
  match idx with
  | [] => ret []
  | i :: idx' =>
      match nth_error a i with
      | Some x => xs <- take a idx' ;; ret (x :: xs)
      | None => raise IndexError
      end
  end.

Definition lift {A} (r : exn + A) : M A := ([], r).

Section Surface.

(** [scipy.spatial.ConvexHull(points).vertices] for 2D points: the indices
    of the input points that are hull vertices, or [QhullError]. *)
Variable ConvexHull : list (R * R) -> exn + list nat.

Definition identify_surface_atoms_via_hull (slab : Atoms) (pct : R)
    : M (list nat) :=
  let pos := positions slab in
  let zs := map vz pos in
  z_th <- percentile zs pct ;;
  let cand := where_ge zs z_th in
  logging INFO (MsgCandidates pct z_th (length cand)) ;;;
  if (length cand <? 3)%nat then
    logging WARNING MsgTooFew ;;;
    ret cand
  else
    pc <- take pos cand ;;
    let xy := map (fun p => (vx p, vy p)) pc in
    vertices <- lift (ConvexHull xy) ;;
    surf <- take cand vertices ;;
    logging INFO (MsgHull (length surf)) ;;;
    ret surf.

End Surface.

(** ** Site generator *)

(** The label of a site. The script builds the strings ["Top_i"],
    ["Bridge_i_j"], ["Hollow_i_j_k"]; the indices are kept apart here and
    [label_string] renders them. *)
Inductive label : Type :=
| Top (idx : nat)
| Bridge (idx1 idx2 : nat)
| Hollow (idx1 idx2 idx3 : nat).

Definition str_of_nat (n : nat) : string :=
  NilZero.string_of_uint (Nat.to_uint n).

Definition label_string (l : label) : string :=
  match l with
  | Top i => "Top_" ++ str_of_nat i
  | Bridge i j => "Bridge_" ++ str_of_nat i ++ "_" ++ str_of_nat j
  | Hollow i j k =>
      "Hollow_" ++ str_of_nat i ++ "_" ++ str_of_nat j ++ "_" ++ str_of_nat k
  end%string.

Definition site : Type := label * vec.

(** [pos[idx]] *)
Definition getitem {A} (a : list A) (i : nat) : M A :=
  match nth_error a i with
  | Some x => ret x
  | None => raise IndexError
  end.

(** [enumerate(l)] and [range(a, b)] *)
Definition enumerate {A} (l : list A) : list (nat * A) :=
  combine (seq 0 (length l)) l.
Definition range (a b : nat) : list nat := seq a (b - a).

Definition normal : vec := V3 0 0 1.

Section Sites.

(** [ase.geometry.find_mic(v, cell, pbc)]: the minimum-image vector of [v]
    and its length. *)
Variable find_mic : vec -> Cell -> bool * bool * bool -> vec * R.

Variables (pos : list vec) (cl : Cell) (pb : bool * bool * bool).
Variables (ads_dist dist_thr margin : R).

Definition top_site (idx : nat) : M (list site) :=
  p <- getitem pos idx ;;
  let bz := vz p in
  let site := vadd p (vmul normal ads_dist) in
  if Rgtb (vz site) (bz + margin) then ret [(Top idx, site)] else ret [].

Definition bridge_site (idx1 idx2 : nat) : M (list site) :=
  p2 <- getitem pos idx2 ;;
  p1 <- getitem pos idx1 ;;
  let (v, d) := find_mic (vsub p2 p1) cl pb in
  if Rleb d dist_thr then
    let midpoint := vadd p1 (vdiv v 2) in
    let site := vadd midpoint (vmul normal ads_dist) in
    if Rgtb (vz site) (Rmax (vz p1) (vz p2) + margin)
    then ret [(Bridge idx1 idx2, site)] else ret []
  else ret [].

Definition hollow_site (idx1 idx2 idx3 : nat) : M (list site) :=
  p1 <- getitem pos idx1 ;;
  p2 <- getitem pos idx2 ;;
  p3 <- getitem pos idx3 ;;
  let (v12, d12) := find_mic (vsub p2 p1) cl pb in
  let (v13, d13) := find_mic (vsub p3 p1) cl pb in
  let (v23, d23) := find_mic (vsub p3 p2) cl pb in
  if Rleb d12 dist_thr && Rleb d13 dist_thr && Rleb d23 dist_thr
  then
    let centroid := vadd p1 (vdiv (vadd v12 v13) 3) in
    let site := vadd centroid (vmul normal ads_dist) in
    if Rgtb (vz site) (Rmax (Rmax (vz p1) (vz p2)) (vz p3) + margin)
    then ret [(Hollow idx1 idx2 idx3, site)] else ret []
  else ret [].

Definition top_sites (surface_atoms : list nat) : M (list site) :=
  for_each surface_atoms top_site.

Definition bridge_sites (surface_atoms : list nat) : M (list site) :=
  for_each (enumerate surface_atoms) (fun ix =>
    let (i, idx1) := ix in
    for_each (skipn (i + 1) surface_atoms) (fun idx2 =>
      bridge_site idx1 idx2)).

Definition hollow_sites (surface_atoms : list nat) : M (list site) :=
  let n := length surface_atoms in
  for_each (range 0 n) (fun i =>
    for_each (range (i + 1) n) (fun j =>
      for_each (range (j + 1) n) (fun k =>
        idx1 <- getitem surface_atoms i ;;
        idx2 <- getitem surface_atoms j ;;
        idx3 <- getitem surface_atoms k ;;
        hollow_site idx1 idx2 idx3))).

End Sites.

Definition generate_adsorption_sites
    (find_mic : vec -> Cell -> bool * bool * bool -> vec * R)
    (slab : Atoms) (surface_atoms : list nat)
    (ads_dist dist_thr margin : R) : M (list site) :=
  let pos := positions slab in
  let cl := cell slab in
  let pb := pbc slab in
  tops <- top_sites pos ads_dist margin surface_atoms ;;
  bridges <- bridge_sites find_mic pos cl pb ads_dist dist_thr margin
               surface_atoms ;;
  hollows <- hollow_sites find_mic pos cl pb ads_dist dist_thr margin
               surface_atoms ;;
  let sites := tops ++ bridges ++ hollows in
  logging INFO (MsgSites (length sites)) ;;;
  ret sites.

(** ** The Top pass in IEEE binary64

    Lines 82-86 again, with numpy's float64 arithmetic in place of the real
    numbers.  Decimal literals denote the nearest binary64 value, as in
    Python. *)

#[local] Set Warnings "-inexact-float".

Record fvec : Type := FV3 { fx : float; fy : float; fz : float }.

Definition fvadd (a b : fvec) : fvec :=
  FV3 (PrimFloat.add (fx a) (fx b)) (PrimFloat.add (fy a) (fy b))
      (PrimFloat.add (fz a) (fz b)).

Definition fvmul (a : fvec) (k : float) : fvec :=
  FV3 (PrimFloat.mul (fx a) k) (PrimFloat.mul (fy a) k)
      (PrimFloat.mul (fz a) k).

Definition fnormal : fvec := FV3 0%float 0%float 1%float.

Definition top_site_binary64 (pos : list fvec) (ads_dist margin : float)
    (idx : nat) : M (list (label * fvec)) :=
  p <- getitem pos idx ;;
  let bz := fz p in
  let site := fvadd p (fvmul fnormal ads_dist) in
  if PrimFloat.ltb (PrimFloat.add bz margin) (fz site)
  then ret [(Top idx, site)] else ret [].

(** ** Assembler *)

(** [ase.Atom] *)
Record Atom : Type := mkAtom { number : nat; position : vec }.

(** [atoms += atom]: one more atomic number and one more position. *)
Definition extend (s : Atoms) (a : Atom) : Atoms :=
  mkAtoms (numbers s ++ [number a]) (positions s ++ [position a])
          (cell s) (pbc s).

(** The objects of the run and the files written so far.  A slab is passed
    around by reference: [heap] gives the value of every object, [next] is
    the first unused reference, [written] lists the calls to [ase.io.write]
    in order (path, structure written). *)
Record world : Type := mkWorld {
  heap    : nat -> Atoms;
  next    : nat;
  written : list (string * Atoms)
}.

Definition store (w : world) (r : nat) (s : Atoms) : world :=
  mkWorld (fun r' => if Nat.eqb r' r then s else heap w r') (next w) (written w).

Definition alloc (w : world) (s : Atoms) : world * nat :=
  (mkWorld (fun r' => if Nat.eqb r' (next w) then s else heap w r')
           (S (next w)) (written w),
   next w).

(** [slab.copy()]: a new object with the same contents. *)
Definition Atoms_copy (w : world) (r : nat) : world * nat := alloc w (heap w r).

(** [slab2 += atom] changes the object [slab2] refers to. *)
Definition Atoms_iadd (w : world) (r : nat) (a : Atom) : world :=
  store w r (extend (heap w r) a).

(** [ase.io.write(path, atoms)] *)
Definition write (w : world) (path : string) (r : nat) : world :=
  mkWorld (heap w) (next w) (written w ++ [(path, heap w r)]).

Definition ends_with_slash (a : string) : bool :=
  match String.length a with
  | O => false
  | S n => String.eqb (String.substring n 1 a) "/"
  end.

(** [os.path.join(a, b)] on POSIX *)
Definition os_path_join (a b : string) : string :=
  (if String.prefix "/" b then b
   else if (String.eqb a "" || ends_with_slash a)%bool then a ++ b
   else a ++ "/" ++ b)%string.

Section Assembler.

(** ASE's table from element symbols to atomic numbers. *)
Variable atomic_numbers : string -> option nat.

(** [Atom(symbol, position=position)] *)
Definition new_Atom (symbol : string) (p : vec) : M Atom :=
  match atomic_numbers symbol with
  | Some z => ret (mkAtom z p)
  | None => raise KeyError
  end.

Definition add_adsorbate_and_write (w : world) (slab : nat) (lbl : string)
    (p : vec) (base out_dir ads : string) : M world :=
  let (w1, slab2) := Atoms_copy w slab in
  atom <- new_Atom ads p ;;
  let w2 := Atoms_iadd w1 slab2 atom in
  let fname := (base ++ "_" ++ lbl ++ ".vasp")%string in
  let w3 := write w2 (os_path_join out_dir fname) slab2 in
  logging INFO (MsgWrote fname) ;;;
  ret w3.

End Assembler.

(** ** The body of the loop of [main] *)

Record arguments : Type := mkArgs {
  arg_output_dir : string;
  arg_percentile : R;
  arg_ads_dist   : R;
  arg_dist_thr   : R;
  arg_margin     : R;
  arg_adsorbate  : string
}.

Section Main.

Variable atomic_masses : nat -> R.
Variable atomic_numbers : string -> option nat.
Variable ConvexHull : list (R * R) -> exn + list nat.
Variable find_mic : vec -> Cell -> bool * bool * bool -> vec * R.

(** [for label, pos in sites: add_adsorbate_and_write(...)] *)
Fixpoint write_sites (w : world) (slab : nat) (sites : list site)
    (base : string) (args : arguments) : M world :=
  match sites with
  | [] => ret w
  | (lbl, p) :: sites' =>
      w' <- add_adsorbate_and_write atomic_numbers w slab (label_string lbl)
              p base (arg_output_dir args) (arg_adsorbate args) ;;
      write_sites w' slab sites' base args
  end.

(** Lines 156-174 for one slab that was read into the object [slab];
    [base] is [os.path.splitext(fname)[0]].  [align_slab_to_z] rotates the
    object in place, so the object is updated with the aligned value. *)
Definition process_slab (w : world) (slab : nat) (fname base : string)
    (args : arguments) : M world :=
  aligned <- align_slab_to_z atomic_masses (heap w slab) ;;
  let w := store w slab aligned in
  surf <- identify_surface_atoms_via_hull ConvexHull (heap w slab)
            (arg_percentile args) ;;
  match surf with
  | [] =>
      logging WARNING (MsgNoSurface fname) ;;;
      ret w
  | _ :: _ =>
      sites <- generate_adsorption_sites find_mic (heap w slab) surf
                 (arg_ads_dist args) (arg_dist_thr args) (arg_margin args) ;;
      write_sites w slab sites base args
  end.

End Main.

(** ** Instances of the parameters, for the examples *)

(** [find_mic] when no axis is periodic: the vector itself. *)
Definition find_mic_open (v : vec) (c : Cell) (pb : bool * bool * bool)
    : vec * R := (v, norm v).

(** One coordinate brought back into [-L/2, L/2] by at most one period. *)
Definition wrap1 (x L : R) : R :=
  if Rgtb x (L / 2) then x - L
  else if Rltb x (- (L / 2)) then x + L
  else x.

(** [find_mic] for an orthorhombic cell (rows along x, y, z) and atoms inside
    the cell: each periodic coordinate is wrapped once. *)
Definition find_mic_ortho (v : vec) (c : Cell) (pb : bool * bool * bool)
    : vec * R :=
  let '(px, py, pz) := pb in
  let w := V3 (if px then wrap1 (vx v) (vx (row0 c)) else vx v)
              (if py then wrap1 (vy v) (vy (row1 c)) else vy v)
              (if pz then wrap1 (vz v) (vz (row2 c)) else vz v) in
  (w, norm w).

(** Twice the signed area of the triangle [a b c]. *)
Definition orient (a b c : R * R) : R :=
  (fst b - fst a) * (snd c - snd a) - (snd b - snd a) * (fst c - fst a).

(** The hull of exactly three points: all three, counterclockwise; Qhull
    rejects collinear input. *)
Definition ConvexHull3 (pts : list (R * R)) : exn + list nat :=
  match pts with
  | [a; b; c] =>
      if Rgtb (orient a b c) 0 then inr [0; 1; 2]%nat
      else if Rltb (orient a b c) 0 then inr [0; 2; 1]%nat
      else inl QhullError
  | _ => inl QhullError
  end.

(** Two rows of ASE's element tables. *)
Definition atomic_numbers_H_Pt (symbol : string) : option nat :=
  if String.eqb symbol "H" then Some 1%nat
  else if String.eqb symbol "Pt" then Some 78%nat
  else None.

Definition atomic_masses_H_Pt (z : nat) : R :=
  match z with
  | 1%nat => 1008 / 1000
  | 78%nat => 195084 / 1000
  | _ => 0
  end.

(** ** Vocabulary of the statements *)

(** [pos[i]], for the statements. *)
Definition pos_at (slab : Atoms) (i : nat) : vec := nth i (positions slab) vzero.

(** Minimum-image displacement and distance from atom [i] to atom [j], as the
    site generator computes them. *)
Definition mic_vector (find_mic : vec -> Cell -> bool * bool * bool -> vec * R)
    (slab : Atoms) (i j : nat) : vec :=
  fst (find_mic (vsub (pos_at slab j) (pos_at slab i)) (cell slab) (pbc slab)).

Definition mic_distance (find_mic : vec -> Cell -> bool * bool * bool -> vec * R)
    (slab : Atoms) (i j : nat) : R :=
  snd (find_mic (vsub (pos_at slab j) (pos_at slab i)) (cell slab) (pbc slab)).

(** The midpoint of the two raw Cartesian positions. *)
Definition naive_midpoint (slab : Atoms) (i j : nat) : vec :=
  vdiv (vadd (pos_at slab i) (pos_at slab j)) 2.

(** [ads_dist] along z. *)
Definition lift_z (ads_dist : R) : vec := V3 0 0 ads_dist.

(** The angle between a vector and +z, in [0, pi]. *)
Definition angle_to_plus_z (v : vec) : R := acos (clip (vz v / norm v) (-1) 1).

(** The angle between the line of a vector and the z axis, in [0, pi/2]. *)
Definition angle_to_z_axis (v : vec) : R :=
  acos (clip (Rabs (vz v / norm v)) (-1) 1).

(** The candidate set of the surface selector. *)
Definition heights (slab : Atoms) : list R := map vz (positions slab).

Definition candidates (slab : Atoms) (z_th : R) : list nat :=
  where_ge (heights slab) z_th.

(** The points handed to the hull routine: the (x, y) of the candidates. *)
Definition candidate_points (slab : Atoms) (z_th : R) : list (R * R) :=
  map (fun i => (vx (pos_at slab i), vy (pos_at slab i)))
      (candidates slab z_th).

(** What Qhull guarantees of the vertices of a 2D hull it returns: at least
    three of them, each an index of an input point. *)
Definition hull_contract (ConvexHull : list (R * R) -> exn + list nat) : Prop :=
  forall pts vs, ConvexHull pts = inr vs ->
    (3 <= length vs)%nat /\ Forall (fun v => (v < length pts)%nat) vs.

(** ** Example structures *)

Definition Pt : nat := 78%nat.

Definition cell_4_4_10 : Cell := mkCell (V3 4 0 0) (V3 0 4 0) (V3 0 0 10).

(** One atom at the origin of an orthorhombic cell. *)
Definition slab_one_atom : Atoms :=
  mkAtoms [Pt] [V3 0 0 0] cell_4_4_10 (true, true, false).

(** Two atoms on either side of the cell boundary along x: 3 apart in the
    cell, 1 apart through the boundary. *)
Definition slab_across_boundary : Atoms :=
  mkAtoms [Pt; Pt] [V3 (1 / 2) 0 0; V3 (7 / 2) 0 0] cell_4_4_10
          (true, true, false).

(** Three atoms stacked at heights 0, 1 and 2. *)
Definition slab_three_layers : Atoms :=
  mkAtoms [Pt; Pt; Pt] [V3 0 0 0; V3 0 0 1; V3 0 0 2] cell_4_4_10
          (true, true, false).

(** Three atoms of one layer at the corners of a triangle. *)
Definition slab_triangle : Atoms :=
  mkAtoms [Pt; Pt; Pt] [V3 0 0 0; V3 1 0 0; V3 0 1 0] cell_4_4_10
          (true, true, false).

(** Three atoms of one layer on a line. *)
Definition slab_collinear : Atoms :=
  mkAtoms [Pt; Pt; Pt] [V3 0 0 0; V3 1 0 0; V3 2 0 0] cell_4_4_10
          (true, true, false).

(** A run that has read one slab, held by object 0, and written nothing. *)
Definition world_one_slab : world := mkWorld (fun _ => slab_one_atom) 1 [].

(** A cell whose first two vectors give a normal along -z. *)
Definition cell_upside_down : Cell :=
  mkCell (V3 0 4 0) (V3 4 0 0) (V3 0 0 (-10)).

Definition slab_upside_down : Atoms :=
  mkAtoms [Pt] [V3 0 0 0] cell_upside_down (true, true, false).

(** A cell whose first two vectors span the xz plane: the normal lies along
    -y, a quarter turn away from +z. *)
Definition cell_on_its_side : Cell :=
  mkCell (V3 1 0 0) (V3 0 0 1) (V3 0 (-1) 0).

Definition slab_on_its_side : Atoms :=
  mkAtoms [Pt] [V3 0 0 0] cell_on_its_side (true, true, false).

(** ** Vocabulary of the further properties *)

(** Where the three kinds of site are put. *)
Definition top_position (slab : Atoms) (ads_dist : R) (i : nat) : vec :=
  vadd (pos_at slab i) (lift_z ads_dist).

Definition bridge_position
    (find_mic : vec -> Cell -> bool * bool * bool -> vec * R)
    (slab : Atoms) (ads_dist : R) (i j : nat) : vec :=
  vadd (vadd (pos_at slab i) (vdiv (mic_vector find_mic slab i j) 2))
       (lift_z ads_dist).

Definition hollow_position
    (find_mic : vec -> Cell -> bool * bool * bool -> vec * R)
    (slab : Atoms) (ads_dist : R) (i j k : nat) : vec :=
  vadd (vadd (pos_at slab i)
             (vdiv (vadd (mic_vector find_mic slab i j)
                         (mic_vector find_mic slab i k)) 3))
       (lift_z ads_dist).

(** [i] stands before [j] (before [k]) in the list of surface atoms. *)
Definition ordered_pair (l : list nat) (i j : nat) : Prop :=
  exists a b, (a < b)%nat /\ nth_error l a = Some i /\ nth_error l b = Some j.

Definition ordered_triple (l : list nat) (i j k : nat) : Prop :=
  exists a b c, (a < b)%nat /\ (b < c)%nat /\
    nth_error l a = Some i /\ nth_error l b = Some j /\
    nth_error l c = Some k.

(** The centroid of three atoms. *)
Definition centroid3 (slab : Atoms) (i j k : nat) : vec :=
  vdiv (vadd (vadd (pos_at slab i) (pos_at slab j)) (pos_at slab k)) 3.

(** The raw displacement from atom [i] to atom [j]. *)
Definition displacement (slab : Atoms) (i j : nat) : vec :=
  vsub (pos_at slab j) (pos_at slab i).

(** Lengths and mutual angles of the cell vectors, as their scalar products;
    the signed volume of the cell; the distance between two points. *)
Definition gram (c : Cell) : list R :=
  [dot (row0 c) (row0 c); dot (row0 c) (row1 c); dot (row0 c) (row2 c);
   dot (row1 c) (row1 c); dot (row1 c) (row2 c); dot (row2 c) (row2 c)].

Definition signed_volume (c : Cell) : R :=
  dot (row0 c) (cross (row1 c) (row2 c)).

Definition distance (p q : vec) : R := norm (vsub p q).

(** The file written for a site: [f"{base}_{label}.vasp"] under [out_dir]. *)
Definition site_file (base : string) (lbl : label) : string :=
  (base ++ "_" ++ label_string lbl ++ ".vasp")%string.

Definition site_path (out_dir base : string) (lbl : label) : string :=
  os_path_join out_dir (site_file base lbl).


Fixpoint no_underscore (s : string) : bool :=
  match s with
  | EmptyString => true
  | String c s' => negb (Ascii.eqb c "_"%char) && no_underscore s'
  end.

Definition world_collinear : world := mkWorld (fun _ => slab_collinear) 1 [].

Definition args_default : arguments :=
  mkArgs "out" 70 (18 / 10) 3 (2 / 10) "H".

(** ** The loop of [main] *)

(** [s.endswith(suffix)] *)
Definition endswith (s suffix : string) : bool :=
  (String.length suffix <=? String.length s)%nat
  && String.eqb (substring (String.length s - String.length suffix)
                           (String.length suffix) s)
                suffix.

(** [s.rfind(c)] for a one-character [c]: the last index of [c] in [s], or
    [-1]. *)
Fixpoint rfind_from (i : nat) (c : ascii) (s : string) : option nat :=
  match s with
  | EmptyString => None
  | String x s' =>
      match rfind_from (S i) c s' with
      | Some j => Some j
      | None => if Ascii.eqb x c then Some i else None
      end
  end.

Definition rfind (c : ascii) (s : string) : Z :=
  match rfind_from 0 c s with
  | Some j => Z.of_nat j
  | None => (-1)%Z
  end.

(** [os.path.splitext] on POSIX ([genericpath._splitext] with separator [/]
    and extension separator [.]): the extension starts at the last dot of the
    last path component, unless only dots come before it in that component. *)
Definition splitext (p : string) : string * string :=
  let sepIndex := rfind "/" p in
  let dotIndex := rfind "." p in
  if (dotIndex >? sepIndex)%Z then
    let d := Z.to_nat dotIndex in
    let filenameIndex := Z.to_nat (sepIndex + 1) in
    if existsb (fun k => negb (String.eqb (substring k 1 p) "."))
               (seq filenameIndex (d - filenameIndex))
    then (substring 0 d p, substring d (String.length p - d) p)
    else (p, EmptyString)
  else (p, EmptyString).

(** The test of line 155. *)
Definition is_slab_name (fname : string) : bool :=
  endswith fname ".vasp" || endswith fname ".xyz".

(** What the run reports: the log records of the stages of one slab, and the
    error record of line 161 for a file that could not be read. *)
Inductive run_record : Type :=
| Stage (r : log_record)
| FailedToRead (fname : string) (e : exn).

Section Driver.

Variable atomic_masses : nat -> R.
Variable atomic_numbers : string -> option nat.
Variable ConvexHull : list (R * R) -> exn + list nat.
Variable find_mic : vec -> Cell -> bool * bool * bool -> vec * R.

(** [ase.io.read]: the structure in the file at a path, or the exception
    raised. *)
Variable read : string -> exn + Atoms.

(** Lines 154-174 over the names [os.listdir] returned.  A file that cannot
    be read is reported and passed over; nothing catches an exception of the
    later stages. *)
Fixpoint main_loop (w : world) (input_dir : string) (args : arguments)
    (files : list string) : list run_record * (exn + world) :=
  match files with
  | [] => ([], inr w)
  | fname :: rest =>
      if negb (is_slab_name fname) then main_loop w input_dir args rest
      else
        match read (os_path_join input_dir fname) with
        | inl e =>
            let (l, r) := main_loop w input_dir args rest in
            (FailedToRead fname e :: l, r)
        | inr s =>
            let (w1, slab) := alloc w s in
            match process_slab atomic_masses atomic_numbers ConvexHull
                    find_mic w1 slab fname (fst (splitext fname)) args with
            | (l, inl e) => (map Stage l, inl e)
            | (l, inr w2) =>
                let (l', r) := main_loop w2 input_dir args rest in
                (map Stage l ++ l', r)
            end
        end
  end.

End Driver.

(** A directory in which no file can be read, and one in which every file
    holds the three atoms on a line. *)
Definition read_nothing (path : string) : exn + Atoms := inl ValueError.
Definition read_collinear (path : string) : exn + Atoms := inr slab_collinear.

(** * Properties *)

(** ** Comparisons *)

Lemma Rleb_true_iff (x y : R) : Rleb x y = true <-> x <= y.
Proof. unfold Rleb; destruct (Rle_dec x y); split; intros; [assumption| reflexivity | discriminate | contradiction]. Qed.

Lemma Rleb_false_iff (x y : R) : Rleb x y = false <-> y < x.
Proof. unfold Rleb; destruct (Rle_dec x y); split; intros; [discriminate | lra | lra | reflexivity]. Qed.

Lemma Rltb_true_iff (x y : R) : Rltb x y = true <-> x < y.
Proof. unfold Rltb; destruct (Rlt_dec x y); split; intros; [assumption| reflexivity | discriminate | contradiction]. Qed.

Lemma Rltb_false_iff (x y : R) : Rltb x y = false <-> y <= x.
Proof. unfold Rltb; destruct (Rlt_dec x y); split; intros; [discriminate | lra | lra | reflexivity]. Qed.

Lemma Reqb_true_iff (x y : R) : Reqb x y = true <-> x = y.
Proof. unfold Reqb; destruct (Req_dec_T x y); split; intros; [assumption| reflexivity | discriminate | contradiction]. Qed.

Lemma Reqb_false_iff (x y : R) : Reqb x y = false <-> x <> y.
Proof. unfold Reqb; destruct (Req_dec_T x y); split; intros; [discriminate | contradiction | assumption | reflexivity]. Qed.

(** Decide the comparisons of a goal whose operands are numerals. *)
Ltac Rcompare :=
  unfold Rgeb, Rgtb;
  repeat match goal with
    | |- context [Rleb ?x ?y] =>
        first [ rewrite (proj2 (Rleb_true_iff x y)) by lra
              | rewrite (proj2 (Rleb_false_iff x y)) by lra ]
    | |- context [Rltb ?x ?y] =>
        first [ rewrite (proj2 (Rltb_true_iff x y)) by lra
              | rewrite (proj2 (Rltb_false_iff x y)) by lra ]
    | |- context [Reqb ?x ?y] =>
        first [ rewrite (proj2 (Reqb_true_iff x y)) by lra
              | rewrite (proj2 (Reqb_false_iff x y)) by lra ]
    end.

(** ** The monad *)

Lemma outcome_bind_inr {A B} (m : M A) (f : A -> M B) (y : B) :
  outcome (bind m f) = inr y ->
  exists x, outcome m = inr x /\ outcome (f x) = inr y.
Proof.
  destruct m as [l [e | x]]; simpl; [discriminate |].
  intros H. exists x. split; [reflexivity |].
  destruct (f x) as [l' r]. exact H.
Qed.

Lemma outcome_bind_ok {A B} (m : M A) (f : A -> M B) (x : A) :
  outcome m = inr x -> outcome (bind m f) = outcome (f x).
Proof.
  destruct m as [l [e | x']]; simpl; [discriminate |].
  intros H; injection H as ->. destruct (f x); reflexivity.
Qed.


Lemma for_each_In {A B} (xs : list A) (body : A -> M (list B)) out y :
  outcome (for_each xs body) = inr out -> In y out ->
  exists x ys, In x xs /\ outcome (body x) = inr ys /\ In y ys.
Proof.
  revert out. induction xs as [| x xs IH]; simpl; intros out H Hy.
  - injection H as <-. destruct Hy.
  - apply outcome_bind_inr in H. destruct H as (ys & Hys & H).
    apply outcome_bind_inr in H. destruct H as (zs & Hzs & H).
    injection H as <-. apply in_app_or in Hy. destruct Hy as [Hy | Hy].
    + exists x, ys. auto.
    + destruct (IH zs Hzs Hy) as (x' & ys' & Hin & Hb & Hy').
      exists x', ys'. auto.
Qed.

Lemma for_each_returns {A B} (xs : list A) (body : A -> M (list B)) :
  (forall x, In x xs -> exists ys, outcome (body x) = inr ys) ->
  exists out, outcome (for_each xs body) = inr out.
Proof.
  induction xs as [| x xs IH]; simpl; intros H.
  - exists []. reflexivity.
  - destruct (H x (or_introl eq_refl)) as (ys & Hys).
    destruct IH as (zs & Hzs). { intros x' Hx'. apply H. now right. }
    exists (ys ++ zs).
    rewrite (outcome_bind_ok _ _ _ Hys), (outcome_bind_ok _ _ _ Hzs).
    reflexivity.
Qed.

Lemma bind_ext {A B} (m : M A) (f g : A -> M B) :
  (forall x, outcome m = inr x -> f x = g x) -> bind m f = bind m g.
Proof.
  destruct m as [l [e | x]]; simpl; intros H; [reflexivity |].
  now rewrite (H x eq_refl).
Qed.

Lemma getitem_inr {A} (a : list A) i x :
  outcome (getitem a i) = inr x <-> nth_error a i = Some x.
Proof.
  unfold getitem. destruct (nth_error a i); simpl; split; intros H;
    try discriminate; congruence.
Qed.

(** ** Site generator: what each emitted site is *)

Section SiteFacts.

Variable find_mic : vec -> Cell -> bool * bool * bool -> vec * R.
Variables (pos : list vec) (cl : Cell) (pb : bool * bool * bool).
Variables (ads_dist dist_thr margin : R).

Lemma top_site_inv idx out s :
  outcome (top_site pos ads_dist margin idx) = inr out -> In s out ->
  exists q, nth_error pos idx = Some q /\
    s = (Top idx, vadd q (vmul normal ads_dist)) /\
    vz q + margin < vz (vadd q (vmul normal ads_dist)).
Proof.
  unfold top_site. intros H Hin.
  apply outcome_bind_inr in H. destruct H as (q & Hq & H).
  apply getitem_inr in Hq. exists q. split; [exact Hq |].
  destruct (Rgtb _ _) eqn:E; injection H as <-; simpl in Hin;
    [| contradiction].
  destruct Hin as [<- | []]. split; [reflexivity |].
  apply Rltb_true_iff in E. exact E.
Qed.

Lemma bridge_site_inv idx1 idx2 out s :
  outcome (bridge_site find_mic pos cl pb ads_dist dist_thr margin idx1 idx2)
    = inr out ->
  In s out ->
  exists p1 p2, nth_error pos idx1 = Some p1 /\ nth_error pos idx2 = Some p2 /\
    s = (Bridge idx1 idx2,
         vadd (vadd p1 (vdiv (fst (find_mic (vsub p2 p1) cl pb)) 2))
              (vmul normal ads_dist)) /\
    snd (find_mic (vsub p2 p1) cl pb) <= dist_thr.
Proof.
  unfold bridge_site. intros H Hin.
  apply outcome_bind_inr in H. destruct H as (p2 & Hp2 & H).
  apply outcome_bind_inr in H. destruct H as (p1 & Hp1 & H).
  apply getitem_inr in Hp1, Hp2. exists p1, p2.
  split; [exact Hp1 |]. split; [exact Hp2 |].
  destruct (find_mic (vsub p2 p1) cl pb) as [v d]; simpl.
  destruct (Rleb d dist_thr) eqn:Ed.
  - destruct (Rgtb _ _); injection H as <-; simpl in Hin; [| contradiction].
    destruct Hin as [<- | []]. split; [reflexivity |].
    apply Rleb_true_iff in Ed. exact Ed.
  - injection H as <-. destruct Hin.
Qed.

Lemma hollow_site_inv idx1 idx2 idx3 out s :
  outcome (hollow_site find_mic pos cl pb ads_dist dist_thr margin
             idx1 idx2 idx3) = inr out ->
  In s out ->
  exists p1 p2 p3,
    nth_error pos idx1 = Some p1 /\ nth_error pos idx2 = Some p2 /\
    nth_error pos idx3 = Some p3 /\
    s = (Hollow idx1 idx2 idx3,
         vadd (vadd p1 (vdiv (vadd (fst (find_mic (vsub p2 p1) cl pb))
                                   (fst (find_mic (vsub p3 p1) cl pb))) 3))
              (vmul normal ads_dist)) /\
    snd (find_mic (vsub p2 p1) cl pb) <= dist_thr /\
    snd (find_mic (vsub p3 p1) cl pb) <= dist_thr /\
    snd (find_mic (vsub p3 p2) cl pb) <= dist_thr.
Proof.
  unfold hollow_site. intros H Hin.
  apply outcome_bind_inr in H. destruct H as (p1 & Hp1 & H).
  apply outcome_bind_inr in H. destruct H as (p2 & Hp2 & H).
  apply outcome_bind_inr in H. destruct H as (p3 & Hp3 & H).
  apply getitem_inr in Hp1, Hp2, Hp3. exists p1, p2, p3.
  repeat (split; [assumption |]).
  destruct (find_mic (vsub p2 p1) cl pb) as [v12 d12].
  destruct (find_mic (vsub p3 p1) cl pb) as [v13 d13].
  destruct (find_mic (vsub p3 p2) cl pb) as [v23 d23]. simpl.
  destruct (Rleb d12 dist_thr && Rleb d13 dist_thr && Rleb d23 dist_thr)
    eqn:Ed.
  - apply andb_true_iff in Ed. destruct Ed as [Ed E23].
    apply andb_true_iff in Ed. destruct Ed as [E12 E13].
    apply Rleb_true_iff in E12, E13, E23.
    destruct (Rgtb _ _); injection H as <-; simpl in Hin; [| contradiction].
    destruct Hin as [<- | []]. auto.
  - injection H as <-. destruct Hin.
Qed.

Lemma top_sites_inv surface_atoms out s :
  outcome (top_sites pos ads_dist margin surface_atoms) = inr out ->
  In s out ->
  exists idx ys, In idx surface_atoms /\
    outcome (top_site pos ads_dist margin idx) = inr ys /\ In s ys.
Proof. unfold top_sites. apply for_each_In. Qed.

Lemma bridge_sites_inv surface_atoms out s :
  outcome (bridge_sites find_mic pos cl pb ads_dist dist_thr margin
             surface_atoms) = inr out ->
  In s out ->
  exists idx1 idx2 ys, In idx1 surface_atoms /\ In idx2 surface_atoms /\
    outcome (bridge_site find_mic pos cl pb ads_dist dist_thr margin
               idx1 idx2) = inr ys /\ In s ys.
Proof.
  unfold bridge_sites. intros H Hin.
  destruct (for_each_In _ _ _ _ H Hin) as ([i idx1] & ys & Hi & Hys & Hs).
  destruct (for_each_In _ _ _ _ Hys Hs) as (idx2 & zs & Hj & Hzs & Hs').
  exists idx1, idx2, zs. repeat split; try assumption.
  - unfold enumerate in Hi. apply in_combine_r in Hi. exact Hi.
  - revert Hj. generalize (i + 1)%nat. intros n Hj.
    rewrite <- (firstn_skipn n surface_atoms). apply in_or_app. now right.
Qed.

Lemma hollow_sites_inv surface_atoms out s :
  outcome (hollow_sites find_mic pos cl pb ads_dist dist_thr margin
             surface_atoms) = inr out ->
  In s out ->
  exists idx1 idx2 idx3 ys,
    In idx1 surface_atoms /\ In idx2 surface_atoms /\
    In idx3 surface_atoms /\
    outcome (hollow_site find_mic pos cl pb ads_dist dist_thr margin
               idx1 idx2 idx3) = inr ys /\ In s ys.
Proof.
  unfold hollow_sites. intros H Hin.
  destruct (for_each_In _ _ _ _ H Hin) as (i & ys & Hi & Hys & Hs).
  destruct (for_each_In _ _ _ _ Hys Hs) as (j & zs & Hj & Hzs & Hs').
  destruct (for_each_In _ _ _ _ Hzs Hs') as (k & ws & Hk & Hws & Hs'').
  apply outcome_bind_inr in Hws. destruct Hws as (idx1 & H1 & Hws).
  apply outcome_bind_inr in Hws. destruct Hws as (idx2 & H2 & Hws).
  apply outcome_bind_inr in Hws. destruct Hws as (idx3 & H3 & Hws).
  apply getitem_inr in H1, H2, H3.
  exists idx1, idx2, idx3, ws.
  repeat split; try assumption; eapply nth_error_In; eassumption.
Qed.

End SiteFacts.

Lemma nth_error_pos_at slab i q :
  nth_error (positions slab) i = Some q -> pos_at slab i = q.
Proof. intros H. unfold pos_at. now apply nth_error_nth. Qed.

(** Every site returned comes from exactly one of the three passes, and its
    label says which. *)
Lemma generate_adsorption_sites_inv find_mic slab surface_atoms
    ads_dist dist_thr margin sites s :
  outcome (generate_adsorption_sites find_mic slab surface_atoms
             ads_dist dist_thr margin) = inr sites ->
  In s sites ->
  (exists i, In i surface_atoms /\ (i < natoms slab)%nat /\
     s = (Top i, vadd (pos_at slab i) (vmul normal ads_dist)) /\
     vz (pos_at slab i) + margin
       < vz (vadd (pos_at slab i) (vmul normal ads_dist)))
  \/
  (exists i j, In i surface_atoms /\ In j surface_atoms /\
     s = (Bridge i j,
          vadd (vadd (pos_at slab i) (vdiv (mic_vector find_mic slab i j) 2))
               (vmul normal ads_dist)) /\
     mic_distance find_mic slab i j <= dist_thr)
  \/
  (exists i j k, In i surface_atoms /\ In j surface_atoms /\
     In k surface_atoms /\
     s = (Hollow i j k,
          vadd (vadd (pos_at slab i)
                     (vdiv (vadd (mic_vector find_mic slab i j)
                                 (mic_vector find_mic slab i k)) 3))
               (vmul normal ads_dist)) /\
     mic_distance find_mic slab i j <= dist_thr /\
     mic_distance find_mic slab i k <= dist_thr /\
     mic_distance find_mic slab j k <= dist_thr).
Proof.
  unfold generate_adsorption_sites. intros H Hin.
  apply outcome_bind_inr in H. destruct H as (tops & Ht & H).
  apply outcome_bind_inr in H. destruct H as (bridges & Hb & H).
  apply outcome_bind_inr in H. destruct H as (hollows & Hh & H).
  injection H as <-.
  apply in_app_or in Hin. destruct Hin as [Hin | Hin];
    [| apply in_app_or in Hin; destruct Hin as [Hin | Hin]].
  - left. destruct (top_sites_inv _ _ _ _ _ _ Ht Hin) as (i & ys & Hi & Hys & Hs).
    destruct (top_site_inv _ _ _ _ _ _ Hys Hs) as (q & Hq & -> & Hz).
    exists i. split; [exact Hi |]. split.
    { apply nth_error_Some. unfold natoms. congruence. }
    rewrite (nth_error_pos_at _ _ _ Hq). auto.
  - right; left.
    destruct (bridge_sites_inv _ _ _ _ _ _ _ _ _ _ Hb Hin)
      as (i & j & ys & Hi & Hj & Hys & Hs).
    destruct (bridge_site_inv _ _ _ _ _ _ _ _ _ _ _ Hys Hs)
      as (p1 & p2 & H1 & H2 & -> & Hd).
    exists i, j. unfold mic_vector, mic_distance.
    rewrite (nth_error_pos_at _ _ _ H1), (nth_error_pos_at _ _ _ H2). auto.
  - right; right.
    destruct (hollow_sites_inv _ _ _ _ _ _ _ _ _ _ Hh Hin)
      as (i & j & k & ys & Hi & Hj & Hk & Hys & Hs).
    destruct (hollow_site_inv _ _ _ _ _ _ _ _ _ _ _ _ Hys Hs)
      as (p1 & p2 & p3 & H1 & H2 & H3 & -> & Hd).
    exists i, j, k. unfold mic_vector, mic_distance.
    rewrite (nth_error_pos_at _ _ _ H1), (nth_error_pos_at _ _ _ H2),
      (nth_error_pos_at _ _ _ H3). auto.
Qed.

(** ** Evaluating the model on numerals *)

Lemma norm_eq v t : 0 <= t -> dot v v = t * t -> norm v = t.
Proof. intros Ht H. unfold norm. rewrite H. now apply sqrt_square. Qed.

Ltac Rmaxmin :=
  repeat match goal with
    | |- context [Rmax ?x ?y] =>
        first [ rewrite (Rmax_left x y) by lra
              | rewrite (Rmax_right x y) by lra ]
    | |- context [Rmin ?x ?y] =>
        first [ rewrite (Rmin_left x y) by lra
              | rewrite (Rmin_right x y) by lra ]
    end.

Ltac norm_is t :=
  match goal with
  | |- context [norm ?v] => rewrite (norm_eq v t) by (unfold dot; cbn; lra)
  end.

Ltac vec_eq :=
  unfold vadd, vsub, vmul, vdiv, vscale, vopp, cross, normal, lift_z, vzero;
  cbn [vx vy vz]; f_equal; lra.

Ltac run_sites :=
  unfold generate_adsorption_sites, top_sites, bridge_sites, hollow_sites;
  cbn; unfold top_site, bridge_site, hollow_site; cbn.

Example sites_one_atom :
  outcome (generate_adsorption_sites find_mic_open slab_one_atom [0%nat]
             (18 / 10) 3 (2 / 10))
  = inr [(Top 0, V3 0 0 (18 / 10))].
Proof. run_sites. Rcompare. cbn. repeat f_equal. vec_eq. Qed.

(** With [dist_thr = 2] the pair is bridged through the boundary. *)
Example sites_across_boundary :
  outcome (generate_adsorption_sites find_mic_ortho slab_across_boundary
             [0; 1]%nat (18 / 10) 2 (2 / 10))
  = inr [(Top 0, V3 (1 / 2) 0 (18 / 10));
         (Top 1, V3 (7 / 2) 0 (18 / 10));
         (Bridge 0 1, V3 0 0 (18 / 10))].
Proof.
  run_sites. unfold wrap1. Rcompare. norm_is 1. Rmaxmin. Rcompare. cbn.
  repeat f_equal; vec_eq.
Qed.

(** With [dist_thr = 1/2] it is not. *)
Example sites_across_boundary_short :
  outcome (generate_adsorption_sites find_mic_ortho slab_across_boundary
             [0; 1]%nat (18 / 10) (1 / 2) (2 / 10))
  = inr [(Top 0, V3 (1 / 2) 0 (18 / 10));
         (Top 1, V3 (7 / 2) 0 (18 / 10))].
Proof.
  run_sites. unfold wrap1. Rcompare. norm_is 1. Rcompare. cbn.
  repeat f_equal; vec_eq.
Qed.

Example mic_across_boundary :
  mic_vector find_mic_ortho slab_across_boundary 0 1 = V3 (-1) 0 0 /\
  mic_distance find_mic_ortho slab_across_boundary 0 1 = 1.
Proof.
  unfold mic_vector, mic_distance; cbn. unfold wrap1. Rcompare.
  split; [cbn; vec_eq | cbn; norm_is 1; reflexivity].
Qed.

(** ** Site generator: the claims *)

(** C6, as stated, fails in binary64: for an atom at height 10.3 and
    [ads_dist = 1.8] the Top site is at height 12.100000000000001, and the
    difference of the two heights is 1.8000000000000007, not 1.8. *)
Lemma top_site_height_is_rounded :
  outcome (top_site_binary64 [FV3 0 0 10.3] 1.8 0.2 0)
    = inr [(Top 0, FV3 0 0 12.100000000000001)] /\
  PrimFloat.sub 12.100000000000001 10.3 = 1.8000000000000007%float /\
  PrimFloat.eqb 1.8000000000000007 1.8 = false.
Proof. repeat split; vm_compute; reflexivity. Qed.

(** What the Top pass computes in binary64: the z coordinate of the site is
    the rounded sum of [pos[idx].z] and [1.0 * ads_dist]. *)
Lemma top_site_binary64_height pos ads_dist margin idx out l s :
  outcome (top_site_binary64 pos ads_dist margin idx) = inr out ->
  In (l, s) out ->
  exists p, nth_error pos idx = Some p /\ l = Top idx /\
    fz s = PrimFloat.add (fz p) (PrimFloat.mul 1 ads_dist).
Proof.
  unfold top_site_binary64. intros H Hin.
  apply outcome_bind_inr in H. destruct H as (p & Hp & H).
  apply getitem_inr in Hp. exists p. split; [exact Hp |].
  destruct (PrimFloat.ltb _ _); injection H as <-; simpl in Hin;
    [| contradiction].
  destruct Hin as [E | []]. injection E as <- <-. split; reflexivity.
Qed.

(** C6, as the code has it. In exact arithmetic every Top site the generator
    returns, with source atom [i], lies exactly [ads_dist] above [pos[i]]:
    [site.z - pos[i].z = ads_dist], and its x and y coordinates are those of
    [pos[i]].  (In binary64 [site.z] is the rounded sum, see above.) *)
Theorem top_site_height_law find_mic slab surface_atoms ads_dist dist_thr
    margin sites i p :
  outcome (generate_adsorption_sites find_mic slab surface_atoms
             ads_dist dist_thr margin) = inr sites ->
  In (Top i, p) sites ->
  (i < natoms slab)%nat /\
  vz p - vz (pos_at slab i) = ads_dist /\
  vx p = vx (pos_at slab i) /\
  vy p = vy (pos_at slab i).
Proof.
  intros H Hin.
  destruct (generate_adsorption_sites_inv _ _ _ _ _ _ _ _ H Hin)
    as [(i' & _ & Hlt & E & _) | [(i' & j & _ & _ & E & _)
                                 | (i' & j & k & _ & _ & _ & E & _)]];
    try discriminate.
  injection E as <- ->. split; [exact Hlt |].
  unfold vadd, vmul, normal; cbn. repeat split; lra.
Qed.

Lemma top_site_height_law_witness :
  In (Top 0, V3 0 0 (18 / 10)) [(Top 0, V3 0 0 (18 / 10))] /\
  ((0 < natoms slab_one_atom)%nat /\
   vz (V3 0 0 (18 / 10)) - vz (pos_at slab_one_atom 0) = 18 / 10 /\
   vx (V3 0 0 (18 / 10)) = vx (pos_at slab_one_atom 0) /\
   vy (V3 0 0 (18 / 10)) = vy (pos_at slab_one_atom 0)).
Proof.
  split; [left; reflexivity |].
  apply (top_site_height_law find_mic_open slab_one_atom [0%nat]
           (18 / 10) 3 (2 / 10) _ 0%nat (V3 0 0 (18 / 10)) sites_one_atom).
  left; reflexivity.
Defined.

(** C3. Every Bridge site returned for surface atoms [i] and [j] is
    [pos[i]] plus half the minimum-image vector from [i] to [j], plus
    [ads_dist] along z; when that vector differs from the raw displacement
    [pos[j] - pos[i]], the site differs from the raw Cartesian midpoint
    raised by [ads_dist]. *)
Theorem bridge_site_uses_minimum_image find_mic slab surface_atoms ads_dist
    dist_thr margin sites i j p :
  outcome (generate_adsorption_sites find_mic slab surface_atoms
             ads_dist dist_thr margin) = inr sites ->
  In (Bridge i j, p) sites ->
  p = vadd (vadd (pos_at slab i) (vdiv (mic_vector find_mic slab i j) 2))
           (lift_z ads_dist) /\
  (mic_vector find_mic slab i j <> vsub (pos_at slab j) (pos_at slab i) ->
   p <> vadd (naive_midpoint slab i j) (lift_z ads_dist)).
Proof.
  intros H Hin.
  destruct (generate_adsorption_sites_inv _ _ _ _ _ _ _ _ H Hin)
    as [(i' & _ & _ & E & _) | [(i' & j' & _ & _ & E & _)
                               | (i' & j' & k & _ & _ & _ & E & _)]];
    try discriminate.
  injection E as <- <- ->.
  set (m := mic_vector find_mic slab i j).
  set (a := pos_at slab i). set (b := pos_at slab j).
  split.
  - unfold vadd, vmul, vdiv, normal, lift_z; cbn. f_equal; lra.
  - intros Hne Heq. apply Hne. unfold naive_midpoint in Heq.
    fold a b in Heq.
    destruct m as [mx my mz], a as [ax ay az], b as [bx byy bz].
    unfold vadd, vmul, vdiv, vsub, normal, lift_z in *; cbn in *.
    injection Heq as Hx Hy Hz. f_equal; lra.
Qed.

Lemma bridge_site_uses_minimum_image_witness :
  V3 0 0 (18 / 10)
    = vadd (vadd (pos_at slab_across_boundary 0)
                 (vdiv (mic_vector find_mic_ortho slab_across_boundary 0 1) 2))
           (lift_z (18 / 10)) /\
  V3 0 0 (18 / 10)
    <> vadd (naive_midpoint slab_across_boundary 0 1) (lift_z (18 / 10)).
Proof.
  destruct (bridge_site_uses_minimum_image find_mic_ortho
              slab_across_boundary [0; 1]%nat (18 / 10) 2 (2 / 10) _
              0%nat 1%nat (V3 0 0 (18 / 10)) sites_across_boundary)
    as [E N].
  - right; right; left; reflexivity.
  - split; [exact E |]. apply N.
    rewrite (proj1 mic_across_boundary). cbn.
    intros Habs. injection Habs as Hx. lra.
Defined.

(** C7. No Bridge site is returned for a pair whose minimum-image distance
    exceeds [dist_thr], and no Hollow site for a triple in which one of the
    three pairwise minimum-image distances exceeds [dist_thr]. *)
Theorem distance_gating find_mic slab surface_atoms ads_dist dist_thr margin
    sites :
  outcome (generate_adsorption_sites find_mic slab surface_atoms
             ads_dist dist_thr margin) = inr sites ->
  (forall i j p, mic_distance find_mic slab i j > dist_thr ->
                 ~ In (Bridge i j, p) sites) /\
  (forall i j k p,
     mic_distance find_mic slab i j > dist_thr \/
     mic_distance find_mic slab i k > dist_thr \/
     mic_distance find_mic slab j k > dist_thr ->
     ~ In (Hollow i j k, p) sites).
Proof.
  intros H. split.
  - intros i j p Hd Hin.
    destruct (generate_adsorption_sites_inv _ _ _ _ _ _ _ _ H Hin)
      as [(i' & _ & _ & E & _) | [(i' & j' & _ & _ & E & Hle)
                                 | (i' & j' & k & _ & _ & _ & E & _)]];
      try discriminate.
    injection E as <- <- _. lra.
  - intros i j k p Hd Hin.
    destruct (generate_adsorption_sites_inv _ _ _ _ _ _ _ _ H Hin)
      as [(i' & _ & _ & E & _) | [(i' & j' & _ & _ & E & _)
                                 | (i' & j' & k' & _ & _ & _ & E & H1 & H2 & H3)]];
      try discriminate.
    injection E as <- <- <- _. lra.
Qed.

Lemma distance_gating_witness :
  mic_distance find_mic_ortho slab_across_boundary 0 1 > 1 / 2 /\
  forall p,
    ~ In (Bridge 0 1, p)
         [(Top 0, V3 (1 / 2) 0 (18 / 10)); (Top 1, V3 (7 / 2) 0 (18 / 10))].
Proof.
  assert (Hd : mic_distance find_mic_ortho slab_across_boundary 0 1 > 1 / 2).
  { rewrite (proj2 mic_across_boundary). lra. }
  split; [exact Hd |]. intros p.
  exact (proj1 (distance_gating find_mic_ortho slab_across_boundary
                  [0; 1]%nat (18 / 10) (1 / 2) (2 / 10) _
                  sites_across_boundary_short) 0%nat 1%nat p Hd).
Defined.

(** ** Surface selector: order statistics and indexing *)

Lemma insert_sorted_In x l y : In y (insert_sorted x l) <-> y = x \/ In y l.
Proof.
  induction l as [| z l IH]; simpl.
  - intuition.
  - destruct (Rleb x z); simpl; rewrite ?IH; intuition.
Qed.

Lemma sort_In l y : In y (sort l) <-> In y l.
Proof.
  induction l as [| x l IH]; simpl; [reflexivity |].
  rewrite insert_sorted_In, IH. intuition.
Qed.

Lemma insert_sorted_length x l : length (insert_sorted x l) = S (length l).
Proof.
  induction l as [| z l IH]; simpl; [reflexivity |].
  destruct (Rleb x z); simpl; [reflexivity | now rewrite IH].
Qed.

Lemma sort_length l : length (sort l) = length l.
Proof.
  induction l as [| x l IH]; simpl; [reflexivity |].
  now rewrite insert_sorted_length, IH.
Qed.

Lemma list_upper_bound (l : list R) :
  l <> [] -> exists m, In m l /\ forall x, In x l -> x <= m.
Proof.
  induction l as [| x l IH]; [congruence |]. intros _.
  destruct l as [| y l'].
  - exists x. split; [now left |]. intros z [<- | []]. lra.
  - destruct IH as (m & Hm & Hle); [discriminate |].
    destruct (Rle_dec x m) as [Hx | Hx].
    + exists m. split; [now right |]. intros z [<- | Hz]; auto.
    + exists x. split; [now left |]. intros z [<- | Hz]; [lra |].
      specialize (Hle z Hz). lra.
Qed.

Lemma lerp_le a b t m : 0 <= t <= 1 -> a <= m -> b <= m -> lerp a b t <= m.
Proof.
  intros Ht Ha Hb. unfold lerp. destruct (Rgeb t (1 / 2)); nra.
Qed.

Lemma Int_part_range (v : R) (n : nat) :
  0 <= v -> v < INR n - 1 ->
  (S (Z.to_nat (Int_part v)) < n)%nat /\ 0 <= v - IZR (Int_part v) <= 1.
Proof.
  intros H0 Hn. destruct (base_Int_part v) as [Hle Hgt].
  assert (Hz : (0 <= Int_part v)%Z).
  { apply Z.lt_succ_r, lt_IZR. rewrite succ_IZR. lra. }
  assert (Hup : (Int_part v < Z.of_nat n - 1)%Z).
  { apply lt_IZR. rewrite minus_IZR, <- INR_IZR_INZ. simpl. lra. }
  split; [lia | lra].
Qed.

(** On a non-empty array and a percentile in range, [numpy.percentile]
    returns a value that no upper bound of the array falls below. *)
Lemma percentile_le_max (a : list R) (q : R) :
  a <> [] -> 0 <= q <= 100 ->
  exists z, percentile a q = ret z /\
            forall m, (forall x, In x a -> x <= m) -> z <= m.
Proof.
  intros Ha Hq. unfold percentile.
  rewrite (proj2 (Rleb_true_iff 0 (q / 100))) by lra.
  rewrite (proj2 (Rleb_true_iff (q / 100) 1)) by lra.
  destruct a as [| x a']; [congruence |].
  set (a := x :: a') in *. set (v := (INR (length a) - 1) * (q / 100)).
  assert (Hlen : (0 < length (sort a))%nat).
  { rewrite sort_length. simpl. lia. }
  destruct (Rgeb v (INR (length a) - 1)) eqn:E.
  - eexists. split; [reflexivity |]. intros m Hm. apply Hm, sort_In.
    destruct (sort a) as [| y s] eqn:Es; [simpl in Hlen; lia |].
    rewrite <- Es at 2. rewrite Es.
    destruct (exists_last (l := y :: s)) as (s' & z & Hs'); [discriminate |].
    rewrite Hs', last_last. apply in_or_app. right. now left.
  - eexists. split; [reflexivity |]. intros m Hm.
    apply Rleb_false_iff in E.
    assert (H1 : 1 <= INR (length a)).
    { change 1 with (INR 1). apply le_INR. simpl. lia. }
    assert (Hv : 0 <= v) by (unfold v; nra).
    destruct (Int_part_range v (length a) Hv E) as [Hi Hg].
    rewrite <- (sort_length a) in Hi.
    apply lerp_le; [exact Hg | |]; apply Hm, sort_In, nth_In; lia.
Qed.

Lemma percentile_out_of_range (a : list R) (q : R) :
  q < 0 \/ 100 < q -> percentile a q = raise ValueError.
Proof.
  intros [H | H]; unfold percentile.
  - rewrite (proj2 (Rleb_false_iff 0 (q / 100))) by lra. reflexivity.
  - rewrite (proj2 (Rleb_true_iff 0 (q / 100))) by lra.
    rewrite (proj2 (Rleb_false_iff (q / 100) 1)) by lra. reflexivity.
Qed.

Lemma percentile_logs (a : list R) (q : R) : logs (percentile a q) = [].
Proof.
  unfold percentile.
  destruct (Rleb 0 (q / 100)); [| reflexivity].
  destruct (Rleb (q / 100) 1); [| reflexivity].
  destruct a; [reflexivity |].
  destruct (Rgeb _ _); reflexivity.
Qed.

Lemma in_combine_seq (zs : list R) (start i : nat) (x : R) :
  In (i, x) (combine (seq start (length zs)) zs) <->
  (start <= i)%nat /\ nth_error zs (i - start) = Some x.
Proof.
  revert start. induction zs as [| z zs IH]; intros start; simpl.
  - split; [intros [] | intros [_ H]]. destruct (i - start)%nat; discriminate.
  - rewrite IH. split.
    + intros [E | [Hle H]].
      * injection E as <- <-. rewrite Nat.sub_diag. split; [lia | reflexivity].
      * split; [lia |]. replace (i - start)%nat with (S (i - S start)) by lia.
        exact H.
    + intros [Hle H]. destruct (i - start)%nat as [| k] eqn:Ek.
      * left. injection H as <-. f_equal. lia.
      * right. split; [lia |]. replace (i - S start)%nat with k by lia.
        exact H.
Qed.

(** [np.where(zs >= z_th)[0]] holds exactly the indices whose height is at
    least [z_th]. *)
Lemma where_ge_In (zs : list R) (z_th : R) (i : nat) :
  In i (where_ge zs z_th) <->
  exists x, nth_error zs i = Some x /\ x >= z_th.
Proof.
  unfold where_ge. rewrite in_map_iff. split.
  - intros ([i' x] & <- & H). apply filter_In in H. destruct H as [H Hx].
    apply in_combine_seq in H. destruct H as [_ H].
    rewrite Nat.sub_0_r in H. exists x. split; [exact H |].
    simpl in Hx. unfold Rgeb in Hx. apply Rleb_true_iff in Hx. lra.
  - intros (x & H & Hx). exists (i, x). split; [reflexivity |].
    apply filter_In. split.
    + apply in_combine_seq. rewrite Nat.sub_0_r. split; [lia | exact H].
    + simpl. unfold Rgeb. apply Rleb_true_iff. lra.
Qed.

Lemma take_In {A} (a : list A) (idx : list nat) (xs : list A) :
  outcome (take a idx) = inr xs -> forall x, In x xs -> In x a.
Proof.
  revert xs. induction idx as [| i idx IH]; simpl; intros xs H x Hx.
  - injection H as <-. destruct Hx.
  - destruct (nth_error a i) as [y |] eqn:E; [| discriminate].
    apply outcome_bind_inr in H. destruct H as (ys & Hys & H).
    injection H as <-. destruct Hx as [<- | Hx].
    + eapply nth_error_In; eassumption.
    + eapply IH; eassumption.
Qed.




(** ** Surface selector: the claims *)

Lemma bind_ret_l {A B} (x : A) (f : A -> M B) : bind (ret x) f = f x.
Proof. unfold bind, ret. destruct (f x); reflexivity. Qed.

Lemma bind_logging {B} (l : level) (m : message) (k : unit -> M B) :
  bind (logging l m) k = ((l, m) :: logs (k tt), outcome (k tt)).
Proof. unfold bind, logging. destruct (k tt); reflexivity. Qed.

Lemma percentile_ret (a : list R) (q z : R) :
  outcome (percentile a q) = inr z -> percentile a q = ret z.
Proof.
  intros H. pose proof (percentile_logs a q) as L.
  destruct (percentile a q) as [l r]. simpl in *. subst. reflexivity.
Qed.

Lemma candidates_In slab z_th i :
  In i (candidates slab z_th) <->
  (i < natoms slab)%nat /\ vz (pos_at slab i) >= z_th.
Proof.
  unfold candidates, heights. rewrite where_ge_In. unfold natoms, pos_at.
  split.
  - intros (x & H & Hx). rewrite nth_error_map in H.
    destruct (nth_error (positions slab) i) as [p |] eqn:E; [| discriminate].
    injection H as <-. split.
    + apply nth_error_Some. congruence.
    + now rewrite (nth_error_nth _ _ _ E).
  - intros [Hi Hz].
    destruct (nth_error (positions slab) i) as [p |] eqn:E.
    + exists (vz p). rewrite nth_error_map, E. split; [reflexivity |].
      now rewrite (nth_error_nth _ _ _ E) in Hz.
    + apply nth_error_None in E. lia.
Qed.

Lemma identify_few_candidates ConvexHull slab pct z_th :
  outcome (percentile (heights slab) pct) = inr z_th ->
  (length (candidates slab z_th) < 3)%nat ->
  outcome (identify_surface_atoms_via_hull ConvexHull slab pct)
  = inr (candidates slab z_th).
Proof.
  intros Hz Hlen. unfold identify_surface_atoms_via_hull.
  fold (heights slab). rewrite (outcome_bind_ok _ _ _ Hz).
  fold (candidates slab z_th). rewrite bind_logging. cbn [outcome snd].
  apply Nat.ltb_lt in Hlen. now rewrite Hlen.
Qed.

Lemma where_ge_from_sorted (zs : list R) (z : R) (start : nat) :
  StronglySorted lt
    (map fst (filter (fun iz => Rgeb (snd iz) z)
                     (combine (seq start (length zs)) zs)))
  /\ Forall (fun i => (start <= i)%nat)
       (map fst (filter (fun iz => Rgeb (snd iz) z)
                        (combine (seq start (length zs)) zs))).
Proof.
  revert start. induction zs as [| x zs IH]; intros start; simpl.
  - split; constructor.
  - destruct (IH (S start)) as [Hs Hf].
    destruct (Rgeb x z); simpl.
    + split.
      * constructor; [exact Hs |].
        eapply Forall_impl; [| exact Hf]. intros i Hi. cbv beta in *. lia.
      * constructor; [lia |].
        eapply Forall_impl; [| exact Hf]. intros i Hi. cbv beta in *. lia.
    + split; [exact Hs |].
      eapply Forall_impl; [| exact Hf]. intros i Hi. cbv beta in *. lia.
Qed.

(** [np.where] lists the indices in ascending order. *)
Lemma where_ge_ascending (zs : list R) (z : R) :
  StronglySorted lt (where_ge zs z).
Proof. apply where_ge_from_sorted. Qed.

(** C4. When fewer than three atom indices satisfy [z_i >= z_th], the
    selector returns exactly the candidate indices, whatever the hull routine
    is (it is not called); it logs a warning and raises nothing.  The
    candidate indices are the atoms of the structure with [z_i >= z_th], each
    listed once, in ascending order. *)
Theorem degenerate_fallback ConvexHull slab pct z_th :
  outcome (percentile (heights slab) pct) = inr z_th ->
  (length (candidates slab z_th) < 3)%nat ->
  identify_surface_atoms_via_hull ConvexHull slab pct
  = ([(INFO, MsgCandidates pct z_th (length (candidates slab z_th)));
      (WARNING, MsgTooFew)],
     inr (candidates slab z_th)) /\
  (forall i, In i (candidates slab z_th) <->
             (i < natoms slab)%nat /\ vz (pos_at slab i) >= z_th) /\
  StronglySorted lt (candidates slab z_th).
Proof.
  intros Hz Hlen. split; [| split].
  - unfold identify_surface_atoms_via_hull.
    fold (heights slab). rewrite (percentile_ret _ _ _ Hz), bind_ret_l.
    fold (candidates slab z_th). rewrite bind_logging.
    apply Nat.ltb_lt in Hlen. rewrite Hlen. reflexivity.
  - intros i. apply candidates_In.
  - apply where_ge_ascending.
Qed.

(** C5. The indices the selector returns are candidates (atoms with
    [z_i >= z_th]), and candidates are atom indices of the structure. *)
Theorem surface_subset_of_candidates ConvexHull slab pct surf :
  outcome (identify_surface_atoms_via_hull ConvexHull slab pct) = inr surf ->
  exists z_th,
    outcome (percentile (heights slab) pct) = inr z_th /\
    (forall i, In i surf -> In i (candidates slab z_th)) /\
    (forall i, In i (candidates slab z_th) ->
               (i < natoms slab)%nat /\ vz (pos_at slab i) >= z_th).
Proof.
  unfold identify_surface_atoms_via_hull. fold (heights slab). intros H.
  apply outcome_bind_inr in H. destruct H as (z_th & Hz & H).
  exists z_th. split; [exact Hz |]. fold (candidates slab z_th) in H.
  split; [| intros i; apply candidates_In].
  apply outcome_bind_inr in H. destruct H as (_ & _ & H).
  destruct (length (candidates slab z_th) <? 3)%nat.
  - apply outcome_bind_inr in H. destruct H as (_ & _ & H).
    injection H as <-. auto.
  - apply outcome_bind_inr in H. destruct H as (pc & _ & H).
    apply outcome_bind_inr in H. destruct H as (vertices & _ & H).
    apply outcome_bind_inr in H. destruct H as (surf' & Ht & H).
    apply outcome_bind_inr in H. destruct H as (_ & _ & H).
    injection H as <-. eapply take_In; eassumption.
Qed.

Ltac Int_part_is z :=
  match goal with
  | |- context [Int_part ?v] =>
      replace (Int_part v) with z by (apply Int_part_spec; cbn; lra);
      let n := eval compute in (Z.to_nat z) in
      change (Z.to_nat z) with n
  end.

Example percentile_three_layers :
  outcome (percentile (heights slab_three_layers) 70) = inr (14 / 10).
Proof.
  unfold percentile. cbn. Rcompare. Int_part_is 1%Z. cbn.
  unfold lerp. Rcompare. cbn. f_equal. lra.
Qed.

Example candidates_three_layers :
  candidates slab_three_layers (14 / 10) = [2%nat].
Proof. unfold candidates, where_ge. cbn. Rcompare. reflexivity. Qed.

Ltac run_identify z :=
  unfold identify_surface_atoms_via_hull, percentile; cbn; Rcompare;
  Int_part_is z; cbn; unfold lerp; Rcompare; unfold where_ge; cbn; Rcompare;
  cbn; unfold orient; cbn; Rcompare; cbn.

Example surface_triangle :
  outcome (identify_surface_atoms_via_hull ConvexHull3 slab_triangle 0)
  = inr [0; 1; 2]%nat.
Proof. run_identify 0%Z. reflexivity. Qed.

Lemma degenerate_fallback_witness :
  identify_surface_atoms_via_hull ConvexHull3 slab_three_layers 70
  = ([(INFO, MsgCandidates 70 (14 / 10)
               (length (candidates slab_three_layers (14 / 10))));
      (WARNING, MsgTooFew)],
     inr (candidates slab_three_layers (14 / 10))) /\
  (forall i, In i (candidates slab_three_layers (14 / 10)) <->
             (i < natoms slab_three_layers)%nat /\
             vz (pos_at slab_three_layers i) >= 14 / 10) /\
  StronglySorted lt (candidates slab_three_layers (14 / 10)).
Proof.
  apply (degenerate_fallback ConvexHull3 slab_three_layers 70 (14 / 10)
           percentile_three_layers).
  rewrite candidates_three_layers. simpl. lia.
Defined.

Lemma surface_subset_of_candidates_witness :
  exists z_th,
    outcome (percentile (heights slab_triangle) 0) = inr z_th /\
    (forall i, In i [0; 1; 2]%nat -> In i (candidates slab_triangle z_th)) /\
    (forall i, In i (candidates slab_triangle z_th) ->
               (i < natoms slab_triangle)%nat /\
               vz (pos_at slab_triangle i) >= z_th).
Proof.
  exact (surface_subset_of_candidates ConvexHull3 slab_triangle 0
           [0; 1; 2]%nat surface_triangle).
Defined.

Lemma take_ret_map {A} (d : A) (a : list A) (idx : list nat) :
  Forall (fun i => (i < length a)%nat) idx ->
  take a idx = ret (map (fun i => nth i a d) idx).
Proof.
  induction 1 as [| i idx Hi _ IH]; simpl; [reflexivity |].
  destruct (nth_error a i) as [y |] eqn:E.
  - rewrite IH, bind_ret_l. now rewrite (nth_error_nth _ _ d E).
  - apply nth_error_None in E. lia.
Qed.

(** The atom of greatest height is always a candidate. *)
Lemma candidates_nonempty slab pct :
  (0 < natoms slab)%nat -> 0 <= pct <= 100 ->
  exists z_th, percentile (heights slab) pct = ret z_th /\
               candidates slab z_th <> [].
Proof.
  intros Hn Hq.
  assert (Hne : heights slab <> []).
  { unfold heights, natoms in *. destruct (positions slab); simpl in *;
      [lia | discriminate]. }
  destruct (percentile_le_max _ _ Hne Hq) as (z & Hz & Hle).
  destruct (list_upper_bound _ Hne) as (m & Hm & Hmax).
  exists z. split; [exact Hz |].
  destruct (In_nth_error _ _ Hm) as (i & Hi).
  assert (Hin : In i (candidates slab z)).
  { apply where_ge_In. exists m. split; [exact Hi |].
    specialize (Hle m Hmax). lra. }
  intros E. rewrite E in Hin. destruct Hin.
Qed.

Lemma candidates_in_range slab z_th :
  Forall (fun i => (i < length (positions slab))%nat) (candidates slab z_th).
Proof.
  apply Forall_forall. intros i Hi. apply candidates_In in Hi. apply Hi.
Qed.

(** The selector on the hull path: the hull routine's error, or the
    candidates the hull routine points at. *)
Lemma identify_hull_path ConvexHull slab pct z_th :
  hull_contract ConvexHull ->
  percentile (heights slab) pct = ret z_th ->
  (3 <= length (candidates slab z_th))%nat ->
  match ConvexHull (candidate_points slab z_th) with
  | inl e =>
      outcome (identify_surface_atoms_via_hull ConvexHull slab pct) = inl e
  | inr vs =>
      outcome (identify_surface_atoms_via_hull ConvexHull slab pct)
        = inr (map (fun v => nth v (candidates slab z_th) 0%nat) vs)
      /\ (3 <= length vs)%nat
  end.
Proof.
  intros Hhull Hz Hlen. unfold identify_surface_atoms_via_hull.
  fold (heights slab). rewrite Hz, bind_ret_l. fold (candidates slab z_th).
  rewrite bind_logging. cbn [outcome snd].
  apply Nat.ltb_ge in Hlen. rewrite Hlen.
  rewrite (take_ret_map vzero _ _ (candidates_in_range slab z_th)), bind_ret_l.
  rewrite map_map. fold (pos_at slab). change (map _ (candidates slab z_th))
    with (candidate_points slab z_th).
  destruct (ConvexHull (candidate_points slab z_th)) as [e | vs] eqn:E.
  - reflexivity.
  - destruct (Hhull _ _ E) as [H3 Hv].
    unfold lift. unfold bind at 1. cbn [app].
    unfold candidate_points in Hv. rewrite length_map in Hv.
    rewrite (take_ret_map 0%nat _ _ Hv), bind_ret_l, bind_logging.
    split; [reflexivity | exact H3].
Qed.

Lemma rotate_natoms masses a v c rc s s' :
  outcome (rotate masses a v c rc s) = inr s' -> natoms s' = natoms s.
Proof.
  unfold rotate. destruct (Reqb (norm v) 0); [discriminate |].
  intros H. injection H as <-. unfold natoms. cbn. apply length_map.
Qed.

Lemma align_natoms masses s s' :
  outcome (align_slab_to_z masses s) = inr s' -> natoms s' = natoms s.
Proof.
  unfold align_slab_to_z.
  destruct (Reqb _ 0); [intros H; injection H as <-; reflexivity |].
  destruct (Rgtb _ _); [| intros H; injection H as <-; reflexivity].
  intros H. apply outcome_bind_inr in H. destruct H as (s1 & H1 & H).
  apply outcome_bind_inr in H. destruct H as (_ & _ & H).
  injection H as <-. eapply rotate_natoms; eassumption.
Qed.

Lemma identify_never_empty ConvexHull slab pct :
  hull_contract ConvexHull -> (0 < natoms slab)%nat -> 0 <= pct <= 100 ->
  outcome (identify_surface_atoms_via_hull ConvexHull slab pct) <> inr [].
Proof.
  intros Hhull Hn Hq.
  destruct (candidates_nonempty slab pct Hn Hq) as (z_th & Hz & Hne).
  destruct (Nat.lt_ge_cases (length (candidates slab z_th)) 3) as [Hlt | Hge].
  - rewrite (identify_few_candidates ConvexHull slab pct z_th) by
      (rewrite ?Hz; auto). cbn. congruence.
  - pose proof (identify_hull_path ConvexHull slab pct z_th Hhull Hz Hge) as P.
    destruct (ConvexHull (candidate_points slab z_th)) as [e | vs].
    + rewrite P. discriminate.
    + destruct P as [-> H3]. destruct vs; [simpl in H3; lia | discriminate].
Qed.

(** C10, as the code has it. For a structure with at least one atom and a
    percentile in [0, 100] the candidate set is never empty.  The selector
    then returns a non-empty sequence, except that on the hull path an error
    of the hull routine is passed on; it never returns the empty sequence, so
    the branch of the caller for an empty surface is dead: the loop body
    equals the same body without it. *)
Theorem empty_surface_unreachable ConvexHull slab pct :
  hull_contract ConvexHull -> (0 < natoms slab)%nat -> 0 <= pct <= 100 ->
  (exists z_th,
     outcome (percentile (heights slab) pct) = inr z_th /\
     candidates slab z_th <> [] /\
     ((exists surf,
         outcome (identify_surface_atoms_via_hull ConvexHull slab pct)
           = inr surf /\ surf <> [])
      \/
      (exists e,
         (3 <= length (candidates slab z_th))%nat /\
         ConvexHull (candidate_points slab z_th) = inl e /\
         outcome (identify_surface_atoms_via_hull ConvexHull slab pct)
           = inl e)))
  /\
  (forall atomic_masses atomic_numbers find_mic w r fname base args,
     heap w r = slab -> arg_percentile args = pct ->
     process_slab atomic_masses atomic_numbers ConvexHull find_mic
       w r fname base args
     = (aligned <- align_slab_to_z atomic_masses (heap w r) ;;
        let w := store w r aligned in
        surf <- identify_surface_atoms_via_hull ConvexHull (heap w r)
                  (arg_percentile args) ;;
        sites <- generate_adsorption_sites find_mic (heap w r) surf
                   (arg_ads_dist args) (arg_dist_thr args) (arg_margin args) ;;
        write_sites atomic_numbers w r sites base args)).
Proof.
  intros Hhull Hn Hq. split.
  - destruct (candidates_nonempty slab pct Hn Hq) as (z_th & Hz & Hne).
    exists z_th. split; [rewrite Hz; reflexivity |]. split; [exact Hne |].
    destruct (Nat.lt_ge_cases (length (candidates slab z_th)) 3) as [Hlt | Hge].
    + left. exists (candidates slab z_th). split; [| exact Hne].
      rewrite (identify_few_candidates ConvexHull slab pct z_th) by
        (rewrite ?Hz; auto). reflexivity.
    + pose proof (identify_hull_path ConvexHull slab pct z_th Hhull Hz Hge)
        as P.
      destruct (ConvexHull (candidate_points slab z_th)) as [e | vs].
      * right. exists e. auto.
      * left. destruct P as [P H3]. eexists. split; [exact P |].
        destruct vs; [simpl in H3; lia | discriminate].
  - intros masses nums find_mic w r fname base args Hs Hp.
    unfold process_slab. apply bind_ext. intros aligned Ha. cbv zeta.
    apply bind_ext. intros surf Hsurf.
    assert (Hheap : heap (store w r aligned) r = aligned).
    { unfold store; cbn. now rewrite Nat.eqb_refl. }
    assert (Hn' : (0 < natoms (heap (store w r aligned) r))%nat).
    { rewrite Hheap, (align_natoms masses (heap w r) aligned Ha), Hs.
      exact Hn. }
    destruct surf as [| i surf]; [| reflexivity].
    exfalso. subst pct.
    exact (identify_never_empty ConvexHull _ _ Hhull Hn' Hq Hsurf).
Qed.

Lemma ConvexHull3_contract : hull_contract ConvexHull3.
Proof.
  intros pts vs. unfold ConvexHull3.
  destruct pts as [| a [| b [| c [| d pts]]]]; try discriminate.
  destruct (Rgtb _ _); [| destruct (Rltb _ _)]; intros H;
    try discriminate; injection H as <-; simpl;
    (split; [lia | repeat constructor; lia]).
Qed.

(** C10, as stated, fails on three candidates on a line: the hull routine
    rejects them and the selector returns no sequence at all. *)
Lemma selector_raises_on_collinear_candidates :
  hull_contract ConvexHull3 /\
  (0 < natoms slab_collinear)%nat /\ 0 <= 70 <= 100 /\
  outcome (identify_surface_atoms_via_hull ConvexHull3 slab_collinear 70)
    = inl QhullError /\
  ~ (exists surf,
       outcome (identify_surface_atoms_via_hull ConvexHull3 slab_collinear 70)
         = inr surf /\ surf <> []).
Proof.
  assert (E : outcome (identify_surface_atoms_via_hull ConvexHull3
                         slab_collinear 70) = inl QhullError).
  { run_identify 1%Z. reflexivity. }
  split; [exact ConvexHull3_contract |]. split; [cbn; lia |].
  split; [lra |]. split; [exact E |].
  intros (surf & H & _). rewrite E in H. discriminate.
Qed.

Lemma empty_surface_unreachable_witness :
  exists z_th,
    outcome (percentile (heights slab_triangle) 0) = inr z_th /\
    candidates slab_triangle z_th <> [] /\
    ((exists surf,
        outcome (identify_surface_atoms_via_hull ConvexHull3 slab_triangle 0)
          = inr surf /\ surf <> [])
     \/
     (exists e,
        (3 <= length (candidates slab_triangle z_th))%nat /\
        ConvexHull3 (candidate_points slab_triangle z_th) = inl e /\
        outcome (identify_surface_atoms_via_hull ConvexHull3 slab_triangle 0)
          = inl e)).
Proof.
  refine (proj1 (empty_surface_unreachable ConvexHull3 slab_triangle 0
                   ConvexHull3_contract _ _)).
  - cbn. lia.
  - lra.
Defined.

(** ** Configuration values *)

Section Totality.

Variable find_mic : vec -> Cell -> bool * bool * bool -> vec * R.
Variables (pos : list vec) (cl : Cell) (pb : bool * bool * bool).
Variables (ads_dist dist_thr margin : R).

Lemma getitem_returns {A} (a : list A) i :
  (i < length a)%nat -> exists x, getitem a i = ret x.
Proof.
  intros H. unfold getitem. destruct (nth_error a i) as [x |] eqn:E.
  - now exists x.
  - apply nth_error_None in E. lia.
Qed.

Lemma top_site_returns idx :
  (idx < length pos)%nat ->
  exists ys, outcome (top_site pos ads_dist margin idx) = inr ys.
Proof.
  intros H. unfold top_site.
  destruct (getitem_returns pos idx H) as (p & ->). rewrite bind_ret_l.
  destruct (Rgtb _ _); eexists; reflexivity.
Qed.

Lemma bridge_site_returns idx1 idx2 :
  (idx1 < length pos)%nat -> (idx2 < length pos)%nat ->
  exists ys,
    outcome (bridge_site find_mic pos cl pb ads_dist dist_thr margin
               idx1 idx2) = inr ys.
Proof.
  intros H1 H2. unfold bridge_site.
  destruct (getitem_returns pos idx2 H2) as (p2 & ->). rewrite bind_ret_l.
  destruct (getitem_returns pos idx1 H1) as (p1 & ->). rewrite bind_ret_l.
  destruct (find_mic _ _ _) as [v d].
  destruct (Rleb _ _); [destruct (Rgtb _ _) |]; eexists; reflexivity.
Qed.

Lemma hollow_site_returns idx1 idx2 idx3 :
  (idx1 < length pos)%nat -> (idx2 < length pos)%nat ->
  (idx3 < length pos)%nat ->
  exists ys,
    outcome (hollow_site find_mic pos cl pb ads_dist dist_thr margin
               idx1 idx2 idx3) = inr ys.
Proof.
  intros H1 H2 H3. unfold hollow_site.
  destruct (getitem_returns pos idx1 H1) as (p1 & ->). rewrite bind_ret_l.
  destruct (getitem_returns pos idx2 H2) as (p2 & ->). rewrite bind_ret_l.
  destruct (getitem_returns pos idx3 H3) as (p3 & ->). rewrite bind_ret_l.
  destruct (find_mic (vsub p2 p1) cl pb) as [v12 d12].
  destruct (find_mic (vsub p3 p1) cl pb) as [v13 d13].
  destruct (find_mic (vsub p3 p2) cl pb) as [v23 d23].
  destruct (_ && _); [destruct (Rgtb _ _) |]; eexists; reflexivity.
Qed.

Variable surface_atoms : list nat.
Hypothesis valid : Forall (fun i => (i < length pos)%nat) surface_atoms.

Lemma top_sites_returns :
  exists ys, outcome (top_sites pos ads_dist margin surface_atoms) = inr ys.
Proof.
  apply for_each_returns. intros idx Hin. apply top_site_returns.
  rewrite Forall_forall in valid. auto.
Qed.

Lemma bridge_sites_returns :
  exists ys,
    outcome (bridge_sites find_mic pos cl pb ads_dist dist_thr margin
               surface_atoms) = inr ys.
Proof.
  rewrite Forall_forall in valid.
  apply for_each_returns. intros [i idx1] Hin.
  apply for_each_returns. intros idx2 Hin2.
  apply bridge_site_returns; apply valid.
  - unfold enumerate in Hin. now apply in_combine_r in Hin.
  - rewrite <- (firstn_skipn (i + 1) surface_atoms).
    apply in_or_app. now right.
Qed.

Lemma hollow_sites_returns :
  exists ys,
    outcome (hollow_sites find_mic pos cl pb ads_dist dist_thr margin
               surface_atoms) = inr ys.
Proof.
  rewrite Forall_forall in valid.
  assert (Hrange : forall a b i, In i (range a b) -> (i < b)%nat).
  { intros a b i Hi. unfold range in Hi. apply in_seq in Hi. lia. }
  apply for_each_returns. intros i Hi.
  apply for_each_returns. intros j Hj.
  apply for_each_returns. intros k Hk.
  apply Hrange in Hi, Hj, Hk.
  destruct (nth_error surface_atoms i) as [idx1 |] eqn:E1;
    [| apply nth_error_None in E1; lia].
  destruct (nth_error surface_atoms j) as [idx2 |] eqn:E2;
    [| apply nth_error_None in E2; lia].
  destruct (nth_error surface_atoms k) as [idx3 |] eqn:E3;
    [| apply nth_error_None in E3; lia].
  unfold getitem. rewrite E1, bind_ret_l, E2, bind_ret_l, E3, bind_ret_l.
  apply hollow_site_returns; apply valid; eapply nth_error_In; eassumption.
Qed.

End Totality.

Lemma generate_adsorption_sites_returns find_mic slab surface_atoms
    ads_dist dist_thr margin :
  Forall (fun i => (i < natoms slab)%nat) surface_atoms ->
  exists sites,
    outcome (generate_adsorption_sites find_mic slab surface_atoms
               ads_dist dist_thr margin) = inr sites.
Proof.
  intros Hv. unfold generate_adsorption_sites.
  destruct (top_sites_returns (positions slab) ads_dist margin
              surface_atoms Hv) as (tops & Ht).
  destruct (bridge_sites_returns find_mic (positions slab) (cell slab)
              (pbc slab) ads_dist dist_thr margin surface_atoms Hv)
    as (bridges & Hb).
  destruct (hollow_sites_returns find_mic (positions slab) (cell slab)
              (pbc slab) ads_dist dist_thr margin surface_atoms Hv)
    as (hollows & Hh).
  exists (tops ++ bridges ++ hollows).
  rewrite (outcome_bind_ok _ _ _ Ht), (outcome_bind_ok _ _ _ Hb),
    (outcome_bind_ok _ _ _ Hh).
  reflexivity.
Qed.

(** C2, as stated, fails: with a negative [ads_dist], [dist_thr] and
    [margin] the site generator raises nothing and returns a site below the
    atom. *)
Lemma negative_configuration_accepted :
  outcome (generate_adsorption_sites find_mic_open slab_one_atom [0%nat]
             (-1) (-1) (-2))
  = inr [(Top 0, V3 0 0 (-1))].
Proof. run_sites. Rcompare. cbn. repeat f_equal. vec_eq. Qed.

(** C2, as the code has it. Only the percentile is checked, by
    [numpy.percentile]: out of [0, 100] the selector raises [ValueError] at
    once, before anything is logged or computed.  [ads_dist], [dist_thr] and
    [margin] are not checked: whatever their values, the site generator
    returns a list of sites for valid surface indices. *)
Theorem only_percentile_is_validated ConvexHull find_mic slab surface_atoms
    pct ads_dist dist_thr margin :
  Forall (fun i => (i < natoms slab)%nat) surface_atoms ->
  (pct < 0 \/ 100 < pct ->
   identify_surface_atoms_via_hull ConvexHull slab pct = raise ValueError) /\
  (exists sites,
     outcome (generate_adsorption_sites find_mic slab surface_atoms
                ads_dist dist_thr margin) = inr sites).
Proof.
  intros Hv. split.
  - intros Hq. unfold identify_surface_atoms_via_hull.
    rewrite (percentile_out_of_range _ _ Hq). reflexivity.
  - now apply generate_adsorption_sites_returns.
Qed.

Lemma only_percentile_is_validated_witness :
  identify_surface_atoms_via_hull ConvexHull3 slab_one_atom 150
    = raise ValueError /\
  (exists sites,
     outcome (generate_adsorption_sites find_mic_open slab_one_atom [0%nat]
                (-1) (-1) (-2)) = inr sites).
Proof.
  destruct (only_percentile_is_validated ConvexHull3 find_mic_open
              slab_one_atom [0%nat] 150 (-1) (-1) (-2)) as [H1 H2].
  - repeat constructor.
  - split; [apply H1; right; lra | exact H2].
Defined.

(** ** Assembler *)

(** C9. [add_adsorbate_and_write] builds a new structure: the input
    structure with exactly one atom appended, of the given element and at the
    given position, with the cell and the periodicity of the input; that
    structure is what is written.  The input object, and every other object
    that existed before the call, is left as it was. *)
Theorem add_adsorbate_leaves_input_unchanged atomic_numbers w slab lbl p
    base out_dir ads z :
  (slab < next w)%nat ->
  atomic_numbers ads = Some z ->
  exists w' s',
    outcome (add_adsorbate_and_write atomic_numbers w slab lbl p
               base out_dir ads) = inr w' /\
    written w'
      = written w
        ++ [(os_path_join out_dir (base ++ "_" ++ lbl ++ ".vasp")%string, s')]
    /\
    numbers s' = numbers (heap w slab) ++ [z] /\
    positions s' = positions (heap w slab) ++ [p] /\
    cell s' = cell (heap w slab) /\
    pbc s' = pbc (heap w slab) /\
    heap w' slab = heap w slab /\
    (forall r, (r < next w)%nat -> heap w' r = heap w r).
Proof.
  intros Hlt Hz.
  exists (write (Atoms_iadd (fst (Atoms_copy w slab)) (next w) (mkAtom z p))
                (os_path_join out_dir (base ++ "_" ++ lbl ++ ".vasp")%string)
                (next w)),
         (extend (heap w slab) (mkAtom z p)).
  assert (Hframe : forall r, (r < next w)%nat ->
            heap (write (Atoms_iadd (fst (Atoms_copy w slab)) (next w)
                           (mkAtom z p))
                    (os_path_join out_dir (base ++ "_" ++ lbl ++ ".vasp")%string)
                    (next w)) r = heap w r).
  { intros r Hr. cbn. assert (E : (r =? next w)%nat = false)
      by (apply Nat.eqb_neq; lia). now rewrite E. }
  split; [| split; [| repeat split]].
  - unfold add_adsorbate_and_write, Atoms_copy, alloc, new_Atom.
    rewrite Hz, bind_ret_l, bind_logging. reflexivity.
  - cbn. now rewrite Nat.eqb_refl.
  - now apply Hframe.
  - exact Hframe.
Qed.

Lemma add_adsorbate_leaves_input_unchanged_witness :
  exists w' s',
    outcome (add_adsorbate_and_write atomic_numbers_H_Pt world_one_slab 0
               "Top_0" (V3 0 0 (18 / 10)) "slab" "out" "H") = inr w' /\
    written w'
      = written world_one_slab
        ++ [(os_path_join "out" ("slab" ++ "_" ++ "Top_0" ++ ".vasp")%string,
             s')] /\
    numbers s' = numbers (heap world_one_slab 0) ++ [1%nat] /\
    positions s' = positions (heap world_one_slab 0) ++ [V3 0 0 (18 / 10)] /\
    cell s' = cell (heap world_one_slab 0) /\
    pbc s' = pbc (heap world_one_slab 0) /\
    heap w' 0%nat = heap world_one_slab 0 /\
    (forall r, (r < next world_one_slab)%nat ->
               heap w' r = heap world_one_slab r).
Proof.
  apply (add_adsorbate_leaves_input_unchanged atomic_numbers_H_Pt
           world_one_slab 0 "Top_0" (V3 0 0 (18 / 10)) "slab" "out" "H"
           1%nat).
  - cbn. lia.
  - reflexivity.
Defined.

(** ** Orienter *)

Lemma dot_self_nonneg v : 0 <= dot v v.
Proof. unfold dot. nra. Qed.

Lemma norm_nonneg v : 0 <= norm v.
Proof. apply sqrt_pos. Qed.

Lemma norm_sqr v : norm v * norm v = dot v v.
Proof. apply sqrt_sqrt, dot_self_nonneg. Qed.

Lemma norm_zero v : norm v = 0 -> v = vzero.
Proof.
  intros H. pose proof (norm_sqr v) as Hsq. rewrite H in Hsq.
  destruct v as [x y z]. unfold dot in Hsq; cbn in Hsq. unfold vzero.
  assert (x = 0) by nra. assert (y = 0) by nra. assert (z = 0) by nra.
  subst. reflexivity.
Qed.

Lemma clip_id x : -1 <= x <= 1 -> clip x (-1) 1 = x.
Proof.
  intros H. unfold clip. rewrite (Rmax_left x (-1)) by lra.
  apply Rmin_right. lra.
Qed.

Lemma height_ratio_bound v : v <> vzero -> -1 <= vz v / norm v <= 1.
Proof.
  intros Hv. pose proof (norm_nonneg v) as Hn. pose proof (norm_sqr v) as Hsq.
  assert (Hpos : 0 < norm v).
  { destruct (Req_dec (norm v) 0) as [E | E]; [| lra].
    now apply norm_zero in E. }
  assert (Hz : vz v * vz v <= norm v * norm v).
  { rewrite Hsq. unfold dot. nra. }
  split.
  - apply Rmult_le_reg_r with (norm v); [exact Hpos |].
    unfold Rdiv. rewrite Rmult_assoc, Rinv_l by lra. nra.
  - apply Rmult_le_reg_r with (norm v); [exact Hpos |].
    unfold Rdiv. rewrite Rmult_assoc, Rinv_l by lra. nra.
Qed.

(** The angle the script computes is the angle between the line of
    [a x b] and the z axis. *)
Lemma rotation_angle_is_axis_angle c :
  rotation_angle c = angle_to_z_axis (cell_normal c).
Proof.
  unfold rotation_angle, angle_to_z_axis, upward_normal. cbv zeta.
  set (v := cell_normal c). f_equal. f_equal.
  unfold vdiv at 1. cbn [vz].
  destruct (Rltb (vz v / norm v) 0) eqn:E.
  - apply Rltb_true_iff in E. rewrite Rabs_left by exact E.
    unfold dot, vopp, vdiv, target; cbn. lra.
  - apply Rltb_false_iff in E. rewrite Rabs_right by lra.
    unfold dot, vdiv, target; cbn. lra.
Qed.

Lemma angle_tol_pos : 0 < angle_tol.
Proof. unfold angle_tol. lra. Qed.

Example normal_upside_down :
  cell_normal (cell slab_upside_down) = V3 0 0 (-16).
Proof. unfold cell_normal; cbn. vec_eq. Qed.

Example axis_angle_upside_down :
  angle_to_z_axis (cell_normal (cell slab_upside_down)) = 0.
Proof.
  unfold angle_to_z_axis. rewrite normal_upside_down.
  rewrite (norm_eq (V3 0 0 (-16)) 16) by (unfold dot; cbn; lra).
  cbn [vz]. replace (-16 / 16) with (- (1)) by lra.
  rewrite Rabs_Ropp, Rabs_R1, clip_id, acos_1 by lra. reflexivity.
Qed.

Example plus_z_angle_upside_down :
  angle_to_plus_z (cell_normal (cell slab_upside_down)) = PI.
Proof.
  unfold angle_to_plus_z. rewrite normal_upside_down.
  rewrite (norm_eq (V3 0 0 (-16)) 16) by (unfold dot; cbn; lra).
  cbn [vz]. replace (-16 / 16) with (- (1)) by lra.
  rewrite clip_id by lra. rewrite acos_opp, acos_1. lra.
Qed.

(** C1, as stated, fails on a cell whose normal points along -z: the slab
    is returned as it is, and its normal is half a turn away from +z. *)
Lemma anti_aligned_slab_stays_anti_aligned :
  cell_normal (cell slab_upside_down) = V3 0 0 (-16) /\
  align_slab_to_z atomic_masses_H_Pt slab_upside_down = ret slab_upside_down /\
  angle_to_plus_z (cell_normal (cell slab_upside_down)) = PI /\
  ~ angle_to_plus_z (cell_normal (cell slab_upside_down)) <= angle_tol.
Proof.
  split; [exact normal_upside_down |].
  split; [| split; [exact plus_z_angle_upside_down |]].
  - unfold align_slab_to_z.
    rewrite rotation_angle_is_axis_angle, axis_angle_upside_down.
    rewrite normal_upside_down.
    rewrite (norm_eq (V3 0 0 (-16)) 16) by (unfold dot; cbn; lra).
    pose proof angle_tol_pos. Rcompare. reflexivity.
  - rewrite plus_z_angle_upside_down. pose proof PI2_3_2.
    unfold angle_tol. lra.
Qed.

(** C1, as the code has it. When the line of [a x b] is already within the
    tolerance of the z axis, no rotation is made and the slab is returned as
    it is.  Its normal is then within the tolerance of +z when [a x b] has a
    non-negative z component, and within the tolerance of -z (at least
    [pi - 1e-6] away from +z) when it has a negative one: a normal along -z
    is not turned to +z. *)
Theorem aligned_cells_are_left_alone atomic_masses slab :
  cell_normal (cell slab) <> vzero ->
  angle_to_z_axis (cell_normal (cell slab)) <= angle_tol ->
  align_slab_to_z atomic_masses slab = ret slab /\
  (0 <= vz (cell_normal (cell slab)) ->
   angle_to_plus_z (cell_normal (cell slab)) <= angle_tol) /\
  (vz (cell_normal (cell slab)) < 0 ->
   PI - angle_tol <= angle_to_plus_z (cell_normal (cell slab))).
Proof.
  intros Hv Ha. set (v := cell_normal (cell slab)) in *.
  pose proof (height_ratio_bound v Hv) as Hb.
  assert (Hpos : 0 < norm v).
  { pose proof (norm_nonneg v).
    destruct (Req_dec (norm v) 0) as [E | E]; [| lra].
    now apply norm_zero in E. }
  split; [| split].
  - unfold align_slab_to_z. fold v.
    rewrite (proj2 (Reqb_false_iff (norm v) 0)) by lra.
    rewrite rotation_angle_is_axis_angle. fold v.
    unfold Rgtb. rewrite (proj2 (Rltb_false_iff _ _)) by exact Ha.
    reflexivity.
  - intros Hz. unfold angle_to_plus_z. unfold angle_to_z_axis in Ha.
    rewrite Rabs_right in Ha; [exact Ha |].
    apply Rle_ge. unfold Rdiv. apply Rmult_le_pos; [exact Hz |].
    left. now apply Rinv_0_lt_compat.
  - intros Hz. unfold angle_to_plus_z. unfold angle_to_z_axis in Ha.
    assert (Hneg : vz v / norm v < 0).
    { assert (0 < / norm v) by now apply Rinv_0_lt_compat.
      unfold Rdiv. nra. }
    rewrite Rabs_left in Ha by exact Hneg.
    rewrite clip_id in Ha by lra. rewrite clip_id by lra.
    rewrite acos_opp in Ha. lra.
Qed.

Lemma aligned_cells_are_left_alone_witness :
  align_slab_to_z atomic_masses_H_Pt slab_upside_down = ret slab_upside_down /\
  (0 <= vz (cell_normal (cell slab_upside_down)) ->
   angle_to_plus_z (cell_normal (cell slab_upside_down)) <= angle_tol) /\
  (vz (cell_normal (cell slab_upside_down)) < 0 ->
   PI - angle_tol <= angle_to_plus_z (cell_normal (cell slab_upside_down))).
Proof.
  apply (aligned_cells_are_left_alone atomic_masses_H_Pt slab_upside_down).
  - rewrite normal_upside_down. intros E. injection E as E. lra.
  - rewrite axis_angle_upside_down. unfold angle_tol. lra.
Defined.

Lemma sin_lower x : 0 <= x -> x <= PI -> x - x * x * x / 6 <= sin x.
Proof.
  intros H0 H1. destruct (sin_bound x 0 H0 H1) as [H _].
  replace (sin_approx x (2 * 0 + 1)) with (x - x * x * x / 6) in H; [exact H |].
  unfold sin_approx, sin_term. simpl. field.
Qed.

Lemma cos_lower x : - PI / 2 <= x -> x <= PI / 2 -> 1 - x * x / 2 <= cos x.
Proof.
  intros H0 H1. destruct (cos_bound x 0 H0 H1) as [H _].
  replace (cos_approx x (2 * 0 + 1)) with (1 - x * x / 2) in H; [exact H |].
  unfold cos_approx, cos_term. simpl. field.
Qed.

Lemma PI_bounds : 3 < PI <= 4.
Proof. pose proof PI2_3_2. pose proof PI_4. lra. Qed.

Lemma vdiv_1 v : vdiv v 1 = v.
Proof. destruct v. unfold vdiv; cbn. f_equal; lra. Qed.

(** What [align_slab_to_z] does to the cell when it rotates. *)
Lemma align_rotates atomic_masses slab axis :
  cell_normal (cell slab) <> vzero ->
  angle_tol < rotation_angle (cell slab) ->
  vdiv (cross (upward_normal (cell slab)) target)
       (norm (cross (upward_normal (cell slab)) target)) = axis ->
  norm axis = 1 ->
  exists s',
    outcome (align_slab_to_z atomic_masses slab) = inr s' /\
    cell s' =
      mkCell (rotate_row (cos (rotation_angle (cell slab) * (PI / 180)))
                         (sin (rotation_angle (cell slab) * (PI / 180)))
                         axis (row0 (cell slab)))
             (rotate_row (cos (rotation_angle (cell slab) * (PI / 180)))
                         (sin (rotation_angle (cell slab) * (PI / 180)))
                         axis (row1 (cell slab)))
             (rotate_row (cos (rotation_angle (cell slab) * (PI / 180)))
                         (sin (rotation_angle (cell slab) * (PI / 180)))
                         axis (row2 (cell slab))).
Proof.
  intros Hv Hang Hax Hn. unfold align_slab_to_z.
  assert (Hnz : norm (cell_normal (cell slab)) <> 0).
  { intros E. apply Hv. now apply norm_zero. }
  rewrite (proj2 (Reqb_false_iff _ _) Hnz).
  unfold Rgtb. rewrite (proj2 (Rltb_true_iff _ _) Hang).
  cbv zeta. rewrite Hax. unfold rotate. rewrite Hn.
  rewrite (proj2 (Reqb_false_iff 1 0)) by lra.
  rewrite vdiv_1, bind_ret_l, bind_logging.
  eexists. split; reflexivity.
Qed.

Lemma rotate_row_about_minus_x c s p :
  rotate_row c s (V3 (-1) 0 0) p
  = V3 (vx p) (c * vy p + s * vz p) (c * vz p - s * vy p).
Proof.
  destruct p as [x y z]. unfold rotate_row, dot. vec_eq.
Qed.

(** A cell tilted about the x axis: [a = x], [b = (0, s, c)] with
    [(s, c)] on the unit circle.  The script turns it about -x by
    [acos s] taken as degrees. *)
Lemma align_tilted_about_x atomic_masses slab s c r2 :
  cell slab = mkCell (V3 1 0 0) (V3 0 s c) r2 ->
  0 <= s -> 0 < c -> s * s + c * c = 1 ->
  angle_tol < acos s ->
  exists s' r2',
    outcome (align_slab_to_z atomic_masses slab) = inr s' /\
    cell s' =
      mkCell (V3 1 0 0)
             (V3 0
                 (cos (acos s * (PI / 180)) * s + sin (acos s * (PI / 180)) * c)
                 (cos (acos s * (PI / 180)) * c - sin (acos s * (PI / 180)) * s))
             r2'.
Proof.
  intros Hc Hs Hcpos Hunit Hang.
  assert (Hnormal : cell_normal (cell slab) = V3 0 (- c) s).
  { rewrite Hc. unfold cell_normal; cbn. vec_eq. }
  assert (Hup : upward_normal (cell slab) = V3 0 (- c) s).
  { unfold upward_normal. rewrite Hnormal.
    rewrite (norm_eq (V3 0 (- c) s) 1) by (unfold dot; cbn; lra).
    rewrite vdiv_1. cbn [vz].
    now rewrite (proj2 (Rltb_false_iff s 0)) by lra. }
  assert (Hrot : rotation_angle (cell slab) = acos s).
  { unfold rotation_angle. rewrite Hup. f_equal.
    replace (dot (V3 0 (- c) s) target) with s
      by (unfold dot, target; cbn; lra).
    apply clip_id. nra. }
  assert (Haxis : vdiv (cross (upward_normal (cell slab)) target)
                       (norm (cross (upward_normal (cell slab)) target))
                  = V3 (-1) 0 0).
  { rewrite Hup.
    replace (cross (V3 0 (- c) s) target) with (V3 (- c) 0 0)
      by (unfold target; vec_eq).
    rewrite (norm_eq (V3 (- c) 0 0) c) by (unfold dot; cbn; lra).
    unfold vdiv; cbn. f_equal; field; lra. }
  destruct (align_rotates atomic_masses slab (V3 (-1) 0 0)) as (s' & Hs' & Hcell).
  - rewrite Hnormal. intros E. injection E as E1 E2. lra.
  - now rewrite Hrot.
  - exact Haxis.
  - apply norm_eq; [lra | unfold dot; cbn; lra].
  - exists s'. eexists. split; [exact Hs' |].
    rewrite Hcell, Hrot, Hc. cbn [row0 row1 row2].
    rewrite !rotate_row_about_minus_x. cbn [vx vy vz].
    f_equal; first [reflexivity | f_equal; lra].
Qed.

Lemma quarter_turn_as_degrees_bounds :
  1 / 40 < PI / 2 * (PI / 180) <= 2 / 45.
Proof. pose proof PI_bounds. split; nra. Qed.

Lemma acos_sin x : 0 <= x <= PI / 2 -> acos (sin x) = PI / 2 - x.
Proof.
  intros H. rewrite <- (cos_shift x). apply acos_cos.
  pose proof PI_bounds. lra.
Qed.

(** C8 at a cell lying on its side (normal a quarter turn from +z).  The
    first alignment turns the cell by [pi/2] DEGREES only: its second row
    becomes [(0, sin a, cos a)] with [a = pi/2 * pi/180], still far from
    aligned.  A second alignment turns it again: the y component of the
    second cell row moves by more than 0.01. *)
Theorem align_twice_moves_the_cell_again :
  exists s1 s2,
    outcome (align_slab_to_z atomic_masses_H_Pt slab_on_its_side) = inr s1 /\
    outcome (align_slab_to_z atomic_masses_H_Pt s1) = inr s2 /\
    row1 (cell s1)
      = V3 0 (sin (PI / 2 * (PI / 180))) (cos (PI / 2 * (PI / 180))) /\
    vy (row1 (cell s2)) - vy (row1 (cell s1)) > 1 / 100.
Proof.
  pose proof PI_bounds as HPI.
  pose proof quarter_turn_as_degrees_bounds as Ha.
  set (a := PI / 2 * (PI / 180)) in *.
  destruct (align_tilted_about_x atomic_masses_H_Pt slab_on_its_side
              0 1 (V3 0 (-1) 0)) as (s1 & r2 & H1 & C1);
    [reflexivity | lra | lra | lra
    | rewrite acos_0; unfold angle_tol; lra |].
  rewrite acos_0 in C1. fold a in C1.
  assert (C1' : cell s1 = mkCell (V3 1 0 0) (V3 0 (sin a) (cos a)) r2).
  { rewrite C1. f_equal. f_equal; lra. }
  assert (Hsin : 0 <= sin a) by (apply sin_ge_0; lra).
  assert (Hcos : 0 < cos a) by (apply cos_gt_0; lra).
  assert (Hunit : sin a * sin a + cos a * cos a = 1).
  { pose proof (sin2_cos2 a) as U. unfold Rsqr in U. exact U. }
  assert (Hacos : acos (sin a) = PI / 2 - a) by (apply acos_sin; lra).
  destruct (align_tilted_about_x atomic_masses_H_Pt s1 (sin a) (cos a) r2)
    as (s2 & r2' & H2 & C2);
    [exact C1' | exact Hsin | exact Hcos | exact Hunit
    | rewrite Hacos; unfold angle_tol; lra |].
  rewrite Hacos in C2. set (b := (PI / 2 - a) * (PI / 180)) in *.
  exists s1, s2. split; [exact H1 |]. split; [exact H2 |].
  rewrite C1', C2. cbn [row1 vy]. split; [reflexivity |].
  assert (Hb : 131 / 5400 <= b <= 2 / 45) by (unfold b; split; nra).
  assert (Hsb : 24 / 1000 <= sin b).
  { pose proof (sin_lower b) as L.
    assert (b * b * b <= (2 / 45) * (2 / 45) * (2 / 45)).
    { assert (b * b <= (2 / 45) * (2 / 45)) by nra. nra. }
    lra. }
  assert (Hca : 999 / 1000 <= cos a).
  { pose proof (cos_lower a) as L. assert (a * a <= (2 / 45) * (2 / 45)) by nra.
    lra. }
  assert (Hcb : 999 / 1000 <= cos b).
  { pose proof (cos_lower b) as L. assert (b * b <= (2 / 45) * (2 / 45)) by nra.
    lra. }
  assert (Hsa : sin a <= 2 / 45).
  { pose proof (sin_lt_x a). lra. }
  pose proof (COS_bound b) as [_ Hcb1].
  nra.
Qed.

(** Had the angle been handed over in degrees, the same quarter turn would
    have put the normal of this cell on +z. *)
Example quarter_turn_in_degrees_aligns :
  exists s',
    outcome (rotate atomic_masses_H_Pt (degrees (PI / 2)) (V3 (-1) 0 0) COM
               true slab_on_its_side) = inr s' /\
    cell_normal (cell s') = V3 0 0 1.
Proof.
  unfold rotate.
  rewrite (norm_eq (V3 (-1) 0 0) 1) by (unfold dot; cbn; lra).
  rewrite (proj2 (Reqb_false_iff 1 0)) by lra. rewrite vdiv_1.
  replace (degrees (PI / 2) * (PI / 180)) with (PI / 2)
    by (unfold degrees; pose proof PI_RGT_0; field; lra).
  rewrite cos_PI2, sin_PI2. eexists. split; [reflexivity |].
  cbn [cell]. rewrite !rotate_row_about_minus_x.
  unfold cell_normal; cbn. vec_eq.
Qed.

(** * Further properties *)

(** ** Loops *)

Lemma for_each_body_returns {A B} (xs : list A) (body : A -> M (list B)) out x :
  outcome (for_each xs body) = inr out -> In x xs ->
  exists ys, outcome (body x) = inr ys /\ incl ys out.
Proof.
  revert out. induction xs as [| x0 xs IH]; simpl; intros out H Hx.
  - destruct Hx.
  - apply outcome_bind_inr in H. destruct H as (ys & Hys & H).
    apply outcome_bind_inr in H. destruct H as (zs & Hzs & H).
    injection H as <-. destruct Hx as [<- | Hx].
    + exists ys. split; [exact Hys |]. apply incl_appl, incl_refl.
    + destruct (IH zs Hzs Hx) as (ys' & Hys' & Hincl).
      exists ys'. split; [exact Hys' |]. now apply incl_appr.
Qed.

Lemma for_each_raises {A B} (xs : list A) (body : A -> M (list B)) e :
  outcome (for_each xs body) = inl e ->
  exists x, In x xs /\ outcome (body x) = inl e.
Proof.
  induction xs as [| x0 xs IH]; simpl; intros H; [discriminate |].
  destruct (body x0) as [l [e0 | ys]] eqn:E0.
  - simpl in H. injection H as <-. exists x0. split; [now left |].
    now rewrite E0.
  - assert (H' : outcome (for_each xs body) = inl e).
    { revert H. unfold bind. destruct (for_each xs body) as [l1 [e1 | zs]];
        simpl; intros H; [congruence | discriminate]. }
    destruct (IH H') as (x & Hx & Hb). exists x. split; [now right | exact Hb].
Qed.

Lemma enumerate_In {A} (l : list A) (i : nat) (x : A) :
  In (i, x) (enumerate l) <-> nth_error l i = Some x.
Proof.
  unfold enumerate.
  assert (G : forall start,
             In (i, x) (combine (seq start (length l)) l) <->
             (start <= i)%nat /\ nth_error l (i - start) = Some x).
  { induction l as [| z zs IH]; intros start; simpl.
    - split; [intros [] | intros [_ H]].
      destruct (i - start)%nat; discriminate.
    - rewrite IH. split.
      + intros [E | [Hle H]].
        * injection E as <- <-. rewrite Nat.sub_diag. split; [lia | reflexivity].
        * split; [lia |].
          replace (i - start)%nat with (S (i - S start)) by lia. exact H.
      + intros [Hle H]. destruct (i - start)%nat as [| k] eqn:Ek.
        * left. injection H as <-. f_equal. lia.
        * right. split; [lia |]. replace (i - S start)%nat with k by lia.
          exact H. }
  rewrite G, Nat.sub_0_r. split; [intros [_ H]; exact H | intros H; split; [lia | exact H]].
Qed.

Lemma skipn_In {A} (l : list A) (n : nat) (x : A) :
  In x (skipn n l) <-> exists b, (n <= b)%nat /\ nth_error l b = Some x.
Proof.
  revert l. induction n as [| n IH]; intros l.
  - simpl. split.
    + intros H. destruct (In_nth_error _ _ H) as (b & Hb).
      exists b. split; [lia | exact Hb].
    + intros (b & _ & Hb). eapply nth_error_In; eassumption.
  - destruct l as [| y l]; simpl.
    + split; [intros [] | intros (b & _ & Hb)]. destruct b; discriminate.
    + rewrite IH. split.
      * intros (b & Hle & Hb). exists (S b). split; [lia | exact Hb].
      * intros (b & Hle & Hb). destruct b as [| b]; [lia |].
        exists b. split; [lia | exact Hb].
Qed.

Lemma range_In a b i : In i (range a b) <-> (a <= i < b)%nat.
Proof. unfold range. rewrite in_seq. lia. Qed.

(** ** Site generator: the three passes, one by one *)

Lemma generate_adsorption_sites_split find_mic slab surface_atoms
    ads_dist dist_thr margin sites :
  outcome (generate_adsorption_sites find_mic slab surface_atoms
             ads_dist dist_thr margin) = inr sites ->
  exists tops bridges hollows,
    outcome (top_sites (positions slab) ads_dist margin surface_atoms)
      = inr tops /\
    outcome (bridge_sites find_mic (positions slab) (cell slab) (pbc slab)
               ads_dist dist_thr margin surface_atoms) = inr bridges /\
    outcome (hollow_sites find_mic (positions slab) (cell slab) (pbc slab)
               ads_dist dist_thr margin surface_atoms) = inr hollows /\
    sites = tops ++ bridges ++ hollows.
Proof.
  unfold generate_adsorption_sites. intros H.
  apply outcome_bind_inr in H. destruct H as (tops & Ht & H).
  apply outcome_bind_inr in H. destruct H as (bridges & Hb & H).
  apply outcome_bind_inr in H. destruct H as (hollows & Hh & H).
  injection H as <-. exists tops, bridges, hollows. auto.
Qed.

(** When the generator returns, every surface index is an atom index. *)
Lemma generate_returns_valid find_mic slab surface_atoms
    ads_dist dist_thr margin sites i :
  outcome (generate_adsorption_sites find_mic slab surface_atoms
             ads_dist dist_thr margin) = inr sites ->
  In i surface_atoms ->
  nth_error (positions slab) i = Some (pos_at slab i).
Proof.
  intros H Hi.
  destruct (generate_adsorption_sites_split _ _ _ _ _ _ _ H)
    as (tops & _ & _ & Ht & _).
  destruct (for_each_body_returns _ _ _ _ Ht Hi) as (ys & Hys & _).
  unfold top_site in Hys. apply outcome_bind_inr in Hys.
  destruct Hys as (q & Hq & _). apply getitem_inr in Hq.
  now rewrite (nth_error_pos_at _ _ _ Hq).
Qed.

Lemma getitem_ret {A} (a : list A) i x :
  nth_error a i = Some x -> getitem a i = ret x.
Proof. intros H. unfold getitem. now rewrite H. Qed.

Lemma top_position_eq slab ads_dist i :
  vadd (pos_at slab i) (vmul normal ads_dist) = top_position slab ads_dist i.
Proof. unfold top_position. vec_eq. Qed.

Lemma bridge_position_eq find_mic slab ads_dist i j :
  vadd (vadd (pos_at slab i) (vdiv (mic_vector find_mic slab i j) 2))
       (vmul normal ads_dist)
  = bridge_position find_mic slab ads_dist i j.
Proof. unfold bridge_position. vec_eq. Qed.

Lemma hollow_position_eq find_mic slab ads_dist i j k :
  vadd (vadd (pos_at slab i)
             (vdiv (vadd (mic_vector find_mic slab i j)
                         (mic_vector find_mic slab i k)) 3))
       (vmul normal ads_dist)
  = hollow_position find_mic slab ads_dist i j k.
Proof. unfold hollow_position. vec_eq. Qed.

(** X1. The Top sites returned are exactly these: one for every listed
    surface atom whose site passes the test of line 85 as the code writes
    it, [site[2] > pos[i][2] + margin], placed at [pos[i] + ads_dist z]; a
    listed atom whose site fails the test gets no Top site. *)
Theorem top_sites_exactly find_mic slab surface_atoms ads_dist dist_thr
    margin sites i p :
  outcome (generate_adsorption_sites find_mic slab surface_atoms
             ads_dist dist_thr margin) = inr sites ->
  (In (Top i, p) sites <->
   In i surface_atoms /\
   vz (pos_at slab i) + margin < vz (top_position slab ads_dist i) /\
   p = top_position slab ads_dist i).
Proof.
  intros H. split.
  - intros Hin.
    destruct (generate_adsorption_sites_inv _ _ _ _ _ _ _ _ H Hin)
      as [(i' & Hi & _ & E & Hz) | [(i' & j & _ & _ & E & _)
                                   | (i' & j & k & _ & _ & _ & E & _)]];
      try discriminate.
    injection E as <- ->. split; [exact Hi |].
    rewrite top_position_eq in Hz |- *. split; [| reflexivity].
    lra.
  - intros (Hi & Hm & ->).
    pose proof (generate_returns_valid _ _ _ _ _ _ _ i H Hi) as Hp.
    destruct (generate_adsorption_sites_split _ _ _ _ _ _ _ H)
      as (tops & bridges & hollows & Ht & _ & _ & ->).
    apply in_or_app. left.
    destruct (for_each_body_returns _ _ _ _ Ht Hi) as (ys & Hys & Hincl).
    apply Hincl. unfold top_site in Hys.
    rewrite (getitem_ret _ _ _ Hp), bind_ret_l in Hys.
    rewrite top_position_eq in Hys.
    assert (E : Rgtb (vz (top_position slab ads_dist i))
                     (vz (pos_at slab i) + margin) = true).
    { apply Rltb_true_iff. exact Hm. }
    rewrite E in Hys. injection Hys as <-. now left.
Qed.

Lemma top_sites_exactly_witness :
  In (Top 0, V3 0 0 (18 / 10)) [(Top 0, V3 0 0 (18 / 10))] <->
  In 0%nat [0%nat] /\
  vz (pos_at slab_one_atom 0) + 2 / 10
    < vz (top_position slab_one_atom (18 / 10) 0) /\
  V3 0 0 (18 / 10) = top_position slab_one_atom (18 / 10) 0.
Proof.
  exact (top_sites_exactly find_mic_open slab_one_atom [0%nat] (18 / 10) 3
           (2 / 10) _ 0%nat (V3 0 0 (18 / 10)) sites_one_atom).
Defined.

Lemma In_singleton_if {A} (c : bool) (x y : A) :
  In y (if c then [x] else []) <-> c = true /\ y = x.
Proof.
  destruct c; simpl; split; try tauto.
  - intros [<- | []]. auto.
  - intros [_ ->]. now left.
  - intros [E _]. discriminate.
Qed.

Section PassFacts.

Variable find_mic : vec -> Cell -> bool * bool * bool -> vec * R.
Variables (pos : list vec) (cl : Cell) (pb : bool * bool * bool).
Variables (ads_dist dist_thr margin : R).

Lemma top_site_eval idx q :
  nth_error pos idx = Some q ->
  top_site pos ads_dist margin idx
  = ret (if Rgtb (vz (vadd q (vmul normal ads_dist))) (vz q + margin)
         then [(Top idx, vadd q (vmul normal ads_dist))] else []).
Proof.
  intros H. unfold top_site. rewrite (getitem_ret _ _ _ H), bind_ret_l.
  destruct (Rgtb _ _); reflexivity.
Qed.

Lemma bridge_site_eval idx1 idx2 p1 p2 :
  nth_error pos idx1 = Some p1 -> nth_error pos idx2 = Some p2 ->
  bridge_site find_mic pos cl pb ads_dist dist_thr margin idx1 idx2
  = ret (if Rleb (snd (find_mic (vsub p2 p1) cl pb)) dist_thr
            && Rgtb (vz (vadd (vadd p1 (vdiv (fst (find_mic (vsub p2 p1) cl pb)) 2))
                              (vmul normal ads_dist)))
                    (Rmax (vz p1) (vz p2) + margin)
         then [(Bridge idx1 idx2,
                vadd (vadd p1 (vdiv (fst (find_mic (vsub p2 p1) cl pb)) 2))
                     (vmul normal ads_dist))]
         else []).
Proof.
  intros H1 H2. unfold bridge_site.
  rewrite (getitem_ret _ _ _ H2), bind_ret_l.
  rewrite (getitem_ret _ _ _ H1), bind_ret_l.
  destruct (find_mic (vsub p2 p1) cl pb) as [v d]. cbn [fst snd].
  destruct (Rleb d dist_thr); [destruct (Rgtb _ _) |]; reflexivity.
Qed.

Lemma hollow_site_eval idx1 idx2 idx3 p1 p2 p3 :
  nth_error pos idx1 = Some p1 -> nth_error pos idx2 = Some p2 ->
  nth_error pos idx3 = Some p3 ->
  hollow_site find_mic pos cl pb ads_dist dist_thr margin idx1 idx2 idx3
  = ret (if Rleb (snd (find_mic (vsub p2 p1) cl pb)) dist_thr
            && Rleb (snd (find_mic (vsub p3 p1) cl pb)) dist_thr
            && Rleb (snd (find_mic (vsub p3 p2) cl pb)) dist_thr
            && Rgtb (vz (vadd (vadd p1
                                 (vdiv (vadd (fst (find_mic (vsub p2 p1) cl pb))
                                             (fst (find_mic (vsub p3 p1) cl pb)))
                                       3))
                              (vmul normal ads_dist)))
                    (Rmax (Rmax (vz p1) (vz p2)) (vz p3) + margin)
         then [(Hollow idx1 idx2 idx3,
                vadd (vadd p1
                           (vdiv (vadd (fst (find_mic (vsub p2 p1) cl pb))
                                       (fst (find_mic (vsub p3 p1) cl pb))) 3))
                     (vmul normal ads_dist))]
         else []).
Proof.
  intros H1 H2 H3. unfold hollow_site.
  rewrite (getitem_ret _ _ _ H1), bind_ret_l.
  rewrite (getitem_ret _ _ _ H2), bind_ret_l.
  rewrite (getitem_ret _ _ _ H3), bind_ret_l.
  destruct (find_mic (vsub p2 p1) cl pb) as [v12 d12].
  destruct (find_mic (vsub p3 p1) cl pb) as [v13 d13].
  destruct (find_mic (vsub p3 p2) cl pb) as [v23 d23]. cbn [fst snd].
  destruct (Rleb d12 dist_thr && Rleb d13 dist_thr && Rleb d23 dist_thr);
    [destruct (Rgtb _ _) |]; reflexivity.
Qed.

(** Each pass emits sites of its own kind only. *)
Lemma top_sites_labels surface_atoms out l p :
  outcome (top_sites pos ads_dist margin surface_atoms) = inr out ->
  In (l, p) out -> exists i, l = Top i.
Proof.
  intros H Hin.
  destruct (top_sites_inv _ _ _ _ _ _ H Hin) as (i & ys & _ & Hys & Hs).
  destruct (top_site_inv _ _ _ _ _ _ Hys Hs) as (q & _ & E & _).
  injection E as -> _. now exists i.
Qed.

Lemma bridge_sites_labels surface_atoms out l p :
  outcome (bridge_sites find_mic pos cl pb ads_dist dist_thr margin
             surface_atoms) = inr out ->
  In (l, p) out -> exists i j, l = Bridge i j.
Proof.
  intros H Hin.
  destruct (bridge_sites_inv _ _ _ _ _ _ _ _ _ _ H Hin)
    as (i & j & ys & _ & _ & Hys & Hs).
  destruct (bridge_site_inv _ _ _ _ _ _ _ _ _ _ _ Hys Hs)
    as (p1 & p2 & _ & _ & E & _).
  injection E as -> _. now exists i, j.
Qed.

Lemma hollow_sites_labels surface_atoms out l p :
  outcome (hollow_sites find_mic pos cl pb ads_dist dist_thr margin
             surface_atoms) = inr out ->
  In (l, p) out -> exists i j k, l = Hollow i j k.
Proof.
  intros H Hin.
  destruct (hollow_sites_inv _ _ _ _ _ _ _ _ _ _ H Hin)
    as (i & j & k & ys & _ & _ & _ & Hys & Hs).
  destruct (hollow_site_inv _ _ _ _ _ _ _ _ _ _ _ _ Hys Hs)
    as (p1 & p2 & p3 & _ & _ & _ & E & _).
  injection E as -> _. now exists i, j, k.
Qed.

(** The Bridge pass, pair by pair. *)
Lemma bridge_sites_In surface_atoms out s :
  outcome (bridge_sites find_mic pos cl pb ads_dist dist_thr margin
             surface_atoms) = inr out ->
  (In s out <->
   exists i j ys, ordered_pair surface_atoms i j /\
     outcome (bridge_site find_mic pos cl pb ads_dist dist_thr margin i j)
       = inr ys /\ In s ys).
Proof.
  unfold bridge_sites. intros H. split.
  - intros Hin.
    destruct (for_each_In _ _ _ _ H Hin) as ([a i] & ys & Ha & Hys & Hs).
    destruct (for_each_In _ _ _ _ Hys Hs) as (j & zs & Hj & Hzs & Hs').
    exists i, j, zs. split; [| auto].
    apply enumerate_In in Ha. apply skipn_In in Hj.
    destruct Hj as (b & Hb & Hj). exists a, b. split; [lia | auto].
  - intros (i & j & ys & (a & b & Hab & Ha & Hb) & Hys & Hs).
    assert (Hin : In (a, i) (enumerate surface_atoms))
      by now apply enumerate_In.
    destruct (for_each_body_returns _ _ _ _ H Hin) as (zs & Hzs & Hincl).
    apply Hincl. cbv beta iota in Hzs.
    assert (Hj : In j (skipn (a + 1) surface_atoms)).
    { apply skipn_In. exists b. split; [lia | exact Hb]. }
    destruct (for_each_body_returns _ _ _ _ Hzs Hj) as (ws & Hws & Hincl').
    apply Hincl'. rewrite Hys in Hws. injection Hws as <-. exact Hs.
Qed.

(** The Hollow pass, triple by triple. *)
Lemma hollow_sites_In surface_atoms out s :
  outcome (hollow_sites find_mic pos cl pb ads_dist dist_thr margin
             surface_atoms) = inr out ->
  (In s out <->
   exists i j k ys, ordered_triple surface_atoms i j k /\
     outcome (hollow_site find_mic pos cl pb ads_dist dist_thr margin i j k)
       = inr ys /\ In s ys).
Proof.
  unfold hollow_sites. intros H. split.
  - intros Hin.
    destruct (for_each_In _ _ _ _ H Hin) as (a & ys & Ha & Hys & Hs).
    destruct (for_each_In _ _ _ _ Hys Hs) as (b & zs & Hb & Hzs & Hs').
    destruct (for_each_In _ _ _ _ Hzs Hs') as (c & ws & Hc & Hws & Hs'').
    apply outcome_bind_inr in Hws. destruct Hws as (i & H1 & Hws).
    apply outcome_bind_inr in Hws. destruct Hws as (j & H2 & Hws).
    apply outcome_bind_inr in Hws. destruct Hws as (k & H3 & Hws).
    apply getitem_inr in H1, H2, H3.
    apply range_In in Ha, Hb, Hc.
    exists i, j, k, ws. split; [| auto].
    exists a, b, c. repeat split; try assumption; lia.
  - intros (i & j & k & ys & (a & b & c & Hab & Hbc & Ha & Hb & Hc) & Hys & Hs).
    assert (Hlen : (c < length surface_atoms)%nat).
    { apply nth_error_Some. congruence. }
    assert (Hina : In a (range 0 (length surface_atoms)))
      by (apply range_In; lia).
    destruct (for_each_body_returns _ _ _ _ H Hina) as (zs & Hzs & Hincl).
    apply Hincl. cbv beta in Hzs.
    assert (Hinb : In b (range (a + 1) (length surface_atoms)))
      by (apply range_In; lia).
    destruct (for_each_body_returns _ _ _ _ Hzs Hinb) as (ws & Hws & Hincl').
    apply Hincl'. cbv beta in Hws.
    assert (Hinc : In c (range (b + 1) (length surface_atoms)))
      by (apply range_In; lia).
    destruct (for_each_body_returns _ _ _ _ Hws Hinc) as (us & Hus & Hincl'').
    apply Hincl''. cbv beta in Hus.
    rewrite (getitem_ret _ _ _ Ha), bind_ret_l in Hus.
    rewrite (getitem_ret _ _ _ Hb), bind_ret_l in Hus.
    rewrite (getitem_ret _ _ _ Hc), bind_ret_l in Hus.
    rewrite Hys in Hus. injection Hus as <-. exact Hs.
Qed.

End PassFacts.

Lemma ordered_pair_In l i j : ordered_pair l i j -> In i l /\ In j l.
Proof.
  intros (a & b & _ & Ha & Hb). split; eapply nth_error_In; eassumption.
Qed.

Lemma ordered_triple_In l i j k :
  ordered_triple l i j k -> In i l /\ In j l /\ In k l.
Proof.
  intros (a & b & c & _ & _ & Ha & Hb & Hc).
  repeat split; eapply nth_error_In; eassumption.
Qed.

(** X2. A Bridge site labelled [(i, j)] is returned exactly when [i] stands
    before [j] in the list of surface atoms, their minimum-image distance is
    at most [dist_thr], and the site lies more than [margin] above the higher
    of the two atoms; it is then at [pos[i] + v/2 + ads_dist z], with [v] the
    minimum-image vector from [i] to [j]. *)
Theorem bridge_sites_exactly find_mic slab surface_atoms ads_dist dist_thr
    margin sites i j p :
  outcome (generate_adsorption_sites find_mic slab surface_atoms
             ads_dist dist_thr margin) = inr sites ->
  (In (Bridge i j, p) sites <->
   ordered_pair surface_atoms i j /\
   mic_distance find_mic slab i j <= dist_thr /\
   Rmax (vz (pos_at slab i)) (vz (pos_at slab j)) + margin
     < vz (bridge_position find_mic slab ads_dist i j) /\
   p = bridge_position find_mic slab ads_dist i j).
Proof.
  intros H.
  destruct (generate_adsorption_sites_split _ _ _ _ _ _ _ H)
    as (tops & bridges & hollows & Ht & Hb & Hh & E).
  assert (Hkind : In (Bridge i j, p) sites <-> In (Bridge i j, p) bridges).
  { rewrite E. rewrite !in_app_iff. split; [| tauto].
    intros [Hin | [Hin | Hin]]; [| exact Hin |].
    - destruct (top_sites_labels _ _ _ _ _ _ _ Ht Hin) as (? & ?).
      discriminate.
    - destruct (hollow_sites_labels _ _ _ _ _ _ _ _ _ _ _ Hh Hin)
        as (? & ? & ? & ?). discriminate. }
  rewrite Hkind, (bridge_sites_In _ _ _ _ _ _ _ _ _ _ Hb).
  assert (Heval : forall i' j', ordered_pair surface_atoms i' j' ->
            bridge_site find_mic (positions slab) (cell slab) (pbc slab)
              ads_dist dist_thr margin i' j'
            = ret (if Rleb (mic_distance find_mic slab i' j') dist_thr
                      && Rgtb (vz (bridge_position find_mic slab ads_dist i' j'))
                              (Rmax (vz (pos_at slab i')) (vz (pos_at slab j'))
                               + margin)
                   then [(Bridge i' j',
                          bridge_position find_mic slab ads_dist i' j')]
                   else [])).
  { intros i' j' Hp. destruct (ordered_pair_In _ _ _ Hp) as [Hi Hj].
    rewrite (bridge_site_eval find_mic _ _ _ _ _ _ _ _ _ _
               (generate_returns_valid _ _ _ _ _ _ _ i' H Hi)
               (generate_returns_valid _ _ _ _ _ _ _ j' H Hj)).
    fold (mic_vector find_mic slab i' j') (mic_distance find_mic slab i' j').
    now rewrite bridge_position_eq. }
  split.
  - intros (i' & j' & ys & Hp & Hys & Hs).
    rewrite (Heval _ _ Hp) in Hys. injection Hys as <-.
    apply In_singleton_if in Hs. destruct Hs as [Hc Es].
    injection Es as <- <- ->.
    apply andb_true_iff in Hc. destruct Hc as [Hd Hz].
    apply Rleb_true_iff in Hd. apply Rltb_true_iff in Hz. auto.
  - intros (Hp & Hd & Hz & ->).
    exists i, j. eexists. split; [exact Hp |].
    rewrite (Heval _ _ Hp). split; [reflexivity |].
    apply In_singleton_if. split; [| reflexivity].
    apply andb_true_iff. split;
      [now apply Rleb_true_iff | now apply Rltb_true_iff].
Qed.

(** X3. A Hollow site labelled [(i, j, k)] is returned exactly when [i], [j],
    [k] stand in this order in the list of surface atoms, the three pairwise
    minimum-image distances are at most [dist_thr], and the site lies more
    than [margin] above the highest of the three atoms; it is then at
    [pos[i] + (v_ij + v_ik)/3 + ads_dist z]. *)
Theorem hollow_sites_exactly find_mic slab surface_atoms ads_dist dist_thr
    margin sites i j k p :
  outcome (generate_adsorption_sites find_mic slab surface_atoms
             ads_dist dist_thr margin) = inr sites ->
  (In (Hollow i j k, p) sites <->
   ordered_triple surface_atoms i j k /\
   mic_distance find_mic slab i j <= dist_thr /\
   mic_distance find_mic slab i k <= dist_thr /\
   mic_distance find_mic slab j k <= dist_thr /\
   Rmax (Rmax (vz (pos_at slab i)) (vz (pos_at slab j))) (vz (pos_at slab k))
     + margin
     < vz (hollow_position find_mic slab ads_dist i j k) /\
   p = hollow_position find_mic slab ads_dist i j k).
Proof.
  intros H.
  destruct (generate_adsorption_sites_split _ _ _ _ _ _ _ H)
    as (tops & bridges & hollows & Ht & Hb & Hh & E).
  assert (Hkind : In (Hollow i j k, p) sites <-> In (Hollow i j k, p) hollows).
  { rewrite E. rewrite !in_app_iff. split; [| tauto].
    intros [Hin | [Hin | Hin]]; [| | exact Hin].
    - destruct (top_sites_labels _ _ _ _ _ _ _ Ht Hin) as (? & ?).
      discriminate.
    - destruct (bridge_sites_labels _ _ _ _ _ _ _ _ _ _ _ Hb Hin)
        as (? & ? & ?). discriminate. }
  rewrite Hkind, (hollow_sites_In _ _ _ _ _ _ _ _ _ _ Hh).
  assert (Heval : forall i' j' k', ordered_triple surface_atoms i' j' k' ->
            hollow_site find_mic (positions slab) (cell slab) (pbc slab)
              ads_dist dist_thr margin i' j' k'
            = ret (if Rleb (mic_distance find_mic slab i' j') dist_thr
                      && Rleb (mic_distance find_mic slab i' k') dist_thr
                      && Rleb (mic_distance find_mic slab j' k') dist_thr
                      && Rgtb (vz (hollow_position find_mic slab ads_dist
                                     i' j' k'))
                              (Rmax (Rmax (vz (pos_at slab i'))
                                          (vz (pos_at slab j')))
                                    (vz (pos_at slab k')) + margin)
                   then [(Hollow i' j' k',
                          hollow_position find_mic slab ads_dist i' j' k')]
                   else [])).
  { intros i' j' k' Hp. destruct (ordered_triple_In _ _ _ _ Hp) as (Hi & Hj & Hk).
    rewrite (hollow_site_eval find_mic _ _ _ _ _ _ _ _ _ _ _ _
               (generate_returns_valid _ _ _ _ _ _ _ i' H Hi)
               (generate_returns_valid _ _ _ _ _ _ _ j' H Hj)
               (generate_returns_valid _ _ _ _ _ _ _ k' H Hk)).
    fold (mic_vector find_mic slab i' j') (mic_distance find_mic slab i' j').
    fold (mic_vector find_mic slab i' k') (mic_distance find_mic slab i' k').
    fold (mic_distance find_mic slab j' k').
    now rewrite hollow_position_eq. }
  split.
  - intros (i' & j' & k' & ys & Hp & Hys & Hs).
    rewrite (Heval _ _ _ Hp) in Hys. injection Hys as <-.
    apply In_singleton_if in Hs. destruct Hs as [Hc Es].
    injection Es as <- <- <- ->.
    apply andb_true_iff in Hc. destruct Hc as [Hc Hz].
    apply andb_true_iff in Hc. destruct Hc as [Hc H23].
    apply andb_true_iff in Hc. destruct Hc as [H12 H13].
    apply Rleb_true_iff in H12, H13, H23. apply Rltb_true_iff in Hz. auto 7.
  - intros (Hp & H12 & H13 & H23 & Hz & ->).
    exists i, j, k. eexists. split; [exact Hp |].
    rewrite (Heval _ _ _ Hp). split; [reflexivity |].
    apply In_singleton_if. split; [| reflexivity].
    rewrite !andb_true_iff. repeat split;
      first [now apply Rleb_true_iff | now apply Rltb_true_iff].
Qed.

Lemma norm_le v t : 0 <= t -> dot v v <= t * t -> norm v <= t.
Proof.
  intros Ht H. unfold norm. rewrite <- (sqrt_square t Ht).
  apply sqrt_le_1_alt. exact H.
Qed.

Ltac norm_leb :=
  repeat match goal with
    | |- context [Rleb (norm ?v) ?t] =>
        rewrite (proj2 (Rleb_true_iff (norm v) t))
          by (apply norm_le; [lra | unfold dot; cbn; lra])
    end.

(** The triangle, no periodic image, [dist_thr = 2]: three Top sites, three
    Bridge sites and one Hollow site above the centroid. *)
Example sites_triangle :
  outcome (generate_adsorption_sites find_mic_open slab_triangle
             [0; 1; 2]%nat (18 / 10) 2 (2 / 10))
  = inr [(Top 0, V3 0 0 (18 / 10));
         (Top 1, V3 1 0 (18 / 10));
         (Top 2, V3 0 1 (18 / 10));
         (Bridge 0 1, V3 (1 / 2) 0 (18 / 10));
         (Bridge 0 2, V3 0 (1 / 2) (18 / 10));
         (Bridge 1 2, V3 (1 / 2) (1 / 2) (18 / 10));
         (Hollow 0 1 2, V3 (1 / 3) (1 / 3) (18 / 10))].
Proof.
  run_sites. unfold find_mic_open. cbn. norm_leb. Rmaxmin. Rcompare. cbn.
  repeat f_equal; vec_eq.
Qed.

Lemma bridge_sites_exactly_witness :
  In (Bridge 0 1, V3 0 0 (18 / 10))
     [(Top 0, V3 (1 / 2) 0 (18 / 10)); (Top 1, V3 (7 / 2) 0 (18 / 10));
      (Bridge 0 1, V3 0 0 (18 / 10))] <->
  ordered_pair [0; 1]%nat 0 1 /\
  mic_distance find_mic_ortho slab_across_boundary 0 1 <= 2 /\
  Rmax (vz (pos_at slab_across_boundary 0)) (vz (pos_at slab_across_boundary 1))
    + 2 / 10
    < vz (bridge_position find_mic_ortho slab_across_boundary (18 / 10) 0 1) /\
  V3 0 0 (18 / 10)
    = bridge_position find_mic_ortho slab_across_boundary (18 / 10) 0 1.
Proof.
  exact (bridge_sites_exactly find_mic_ortho slab_across_boundary [0; 1]%nat
           (18 / 10) 2 (2 / 10) _ 0%nat 1%nat (V3 0 0 (18 / 10))
           sites_across_boundary).
Defined.

Lemma hollow_sites_exactly_witness :
  In (Hollow 0 1 2, V3 (1 / 3) (1 / 3) (18 / 10))
     [(Top 0, V3 0 0 (18 / 10));
      (Top 1, V3 1 0 (18 / 10));
      (Top 2, V3 0 1 (18 / 10));
      (Bridge 0 1, V3 (1 / 2) 0 (18 / 10));
      (Bridge 0 2, V3 0 (1 / 2) (18 / 10));
      (Bridge 1 2, V3 (1 / 2) (1 / 2) (18 / 10));
      (Hollow 0 1 2, V3 (1 / 3) (1 / 3) (18 / 10))] <->
  ordered_triple [0; 1; 2]%nat 0 1 2 /\
  mic_distance find_mic_open slab_triangle 0 1 <= 2 /\
  mic_distance find_mic_open slab_triangle 0 2 <= 2 /\
  mic_distance find_mic_open slab_triangle 1 2 <= 2 /\
  Rmax (Rmax (vz (pos_at slab_triangle 0)) (vz (pos_at slab_triangle 1)))
       (vz (pos_at slab_triangle 2)) + 2 / 10
    < vz (hollow_position find_mic_open slab_triangle (18 / 10) 0 1 2) /\
  V3 (1 / 3) (1 / 3) (18 / 10)
    = hollow_position find_mic_open slab_triangle (18 / 10) 0 1 2.
Proof.
  exact (hollow_sites_exactly find_mic_open slab_triangle [0; 1; 2]%nat
           (18 / 10) 2 (2 / 10) _ 0%nat 1%nat 2%nat
           (V3 (1 / 3) (1 / 3) (18 / 10)) sites_triangle).
Defined.

(** ** Site generator: errors *)

Lemma outcome_bind_raises {A B} (m : M A) (f : A -> M B) (e : exn) :
  outcome m = inl e -> outcome (bind m f) = inl e.
Proof.
  destruct m as [l [e' | x']]; simpl; [| discriminate].
  intros H; injection H as ->. reflexivity.
Qed.

Lemma for_each_raises_at {A B} (xs : list A) (body : A -> M (list B)) e x :
  In x xs -> outcome (body x) = inl e ->
  (forall x', In x' xs -> forall e', outcome (body x') = inl e' -> e' = e) ->
  outcome (for_each xs body) = inl e.
Proof.
  induction xs as [| x0 xs IH]; simpl; intros Hx Hb Hall; [destruct Hx |].
  destruct (body x0) as [l [e0 | ys]] eqn:E0.
  - simpl. f_equal. apply (Hall x0 (or_introl eq_refl)). now rewrite E0.
  - destruct Hx as [<- | Hx]; [rewrite E0 in Hb; discriminate |].
    assert (H' : outcome (for_each xs body) = inl e).
    { apply IH; [exact Hx | exact Hb |].
      intros x' Hx'. apply Hall. now right. }
    unfold bind. destruct (for_each xs body) as [l1 [e1 | zs]];
      simpl in *; congruence.
Qed.

Lemma top_site_raises pos ads_dist margin idx e :
  outcome (top_site pos ads_dist margin idx) = inl e ->
  e = IndexError /\ (length pos <= idx)%nat.
Proof.
  unfold top_site, getitem.
  destruct (nth_error pos idx) as [q |] eqn:E.
  - rewrite bind_ret_l. destruct (Rgtb _ _); discriminate.
  - simpl. intros H. injection H as <-. split; [reflexivity |].
    now apply nth_error_None.
Qed.

(** X4. The site generator raises exactly when some listed surface index is
    not an atom index of the structure, and the error is then [IndexError];
    it raises no other error. *)
Theorem generate_adsorption_sites_raises find_mic slab surface_atoms
    ads_dist dist_thr margin :
  (outcome (generate_adsorption_sites find_mic slab surface_atoms
              ads_dist dist_thr margin) = inl IndexError
   <-> exists i, In i surface_atoms /\ (natoms slab <= i)%nat)
  /\
  (forall e,
     outcome (generate_adsorption_sites find_mic slab surface_atoms
                ads_dist dist_thr margin) = inl e -> e = IndexError).
Proof.
  assert (Hbad : (exists i, In i surface_atoms /\ (natoms slab <= i)%nat) ->
            outcome (generate_adsorption_sites find_mic slab surface_atoms
                       ads_dist dist_thr margin) = inl IndexError).
  { intros (i & Hi & Hle). unfold generate_adsorption_sites.
    apply outcome_bind_raises. unfold top_sites.
    apply for_each_raises_at with (x := i); [exact Hi | |].
    - unfold top_site, getitem.
      destruct (nth_error (positions slab) i) as [q |] eqn:E; [| reflexivity].
      assert (i < natoms slab)%nat by (apply nth_error_Some; congruence). lia.
    - intros x' _ e' He'. now apply top_site_raises in He'. }
  assert (Hall : forall e,
            outcome (generate_adsorption_sites find_mic slab surface_atoms
                       ads_dist dist_thr margin) = inl e ->
            exists i, In i surface_atoms /\ (natoms slab <= i)%nat).
  { intros e He.
    destruct (Forall_Exists_dec (fun i => (i < natoms slab)%nat)
                (fun i => lt_dec i (natoms slab)) surface_atoms) as [Hv | Hx].
    - destruct (generate_adsorption_sites_returns find_mic slab surface_atoms
                  ads_dist dist_thr margin Hv) as (sites & Hs).
      rewrite Hs in He. discriminate.
    - apply Exists_exists in Hx. destruct Hx as (i & Hi & Hn).
      exists i. split; [exact Hi | lia]. }
  split; [split; [apply Hall | exact Hbad] |].
  intros e He. pose proof (Hbad (Hall e He)) as E. rewrite E in He.
  now injection He as <-.
Qed.

(** ** Site generator: labels are never repeated *)

Lemma for_each_NoDup {A B C} (lab : B -> C) (xs : list A)
    (body : A -> M (list B)) out :
  NoDup xs ->
  (forall x ys, In x xs -> outcome (body x) = inr ys -> NoDup (map lab ys)) ->
  (forall x x' ys ys' y y',
     In x xs -> In x' xs -> x <> x' ->
     outcome (body x) = inr ys -> outcome (body x') = inr ys' ->
     In y ys -> In y' ys' -> lab y <> lab y') ->
  outcome (for_each xs body) = inr out -> NoDup (map lab out).
Proof.
  intros Hnd. revert out.
  induction Hnd as [| x xs Hx Hnd IH]; simpl; intros out H1 H2 H.
  - injection H as <-. constructor.
  - apply outcome_bind_inr in H. destruct H as (ys & Hys & H).
    apply outcome_bind_inr in H. destruct H as (zs & Hzs & H).
    injection H as <-. rewrite map_app. apply NoDup_app.
    + apply (H1 x); auto.
    + apply IH; [| | exact Hzs].
      * intros x' ys' Hx'. apply H1. now right.
      * intros x1 x2 ys1 ys2 y1 y2 Hx1 Hx2. apply H2; now right.
    + intros a Ha Hb.
      apply in_map_iff in Ha. destruct Ha as (y & <- & Hy).
      apply in_map_iff in Hb. destruct Hb as (z & Ez & Hz).
      destruct (for_each_In _ _ _ _ Hzs Hz) as (x' & ys' & Hx' & Hys' & Hz').
      apply (H2 x x' ys ys' y z); auto.
      intros ->. contradiction.
Qed.

Lemma NoDup_skipn {A} (n : nat) (l : list A) : NoDup l -> NoDup (skipn n l).
Proof.
  intros H. rewrite <- (firstn_skipn n l) in H.
  now apply NoDup_app_remove_l in H.
Qed.

Lemma NoDup_enumerate {A} (l : list A) : NoDup (enumerate l).
Proof.
  apply NoDup_nth_error. intros a b Ha E.
  unfold enumerate in *.
  destruct (nth_error (combine (seq 0 (length l)) l) a) as [[i x] |] eqn:Ea;
    [| apply nth_error_None in Ea; lia].
  symmetry in E.
  pose proof (nth_error_In _ _ Ea) as Ia.
  pose proof (nth_error_In _ _ E) as Ib.
  assert (F : forall k, nth_error (combine (seq 0 (length l)) l) k = Some (i, x)
                        -> k = i).
  { intros k Hk.
    assert (Hlt : (k < length (combine (seq 0 (length l)) l))%nat).
    { apply nth_error_Some. congruence. }
    rewrite length_combine, length_seq, Nat.min_id in Hlt.
    pose proof (nth_error_nth _ _ (0%nat, x) Hk) as N.
    rewrite combine_nth in N by now rewrite length_seq.
    rewrite seq_nth in N by exact Hlt. injection N as N _. lia. }
  rewrite (F a Ea), (F b E). reflexivity.
Qed.

Section LabelFacts.

Variable find_mic : vec -> Cell -> bool * bool * bool -> vec * R.
Variables (pos : list vec) (cl : Cell) (pb : bool * bool * bool).
Variables (ads_dist dist_thr margin : R).

Lemma top_site_short idx ys :
  outcome (top_site pos ads_dist margin idx) = inr ys ->
  ys = [] \/ exists p, ys = [(Top idx, p)].
Proof.
  unfold top_site. intros H.
  apply outcome_bind_inr in H. destruct H as (q & _ & H).
  destruct (Rgtb _ _); injection H as <-;
    first [now left | right; eexists; reflexivity].
Qed.

Lemma bridge_site_short idx1 idx2 ys :
  outcome (bridge_site find_mic pos cl pb ads_dist dist_thr margin idx1 idx2)
    = inr ys ->
  ys = [] \/ exists p, ys = [(Bridge idx1 idx2, p)].
Proof.
  unfold bridge_site. intros H.
  apply outcome_bind_inr in H. destruct H as (p2 & _ & H).
  apply outcome_bind_inr in H. destruct H as (p1 & _ & H).
  destruct (find_mic (vsub p2 p1) cl pb) as [v d].
  destruct (Rleb _ _); [destruct (Rgtb _ _) |]; injection H as <-;
    first [now left | right; eexists; reflexivity].
Qed.

Lemma hollow_site_short idx1 idx2 idx3 ys :
  outcome (hollow_site find_mic pos cl pb ads_dist dist_thr margin
             idx1 idx2 idx3) = inr ys ->
  ys = [] \/ exists p, ys = [(Hollow idx1 idx2 idx3, p)].
Proof.
  unfold hollow_site. intros H.
  apply outcome_bind_inr in H. destruct H as (p1 & _ & H).
  apply outcome_bind_inr in H. destruct H as (p2 & _ & H).
  apply outcome_bind_inr in H. destruct H as (p3 & _ & H).
  destruct (find_mic (vsub p2 p1) cl pb) as [v12 d12].
  destruct (find_mic (vsub p3 p1) cl pb) as [v13 d13].
  destruct (find_mic (vsub p3 p2) cl pb) as [v23 d23].
  destruct (_ && _); [destruct (Rgtb _ _) |]; injection H as <-;
    first [now left | right; eexists; reflexivity].
Qed.

Lemma short_NoDup (ys : list site) (l : label) :
  ys = [] \/ (exists p, ys = [(l, p)]) -> NoDup (map fst ys).
Proof.
  intros [-> | (p & ->)]; simpl; repeat constructor. intros [].
Qed.

Lemma short_label (ys : list site) (l : label) y :
  ys = [] \/ (exists p, ys = [(l, p)]) -> In y ys -> fst y = l.
Proof.
  intros [-> | (p & ->)] Hy; [destruct Hy |].
  destruct Hy as [<- | []]. reflexivity.
Qed.

Variable surface_atoms : list nat.
Hypothesis distinct : NoDup surface_atoms.

Lemma top_sites_NoDup out :
  outcome (top_sites pos ads_dist margin surface_atoms) = inr out ->
  NoDup (map fst out).
Proof.
  unfold top_sites. apply for_each_NoDup; [exact distinct | |].
  - intros i ys _ Hys. eapply short_NoDup, top_site_short, Hys.
  - intros i i' ys ys' y y' _ _ Hne Hys Hys' Hy Hy'.
    rewrite (short_label _ _ _ (top_site_short _ _ Hys) Hy).
    rewrite (short_label _ _ _ (top_site_short _ _ Hys') Hy').
    congruence.
Qed.

Lemma nth_error_distinct a b i :
  nth_error surface_atoms a = Some i -> nth_error surface_atoms b = Some i ->
  a = b.
Proof.
  intros Ha Hb. apply (proj1 (NoDup_nth_error surface_atoms) distinct).
  - apply nth_error_Some. congruence.
  - congruence.
Qed.

Lemma bridge_sites_NoDup out :
  outcome (bridge_sites find_mic pos cl pb ads_dist dist_thr margin
             surface_atoms) = inr out ->
  NoDup (map fst out).
Proof.
  unfold bridge_sites. apply for_each_NoDup; [apply NoDup_enumerate | |].
  - intros [a i] ys _. apply for_each_NoDup; [now apply NoDup_skipn | |].
    + intros j zs _ Hzs. eapply short_NoDup, bridge_site_short, Hzs.
    + intros j j' zs zs' y y' _ _ Hne Hzs Hzs' Hy Hy'.
      rewrite (short_label _ _ _ (bridge_site_short _ _ _ Hzs) Hy).
      rewrite (short_label _ _ _ (bridge_site_short _ _ _ Hzs') Hy').
      congruence.
  - intros [a i] [a' i'] ys ys' y y' Ha Ha' Hne Hys Hys' Hy Hy'.
    destruct (for_each_In _ _ _ _ Hys Hy) as (j & zs & _ & Hzs & Hz).
    destruct (for_each_In _ _ _ _ Hys' Hy') as (j' & zs' & _ & Hzs' & Hz').
    rewrite (short_label _ _ _ (bridge_site_short _ _ _ Hzs) Hz).
    rewrite (short_label _ _ _ (bridge_site_short _ _ _ Hzs') Hz').
    apply enumerate_In in Ha, Ha'. intros E. injection E as -> _.
    apply Hne. f_equal. eapply nth_error_distinct; eassumption.
Qed.

(** What the innermost Hollow loop emits at positions [(a, b, c)]. *)
Lemma hollow_body_inv a b c ys :
  outcome (idx1 <- getitem surface_atoms a ;;
           idx2 <- getitem surface_atoms b ;;
           idx3 <- getitem surface_atoms c ;;
           hollow_site find_mic pos cl pb ads_dist dist_thr margin
             idx1 idx2 idx3) = inr ys ->
  NoDup (map fst ys) /\
  (forall y, In y ys ->
   exists i j k, nth_error surface_atoms a = Some i /\
     nth_error surface_atoms b = Some j /\
     nth_error surface_atoms c = Some k /\ fst y = Hollow i j k).
Proof.
  intros H.
  apply outcome_bind_inr in H. destruct H as (i & H1 & H).
  apply outcome_bind_inr in H. destruct H as (j & H2 & H).
  apply outcome_bind_inr in H. destruct H as (k & H3 & H).
  apply getitem_inr in H1, H2, H3.
  pose proof (hollow_site_short _ _ _ _ H) as Hshort.
  split; [eapply short_NoDup; eassumption |].
  intros y Hy. exists i, j, k. repeat split; try assumption.
  exact (short_label _ _ _ Hshort Hy).
Qed.

Lemma hollow_sites_NoDup out :
  outcome (hollow_sites find_mic pos cl pb ads_dist dist_thr margin
             surface_atoms) = inr out ->
  NoDup (map fst out).
Proof.
  unfold hollow_sites, range.
  apply for_each_NoDup; [apply seq_NoDup | |].
  - intros a ys _. apply for_each_NoDup; [apply seq_NoDup | |].
    + intros b zs _. apply for_each_NoDup; [apply seq_NoDup | |].
      * intros c ws _ Hws. apply (hollow_body_inv _ _ _ _ Hws).
      * intros c c' ws ws' y y' _ _ Hne Hws Hws' Hy Hy'.
        destruct (proj2 (hollow_body_inv _ _ _ _ Hws) y Hy)
          as (i & j & k & _ & _ & Hc & ->).
        destruct (proj2 (hollow_body_inv _ _ _ _ Hws') y' Hy')
          as (i' & j' & k' & _ & _ & Hc' & ->).
        intros E. injection E as _ _ ->. apply Hne.
        eapply nth_error_distinct; eassumption.
    + intros b b' zs zs' y y' _ _ Hne Hzs Hzs' Hy Hy'.
      destruct (for_each_In _ _ _ _ Hzs Hy) as (c & ws & _ & Hws & Hw).
      destruct (for_each_In _ _ _ _ Hzs' Hy') as (c' & ws' & _ & Hws' & Hw').
      destruct (proj2 (hollow_body_inv _ _ _ _ Hws) y Hw)
        as (i & j & k & _ & Hb & _ & ->).
      destruct (proj2 (hollow_body_inv _ _ _ _ Hws') y' Hw')
        as (i' & j' & k' & _ & Hb' & _ & ->).
      intros E. injection E as _ -> _. apply Hne.
      eapply nth_error_distinct; eassumption.
  - intros a a' ys ys' y y' _ _ Hne Hys Hys' Hy Hy'.
    destruct (for_each_In _ _ _ _ Hys Hy) as (b & zs & _ & Hzs & Hz).
    destruct (for_each_In _ _ _ _ Hzs Hz) as (c & ws & _ & Hws & Hw).
    destruct (for_each_In _ _ _ _ Hys' Hy') as (b' & zs' & _ & Hzs' & Hz').
    destruct (for_each_In _ _ _ _ Hzs' Hz') as (c' & ws' & _ & Hws' & Hw').
    destruct (proj2 (hollow_body_inv _ _ _ _ Hws) y Hw)
      as (i & j & k & Ha & _ & _ & ->).
    destruct (proj2 (hollow_body_inv _ _ _ _ Hws') y' Hw')
      as (i' & j' & k' & Ha' & _ & _ & ->).
    intros E. injection E as -> _ _. apply Hne.
    eapply nth_error_distinct; eassumption.
Qed.

End LabelFacts.

Lemma generate_labels_NoDup find_mic slab surface_atoms ads_dist
    dist_thr margin sites :
  NoDup surface_atoms ->
  outcome (generate_adsorption_sites find_mic slab surface_atoms
             ads_dist dist_thr margin) = inr sites ->
  NoDup (map fst sites).
Proof.
  intros Hnd H.
  destruct (generate_adsorption_sites_split _ _ _ _ _ _ _ H)
    as (tops & bridges & hollows & Ht & Hb & Hh & ->).
  rewrite !map_app. apply NoDup_app; [| apply NoDup_app |].
  - eapply top_sites_NoDup; eassumption.
  - eapply bridge_sites_NoDup; eassumption.
  - eapply hollow_sites_NoDup; eassumption.
  - intros l Hl Hl'.
    apply in_map_iff in Hl. destruct Hl as ([l1 p1] & <- & H1).
    apply in_map_iff in Hl'. destruct Hl' as ([l2 p2] & E & H2).
    destruct (bridge_sites_labels _ _ _ _ _ _ _ _ _ _ _ Hb H1) as (? & ? & ->).
    destruct (hollow_sites_labels _ _ _ _ _ _ _ _ _ _ _ Hh H2)
      as (? & ? & ? & ->).
    discriminate.
  - intros l Hl Hl'.
    apply in_map_iff in Hl. destruct Hl as ([l1 p1] & <- & H1).
    destruct (top_sites_labels _ _ _ _ _ _ _ Ht H1) as (? & ->).
    rewrite <- map_app in Hl'.
    apply in_map_iff in Hl'. destruct Hl' as ([l2 p2] & E & H2).
    apply in_app_or in H2. destruct H2 as [H2 | H2].
    + destruct (bridge_sites_labels _ _ _ _ _ _ _ _ _ _ _ Hb H2)
        as (? & ? & ->). discriminate.
    + destruct (hollow_sites_labels _ _ _ _ _ _ _ _ _ _ _ Hh H2)
        as (? & ? & ? & ->). discriminate.
Qed.

(** X5. When the listed surface atoms are pairwise distinct, no two returned
    sites carry the same label. *)
Theorem site_labels_are_distinct find_mic slab surface_atoms ads_dist
    dist_thr margin sites :
  NoDup surface_atoms ->
  outcome (generate_adsorption_sites find_mic slab surface_atoms
             ads_dist dist_thr margin) = inr sites ->
  NoDup (map fst sites).
Proof. apply generate_labels_NoDup. Qed.

Lemma site_labels_are_distinct_witness :
  NoDup (map fst
           [(Top 0, V3 0 0 (18 / 10));
            (Top 1, V3 1 0 (18 / 10));
            (Top 2, V3 0 1 (18 / 10));
            (Bridge 0 1, V3 (1 / 2) 0 (18 / 10));
            (Bridge 0 2, V3 0 (1 / 2) (18 / 10));
            (Bridge 1 2, V3 (1 / 2) (1 / 2) (18 / 10));
            (Hollow 0 1 2, V3 (1 / 3) (1 / 3) (18 / 10))]).
Proof.
  apply (site_labels_are_distinct find_mic_open slab_triangle [0; 1; 2]%nat
           (18 / 10) 2 (2 / 10)).
  - repeat constructor; simpl; intuition lia.
  - exact sites_triangle.
Defined.

(** X6. When the minimum-image vectors are the raw displacements (as when no
    axis is periodic), a Bridge site is [ads_dist] above the midpoint of its
    two atoms and a Hollow site is [ads_dist] above the centroid of its three
    atoms. *)
Theorem sites_over_midpoint_and_centroid find_mic slab surface_atoms ads_dist
    dist_thr margin sites :
  outcome (generate_adsorption_sites find_mic slab surface_atoms
             ads_dist dist_thr margin) = inr sites ->
  (forall i j p,
     In (Bridge i j, p) sites ->
     mic_vector find_mic slab i j = displacement slab i j ->
     p = vadd (naive_midpoint slab i j) (lift_z ads_dist)) /\
  (forall i j k p,
     In (Hollow i j k, p) sites ->
     mic_vector find_mic slab i j = displacement slab i j ->
     mic_vector find_mic slab i k = displacement slab i k ->
     p = vadd (centroid3 slab i j k) (lift_z ads_dist)).
Proof.
  intros H. split.
  - intros i j p Hin Hm.
    destruct (generate_adsorption_sites_inv _ _ _ _ _ _ _ _ H Hin)
      as [(i' & _ & _ & E & _) | [(i' & j' & _ & _ & E & _)
                                 | (i' & j' & k' & _ & _ & _ & E & _)]];
      try discriminate.
    injection E as <- <- ->. rewrite Hm.
    unfold displacement, naive_midpoint. vec_eq.
  - intros i j k p Hin Hij Hik.
    destruct (generate_adsorption_sites_inv _ _ _ _ _ _ _ _ H Hin)
      as [(i' & _ & _ & E & _) | [(i' & j' & _ & _ & E & _)
                                 | (i' & j' & k' & _ & _ & _ & E & _)]];
      try discriminate.
    injection E as <- <- <- ->. rewrite Hij, Hik.
    unfold displacement, centroid3. vec_eq.
Qed.

Lemma sites_over_midpoint_and_centroid_witness :
  V3 (1 / 2) (1 / 2) (18 / 10)
    = vadd (naive_midpoint slab_triangle 1 2) (lift_z (18 / 10)) /\
  V3 (1 / 3) (1 / 3) (18 / 10)
    = vadd (centroid3 slab_triangle 0 1 2) (lift_z (18 / 10)).
Proof.
  destruct (sites_over_midpoint_and_centroid find_mic_open slab_triangle
              [0; 1; 2]%nat (18 / 10) 2 (2 / 10) _ sites_triangle) as [B T].
  split.
  - apply B; [simpl; tauto | reflexivity].
  - apply T; [simpl; tauto | reflexivity | reflexivity].
Defined.

(** ** Surface selector: the threshold *)

Lemma insert_sorted_sorted x l :
  StronglySorted Rle l -> StronglySorted Rle (insert_sorted x l).
Proof.
  induction 1 as [| y l Hl IH Hy]; simpl.
  - repeat constructor.
  - destruct (Rleb x y) eqn:E.
    + apply Rleb_true_iff in E. constructor.
      * now constructor.
      * constructor; [exact E |].
        eapply Forall_impl; [| exact Hy]. intros z Hz. cbv beta in *. lra.
    + apply Rleb_false_iff in E. constructor; [exact IH |].
      apply Forall_forall. intros z Hz. apply insert_sorted_In in Hz.
      destruct Hz as [-> | Hz]; [lra |].
      rewrite Forall_forall in Hy. now apply Hy.
Qed.

Lemma sort_sorted l : StronglySorted Rle (sort l).
Proof.
  induction l as [| x l IH]; simpl; [constructor |].
  now apply insert_sorted_sorted.
Qed.

Lemma sorted_first_least l :
  StronglySorted Rle l -> forall x, In x l -> nth 0 l 0 <= x.
Proof.
  intros H x Hx. destruct H as [| y l Hl Hy]; [destruct Hx |].
  simpl. destruct Hx as [<- | Hx]; [lra |].
  rewrite Forall_forall in Hy. now apply Hy.
Qed.

Lemma sorted_last_greatest l :
  StronglySorted Rle l -> forall x, In x l -> x <= last l 0.
Proof.
  induction 1 as [| y l Hl IH Hy]; intros x Hx; [destruct Hx |].
  destruct l as [| z l'].
  - destruct Hx as [<- | []]. simpl. lra.
  - change (last (y :: z :: l') 0) with (last (z :: l') 0).
    destruct Hx as [<- | Hx]; [| now apply IH].
    rewrite Forall_forall in Hy.
    apply Rle_trans with z; [apply Hy; now left | apply IH; now left].
Qed.

Lemma last_In (l : list R) : l <> [] -> In (last l 0) l.
Proof.
  intros H. destruct (exists_last H) as (l' & x & ->).
  rewrite last_last. apply in_or_app. right. now left.
Qed.

Lemma sort_nonempty a : a <> [] -> sort a <> [].
Proof.
  intros H E. apply H. apply length_zero_iff_nil.
  now rewrite <- sort_length, E.
Qed.

Lemma lerp_ge a b t m : 0 <= t <= 1 -> m <= a -> m <= b -> m <= lerp a b t.
Proof.
  intros Ht Ha Hb. unfold lerp. destruct (Rgeb t (1 / 2)); nra.
Qed.

Lemma percentile_ge_min (a : list R) (q : R) :
  a <> [] -> 0 <= q <= 100 ->
  exists z, percentile a q = ret z /\
            forall m, (forall x, In x a -> m <= x) -> m <= z.
Proof.
  intros Ha Hq. unfold percentile.
  rewrite (proj2 (Rleb_true_iff 0 (q / 100))) by lra.
  rewrite (proj2 (Rleb_true_iff (q / 100) 1)) by lra.
  destruct a as [| x a']; [congruence |].
  set (a := x :: a') in *. set (v := (INR (length a) - 1) * (q / 100)).
  destruct (Rgeb v (INR (length a) - 1)) eqn:E.
  - eexists. split; [reflexivity |]. intros m Hm. apply Hm, sort_In.
    apply last_In, sort_nonempty. discriminate.
  - eexists. split; [reflexivity |]. intros m Hm.
    apply Rleb_false_iff in E.
    assert (H1 : 1 <= INR (length a)).
    { change 1 with (INR 1). apply le_INR. simpl. lia. }
    assert (Hv : 0 <= v) by (unfold v; nra).
    destruct (Int_part_range v (length a) Hv E) as [Hi Hg].
    rewrite <- (sort_length a) in Hi.
    apply lerp_ge; [exact Hg | |]; apply Hm, sort_In, nth_In; lia.
Qed.

(** X7. For a structure with at least one atom and a percentile in [0, 100]
    the threshold [z_th] lies between the lowest and the highest atom. *)
Theorem threshold_between_extremes slab pct :
  (0 < natoms slab)%nat -> 0 <= pct <= 100 ->
  exists z_th,
    percentile (heights slab) pct = ret z_th /\
    (forall lo, (forall i, (i < natoms slab)%nat -> lo <= vz (pos_at slab i)) ->
                lo <= z_th) /\
    (forall hi, (forall i, (i < natoms slab)%nat -> vz (pos_at slab i) <= hi) ->
                z_th <= hi).
Proof.
  intros Hn Hq.
  assert (Hne : heights slab <> []).
  { unfold heights, natoms in *. destruct (positions slab); simpl in *;
      [lia | discriminate]. }
  assert (Hat : forall x, In x (heights slab) ->
                  exists i, (i < natoms slab)%nat /\ x = vz (pos_at slab i)).
  { intros x Hx. unfold heights in Hx. apply in_map_iff in Hx.
    destruct Hx as (p & <- & Hp). destruct (In_nth_error _ _ Hp) as (i & Hi).
    exists i. split.
    - apply nth_error_Some. unfold natoms. congruence.
    - now rewrite (nth_error_pos_at _ _ _ Hi). }
  destruct (percentile_ge_min _ _ Hne Hq) as (z & Hz & Hlo).
  destruct (percentile_le_max _ _ Hne Hq) as (z' & Hz' & Hhi).
  rewrite Hz in Hz'. injection Hz' as <-.
  exists z. split; [exact Hz |]. split.
  - intros lo Hall. apply Hlo. intros x Hx.
    destruct (Hat x Hx) as (i & Hi & ->). now apply Hall.
  - intros hi Hall. apply Hhi. intros x Hx.
    destruct (Hat x Hx) as (i & Hi & ->). now apply Hall.
Qed.

Lemma threshold_between_extremes_witness :
  exists z_th,
    percentile (heights slab_three_layers) 70 = ret z_th /\
    (forall lo, (forall i, (i < natoms slab_three_layers)%nat ->
                           lo <= vz (pos_at slab_three_layers i)) ->
                lo <= z_th) /\
    (forall hi, (forall i, (i < natoms slab_three_layers)%nat ->
                           vz (pos_at slab_three_layers i) <= hi) ->
                z_th <= hi).
Proof.
  apply (threshold_between_extremes slab_three_layers 70).
  - cbn. lia.
  - lra.
Defined.

Lemma percentile_zero (a : list R) :
  a <> [] ->
  exists z, percentile a 0 = ret z /\ forall x, In x a -> z <= x.
Proof.
  intros Ha. unfold percentile.
  rewrite (proj2 (Rleb_true_iff 0 (0 / 100))) by lra.
  rewrite (proj2 (Rleb_true_iff (0 / 100) 1)) by lra.
  destruct a as [| x0 a']; [congruence |].
  set (a := x0 :: a') in *.
  pose proof (sort_sorted a) as Hs.
  replace ((INR (length a) - 1) * (0 / 100)) with 0 by lra.
  destruct (Rgeb 0 (INR (length a) - 1)) eqn:E.
  - eexists. split; [reflexivity |]. intros x Hx.
    unfold Rgeb in E. apply Rleb_true_iff in E.
    assert (Hlen : length a = 1%nat).
    { assert (H1 : INR (length a) <= INR 1) by (change (INR 1) with 1; lra).
      apply INR_le in H1. subst a. simpl length in *. lia. }
    assert (Hl : length (sort a) = 1%nat) by now rewrite sort_length.
    apply sort_In in Hx.
    destruct (sort a) as [| y [| y' s]]; simpl in Hl; try lia.
    destruct Hx as [<- | []]. simpl. lra.
  - eexists. split; [reflexivity |]. intros x Hx.
    replace (Int_part 0) with 0%Z by (apply Int_part_spec; simpl; lra).
    change (Z.to_nat 0) with 0%nat.
    apply sort_In in Hx. pose proof (sorted_first_least _ Hs x Hx) as Hle.
    unfold lerp, Rgeb. simpl IZR.
    rewrite (proj2 (Rleb_false_iff (1 / 2) (0 - 0))) by lra. lra.
Qed.

Lemma percentile_hundred (a : list R) :
  a <> [] ->
  percentile a 100 = ret (last (sort a) 0) /\
  In (last (sort a) 0) a /\ forall x, In x a -> x <= last (sort a) 0.
Proof.
  intros Ha. split; [| split].
  - unfold percentile.
    rewrite (proj2 (Rleb_true_iff 0 (100 / 100))) by lra.
    rewrite (proj2 (Rleb_true_iff (100 / 100) 1)) by lra.
    destruct a as [| x0 a']; [congruence |].
    unfold Rgeb. rewrite (proj2 (Rleb_true_iff _ _)) by lra. reflexivity.
  - apply sort_In, last_In, sort_nonempty, Ha.
  - intros x Hx. apply sorted_last_greatest; [apply sort_sorted |].
    now apply sort_In.
Qed.

Lemma where_ge_all (zs : list R) (z : R) :
  (forall x, In x zs -> z <= x) -> where_ge zs z = seq 0 (length zs).
Proof.
  unfold where_ge. generalize 0%nat.
  induction zs as [| x zs IH]; intros start H; simpl; [reflexivity |].
  unfold Rgeb at 1. cbn [snd].
  rewrite (proj2 (Rleb_true_iff z x)) by (apply H; now left).
  simpl. f_equal. apply IH. intros y Hy. apply H. now right.
Qed.

Lemma heights_nonempty slab : (0 < natoms slab)%nat -> heights slab <> [].
Proof.
  unfold heights, natoms. destruct (positions slab); simpl;
    [lia | discriminate].
Qed.

Lemma heights_at slab i :
  (i < natoms slab)%nat -> In (vz (pos_at slab i)) (heights slab).
Proof.
  intros H. unfold heights, pos_at. apply in_map, nth_In. exact H.
Qed.

(** X8. With percentile 0 every atom of the structure is a candidate. *)
Theorem percentile_zero_keeps_every_atom slab :
  (0 < natoms slab)%nat ->
  exists z_th,
    percentile (heights slab) 0 = ret z_th /\
    candidates slab z_th = seq 0 (natoms slab).
Proof.
  intros Hn.
  destruct (percentile_zero _ (heights_nonempty _ Hn)) as (z & Hz & Hle).
  exists z. split; [exact Hz |].
  unfold candidates. rewrite (where_ge_all _ _ Hle).
  unfold heights, natoms. now rewrite length_map.
Qed.

Lemma percentile_zero_keeps_every_atom_witness :
  exists z_th,
    percentile (heights slab_three_layers) 0 = ret z_th /\
    candidates slab_three_layers z_th = seq 0 (natoms slab_three_layers).
Proof.
  apply (percentile_zero_keeps_every_atom slab_three_layers). cbn. lia.
Defined.

(** X9. With percentile 100 the threshold is the greatest height: it is the
    height of some atom and no atom lies above it.  The candidates are
    exactly the atoms that lie at that height, and there is at least one. *)
Theorem percentile_hundred_keeps_top_atoms slab :
  (0 < natoms slab)%nat ->
  exists z_th,
    percentile (heights slab) 100 = ret z_th /\
    In z_th (heights slab) /\
    (forall i, (i < natoms slab)%nat -> vz (pos_at slab i) <= z_th) /\
    (forall i, In i (candidates slab z_th) <->
               (i < natoms slab)%nat /\ vz (pos_at slab i) = z_th) /\
    candidates slab z_th <> [].
Proof.
  intros Hn.
  destruct (percentile_hundred _ (heights_nonempty _ Hn))
    as (Hz & Hin & Hmax).
  exists (last (sort (heights slab)) 0). split; [exact Hz |].
  split; [exact Hin |].
  assert (Hle : forall i, (i < natoms slab)%nat ->
                  vz (pos_at slab i) <= last (sort (heights slab)) 0).
  { intros i Hi. apply Hmax, heights_at, Hi. }
  split; [exact Hle |].
  assert (Hiff : forall i,
             In i (candidates slab (last (sort (heights slab)) 0)) <->
             (i < natoms slab)%nat /\
             vz (pos_at slab i) = last (sort (heights slab)) 0).
  { intros i. rewrite candidates_In. split.
    - intros [Hi Hge]. split; [exact Hi |]. specialize (Hle i Hi). lra.
    - intros [Hi E]. split; [exact Hi | lra]. }
  split; [exact Hiff |].
  unfold heights in Hin. apply in_map_iff in Hin.
  destruct Hin as (q & Hq & Hin).
  destruct (In_nth _ _ vzero Hin) as (j & Hj & Ej).
  assert (Hc : In j (candidates slab (last (sort (heights slab)) 0))).
  { apply Hiff. split; [exact Hj |]. unfold pos_at. now rewrite Ej. }
  intros E. rewrite E in Hc. destruct Hc.
Qed.

Lemma percentile_hundred_keeps_top_atoms_witness :
  exists z_th,
    percentile (heights slab_three_layers) 100 = ret z_th /\
    In z_th (heights slab_three_layers) /\
    (forall i, (i < natoms slab_three_layers)%nat ->
               vz (pos_at slab_three_layers i) <= z_th) /\
    (forall i, In i (candidates slab_three_layers z_th) <->
               (i < natoms slab_three_layers)%nat /\
               vz (pos_at slab_three_layers i) = z_th) /\
    candidates slab_three_layers z_th <> [].
Proof.
  apply (percentile_hundred_keeps_top_atoms slab_three_layers). cbn. lia.
Defined.

(** ** Surface selector: what is returned *)

Lemma ascending_NoDup (l : list nat) : StronglySorted lt l -> NoDup l.
Proof.
  induction 1 as [| x l Hl IH Hx]; constructor; [| exact IH].
  intros Hin. rewrite Forall_forall in Hx. specialize (Hx x Hin). lia.
Qed.

Lemma take_inr_map {A} (d : A) (a : list A) (idx : list nat) (xs : list A) :
  outcome (take a idx) = inr xs ->
  xs = map (fun i => nth i a d) idx /\
  Forall (fun i => (i < length a)%nat) idx.
Proof.
  revert xs. induction idx as [| i idx IH]; simpl; intros xs H.
  - injection H as <-. split; constructor.
  - destruct (nth_error a i) as [y |] eqn:E; [| discriminate].
    apply outcome_bind_inr in H. destruct H as (ys & Hys & H).
    injection H as <-. destruct (IH ys Hys) as [-> Hf]. split.
    + simpl. f_equal. symmetry. now apply nth_error_nth.
    + constructor; [| exact Hf]. apply nth_error_Some. congruence.
Qed.

Lemma NoDup_map_nth {A} (d : A) (a : list A) (idx : list nat) :
  NoDup a -> NoDup idx -> Forall (fun i => (i < length a)%nat) idx ->
  NoDup (map (fun i => nth i a d) idx).
Proof.
  intros Ha Hidx Hv. induction Hidx as [| i idx Hi Hidx IH]; simpl;
    [constructor |].
  inversion Hv as [| ? ? Hlt Hv']; subst.
  constructor; [| now apply IH].
  intros Hin. apply in_map_iff in Hin. destruct Hin as (j & Ej & Hj).
  rewrite Forall_forall in Hv'. specialize (Hv' j Hj).
  assert (j = i); [| subst; contradiction].
  apply (proj1 (NoDup_nth a d) Ha); assumption.
Qed.

(** The selector, case by case, once the percentile is in range. *)
Lemma identify_cases ConvexHull slab pct z_th :
  percentile (heights slab) pct = ret z_th ->
  ((length (candidates slab z_th) < 3)%nat /\
   outcome (identify_surface_atoms_via_hull ConvexHull slab pct)
     = inr (candidates slab z_th))
  \/
  ((3 <= length (candidates slab z_th))%nat /\
   outcome (identify_surface_atoms_via_hull ConvexHull slab pct)
   = outcome (vertices <- lift (ConvexHull (candidate_points slab z_th)) ;;
              take (candidates slab z_th) vertices)).
Proof.
  intros Hz.
  destruct (Nat.lt_ge_cases (length (candidates slab z_th)) 3) as [Hlt | Hge].
  - left. split; [exact Hlt |].
    apply identify_few_candidates; [now rewrite Hz | exact Hlt].
  - right. split; [exact Hge |].
    unfold identify_surface_atoms_via_hull.
    fold (heights slab). rewrite Hz, bind_ret_l. fold (candidates slab z_th).
    rewrite bind_logging. cbn [outcome snd].
    apply Nat.ltb_ge in Hge. rewrite Hge.
    rewrite (take_ret_map vzero _ _ (candidates_in_range slab z_th)), bind_ret_l.
    rewrite map_map. fold (pos_at slab).
    change (map _ (candidates slab z_th)) with (candidate_points slab z_th).
    destruct (ConvexHull (candidate_points slab z_th)) as [e | vs];
      [reflexivity |].
    change (lift (inr vs)) with (ret vs). rewrite !bind_ret_l.
    destruct (take (candidates slab z_th) vs) as [l [e | surf]] eqn:Et;
      [reflexivity |].
    cbn. reflexivity.
Qed.

Lemma identify_NoDup ConvexHull slab pct surf :
  (forall pts vs, ConvexHull pts = inr vs -> NoDup vs) ->
  outcome (identify_surface_atoms_via_hull ConvexHull slab pct) = inr surf ->
  NoDup surf.
Proof.
  intros Hhull H.
  assert (Hz : exists z_th, percentile (heights slab) pct = ret z_th).
  { unfold identify_surface_atoms_via_hull in H. fold (heights slab) in H.
    apply outcome_bind_inr in H. destruct H as (z & Hz & _).
    exists z. now apply percentile_ret. }
  destruct Hz as (z_th & Hz).
  assert (Hc : NoDup (candidates slab z_th))
    by apply ascending_NoDup, where_ge_ascending.
  destruct (identify_cases ConvexHull slab pct z_th Hz) as [[_ E] | [_ E]];
    rewrite E in H.
  - injection H as <-. exact Hc.
  - destruct (ConvexHull (candidate_points slab z_th)) as [e | vs] eqn:Eh;
      [discriminate |].
    change (lift (inr vs)) with (ret vs) in H. rewrite bind_ret_l in H.
    destruct (take_inr_map 0%nat _ _ _ H) as [-> Hv].
    apply NoDup_map_nth; [exact Hc | eapply Hhull; eassumption | exact Hv].
Qed.

(** X10. The selector never returns an atom twice, provided the hull routine
    names no vertex twice. *)
Theorem selector_returns_no_atom_twice ConvexHull slab pct surf :
  (forall pts vs, ConvexHull pts = inr vs -> NoDup vs) ->
  outcome (identify_surface_atoms_via_hull ConvexHull slab pct) = inr surf ->
  NoDup surf.
Proof. apply identify_NoDup. Qed.

Lemma ConvexHull3_NoDup pts vs : ConvexHull3 pts = inr vs -> NoDup vs.
Proof.
  unfold ConvexHull3.
  destruct pts as [| a [| b [| c [| d pts]]]]; try discriminate.
  destruct (Rgtb _ _); [| destruct (Rltb _ _)]; intros H;
    try discriminate; injection H as <-;
    repeat constructor; simpl; intuition lia.
Qed.

Lemma selector_returns_no_atom_twice_witness : NoDup [0; 1; 2]%nat.
Proof.
  exact (selector_returns_no_atom_twice ConvexHull3 slab_triangle 0
           [0; 1; 2]%nat ConvexHull3_NoDup surface_triangle).
Defined.

(** X11. With three or more candidates the selector returns the candidates
    the hull routine names, in the routine's order, and so at least three
    atoms; with fewer it returns the candidates themselves, in ascending
    order. *)
Theorem selector_returns_hull_vertices ConvexHull slab pct surf :
  hull_contract ConvexHull ->
  outcome (identify_surface_atoms_via_hull ConvexHull slab pct) = inr surf ->
  exists z_th,
    percentile (heights slab) pct = ret z_th /\
    (((length (candidates slab z_th) < 3)%nat /\
      surf = candidates slab z_th /\ StronglySorted lt surf)
     \/
     ((3 <= length (candidates slab z_th))%nat /\
      (3 <= length surf)%nat /\
      exists vs,
        ConvexHull (candidate_points slab z_th) = inr vs /\
        surf = map (fun v => nth v (candidates slab z_th) 0%nat) vs)).
Proof.
  intros Hhull H.
  assert (Hz : exists z_th, percentile (heights slab) pct = ret z_th).
  { unfold identify_surface_atoms_via_hull in H. fold (heights slab) in H.
    apply outcome_bind_inr in H. destruct H as (z & Hz & _).
    exists z. now apply percentile_ret. }
  destruct Hz as (z_th & Hz). exists z_th. split; [exact Hz |].
  destruct (identify_cases ConvexHull slab pct z_th Hz) as [[Hl E] | [Hl E]];
    rewrite E in H.
  - left. injection H as <-. split; [exact Hl |]. split; [reflexivity |].
    apply where_ge_ascending.
  - right. split; [exact Hl |].
    destruct (ConvexHull (candidate_points slab z_th)) as [e | vs] eqn:Eh;
      [discriminate |].
    change (lift (inr vs)) with (ret vs) in H. rewrite bind_ret_l in H.
    destruct (take_inr_map 0%nat _ _ _ H) as [-> Hv].
    destruct (Hhull _ _ Eh) as [H3 _].
    split; [now rewrite length_map |]. now exists vs.
Qed.

Lemma selector_returns_hull_vertices_witness :
  exists z_th,
    percentile (heights slab_triangle) 0 = ret z_th /\
    (((length (candidates slab_triangle z_th) < 3)%nat /\
      [0; 1; 2]%nat = candidates slab_triangle z_th /\
      StronglySorted lt [0; 1; 2]%nat)
     \/
     ((3 <= length (candidates slab_triangle z_th))%nat /\
      (3 <= length [0; 1; 2]%nat)%nat /\
      exists vs,
        ConvexHull3 (candidate_points slab_triangle z_th) = inr vs /\
        [0; 1; 2]%nat
          = map (fun v => nth v (candidates slab_triangle z_th) 0%nat) vs)).
Proof.
  exact (selector_returns_hull_vertices ConvexHull3 slab_triangle 0
           [0; 1; 2]%nat ConvexHull3_contract surface_triangle).
Defined.

Lemma identify_raises ConvexHull slab pct e :
  hull_contract ConvexHull ->
  (0 < natoms slab)%nat ->
  outcome (identify_surface_atoms_via_hull ConvexHull slab pct) = inl e ->
  (e = ValueError /\ (pct < 0 \/ 100 < pct))
  \/
  (0 <= pct <= 100 /\
   exists z_th,
     percentile (heights slab) pct = ret z_th /\
     (3 <= length (candidates slab z_th))%nat /\
     ConvexHull (candidate_points slab z_th) = inl e).
Proof.
  intros Hhull Hn H.
  destruct (Rle_dec 0 pct) as [H0 | H0];
    [destruct (Rle_dec pct 100) as [H1 | H1] |].
  - right. split; [lra |].
    destruct (candidates_nonempty slab pct Hn (conj H0 H1)) as (z_th & Hz & _).
    exists z_th. split; [exact Hz |].
    destruct (identify_cases ConvexHull slab pct z_th Hz) as [[_ E] | [Hl E]];
      rewrite E in H; [discriminate |].
    split; [exact Hl |].
    destruct (ConvexHull (candidate_points slab z_th)) as [e' | vs] eqn:Eh.
    + cbn in H. congruence.
    + exfalso. change (lift (inr vs)) with (ret vs) in H.
      rewrite bind_ret_l in H.
      destruct (Hhull _ _ Eh) as [_ Hv].
      unfold candidate_points in Hv. rewrite length_map in Hv.
      rewrite (take_ret_map 0%nat _ _ Hv) in H. discriminate.
  - left. assert (Hq : pct < 0 \/ 100 < pct) by lra. split; [| exact Hq].
    unfold identify_surface_atoms_via_hull in H.
    rewrite (percentile_out_of_range _ _ Hq) in H. cbn in H. congruence.
  - left. assert (Hq : pct < 0 \/ 100 < pct) by lra. split; [| exact Hq].
    unfold identify_surface_atoms_via_hull in H.
    rewrite (percentile_out_of_range _ _ Hq) in H. cbn in H. congruence.
Qed.

(** X12. On a structure with at least one atom the selector fails in two
    ways only: with [ValueError] when the percentile is outside [0, 100], or
    with the error of the hull routine, called on three or more
    candidates. *)
Theorem selector_failures ConvexHull slab pct e :
  hull_contract ConvexHull ->
  (0 < natoms slab)%nat ->
  outcome (identify_surface_atoms_via_hull ConvexHull slab pct) = inl e ->
  (e = ValueError /\ (pct < 0 \/ 100 < pct))
  \/
  (0 <= pct <= 100 /\
   exists z_th,
     percentile (heights slab) pct = ret z_th /\
     (3 <= length (candidates slab z_th))%nat /\
     ConvexHull (candidate_points slab z_th) = inl e).
Proof. apply identify_raises. Qed.

Example surface_collinear :
  outcome (identify_surface_atoms_via_hull ConvexHull3 slab_collinear 70)
  = inl QhullError.
Proof. run_identify 1%Z. reflexivity. Qed.

Lemma selector_failures_witness :
  (QhullError = ValueError /\ (70 < 0 \/ 100 < 70))
  \/
  (0 <= 70 <= 100 /\
   exists z_th,
     percentile (heights slab_collinear) 70 = ret z_th /\
     (3 <= length (candidates slab_collinear z_th))%nat /\
     ConvexHull3 (candidate_points slab_collinear z_th) = inl QhullError).
Proof.
  apply (selector_failures ConvexHull3 slab_collinear 70 QhullError
           ConvexHull3_contract).
  - cbn. lia.
  - exact surface_collinear.
Defined.

(** ** Orienter: the rotation *)

Lemma rotate_row_dot c s v p q :
  dot v v = 1 -> c * c + s * s = 1 ->
  dot (rotate_row c s v p) (rotate_row c s v q) = dot p q.
Proof.
  destruct v as [a b d], p as [px py pz], q as [qx qy qz].
  unfold rotate_row, dot, cross, vadd, vsub, vscale; cbn. intros Hv Hc.
  nsatz.
Qed.

Lemma rotate_row_cross c s v p q :
  dot v v = 1 -> c * c + s * s = 1 ->
  cross (rotate_row c s v p) (rotate_row c s v q)
  = rotate_row c s v (cross p q).
Proof.
  destruct v as [a b d], p as [px py pz], q as [qx qy qz].
  unfold rotate_row, dot, cross, vadd, vsub, vscale; cbn. intros Hv Hc.
  f_equal; nsatz.
Qed.

Lemma rotate_row_sub c s v p q :
  rotate_row c s v (vsub p q)
  = vsub (rotate_row c s v p) (rotate_row c s v q).
Proof.
  destruct v as [a b d], p as [px py pz], q as [qx qy qz].
  unfold rotate_row, dot, cross, vadd, vsub, vscale; cbn. f_equal; ring.
Qed.

Lemma norm_pos_of_nonzero v : v <> vzero -> 0 < norm v.
Proof.
  intros Hv. pose proof (norm_nonneg v).
  destruct (Req_dec (norm v) 0) as [E | E]; [| lra].
  now apply norm_zero in E.
Qed.

Lemma vdiv_norm_unit v : v <> vzero -> dot (vdiv v (norm v)) (vdiv v (norm v)) = 1.
Proof.
  intros Hv. pose proof (norm_pos_of_nonzero v Hv) as Hpos.
  pose proof (norm_sqr v) as Hsq.
  destruct v as [x y z]. unfold vdiv, dot in *; cbn in *.
  set (N := norm (V3 x y z)) in *.
  field_simplify_eq; [| lra]. nra.
Qed.

Lemma upward_normal_unit c :
  cell_normal c <> vzero ->
  dot (upward_normal c) (upward_normal c) = 1 /\ 0 <= vz (upward_normal c).
Proof.
  intros Hv. unfold upward_normal. cbv zeta.
  pose proof (vdiv_norm_unit _ Hv) as Hu.
  set (n := vdiv (cell_normal c) (norm (cell_normal c))) in *.
  destruct (Rltb (vz n) 0) eqn:E.
  - apply Rltb_true_iff in E. split.
    + destruct n as [x y z]. unfold vopp, dot in *; cbn in *. lra.
    + destruct n as [x y z]. unfold vopp; cbn in *. lra.
  - apply Rltb_false_iff in E. split; [exact Hu | exact E].
Qed.

(** Whenever the script decides to rotate, the axis [n x z] is not the zero
    vector. *)
Lemma rotation_axis_nonzero c :
  cell_normal c <> vzero -> angle_tol < rotation_angle c ->
  cross (upward_normal c) target <> vzero.
Proof.
  intros Hv Hang E.
  destruct (upward_normal_unit c Hv) as [Hu Hz].
  unfold rotation_angle in Hang.
  set (n := upward_normal c) in *.
  assert (Hdot : dot n target = vz n)
    by (unfold dot, target; cbn; lra).
  rewrite Hdot in Hang.
  destruct n as [x y z]. unfold cross, target, vzero in E; cbn in *.
  injection E as E1 E2 _.
  assert (Hx : x = 0) by lra. assert (Hy : y = 0) by lra. subst x y.
  unfold dot in Hu; cbn in Hu.
  assert (Hz1 : z = 1) by nra. subst z.
  rewrite clip_id, acos_1 in Hang by lra.
  pose proof angle_tol_pos. lra.
Qed.

(** What [align_slab_to_z] returns: the slab as it is, or the slab turned by
    a rotation (unit axis [v], [c^2 + s^2 = 1]) about its centre of mass. *)
Lemma align_cases atomic_masses slab :
  align_slab_to_z atomic_masses slab = ret slab
  \/
  exists c s v,
    c * c + s * s = 1 /\ dot v v = 1 /\
    outcome (align_slab_to_z atomic_masses slab)
    = inr (mkAtoms (numbers slab)
             (map (fun p =>
                     vadd (rotate_row c s v
                             (vsub p (get_center_of_mass atomic_masses slab)))
                          (get_center_of_mass atomic_masses slab))
                  (positions slab))
             (mkCell (rotate_row c s v (row0 (cell slab)))
                     (rotate_row c s v (row1 (cell slab)))
                     (rotate_row c s v (row2 (cell slab))))
             (pbc slab)).
Proof.
  unfold align_slab_to_z.
  destruct (Reqb (norm (cell_normal (cell slab))) 0) eqn:E0; [now left |].
  apply Reqb_false_iff in E0.
  assert (Hv : cell_normal (cell slab) <> vzero).
  { intros E. apply E0. rewrite E. apply norm_eq; [lra |].
    unfold dot, vzero; cbn. lra. }
  destruct (Rgtb (rotation_angle (cell slab)) angle_tol) eqn:Ea; [| now left].
  apply Rltb_true_iff in Ea. right. cbv zeta.
  pose proof (rotation_axis_nonzero _ Hv Ea) as Hax.
  set (x := cross (upward_normal (cell slab)) target) in *.
  pose proof (vdiv_norm_unit x Hax) as Hunit.
  set (axis := vdiv x (norm x)) in *.
  assert (Hn : norm axis = 1).
  { apply norm_eq; [lra | rewrite Hunit; lra]. }
  set (a := rotation_angle (cell slab) * (PI / 180)).
  exists (cos a), (sin a), axis. split; [| split; [exact Hunit |]].
  - pose proof (sin2_cos2 a) as U. unfold Rsqr in U. lra.
  - unfold rotate. rewrite Hn.
    rewrite (proj2 (Reqb_false_iff 1 0)) by lra.
    rewrite vdiv_1, bind_ret_l, bind_logging. reflexivity.
Qed.

(** X13. [align_slab_to_z] never raises: the rotation axis it hands to
    [rotate] is never the zero vector.  It returns a structure with the same
    atomic numbers, the same number of atoms and the same periodicity. *)
Theorem align_never_raises atomic_masses slab :
  exists s',
    outcome (align_slab_to_z atomic_masses slab) = inr s' /\
    numbers s' = numbers slab /\
    natoms s' = natoms slab /\
    pbc s' = pbc slab.
Proof.
  destruct (align_cases atomic_masses slab) as [E | (c & s & v & _ & _ & E)].
  - exists slab. rewrite E. auto.
  - eexists. split; [exact E |]. cbn. unfold natoms; cbn.
    rewrite length_map. auto.
Qed.

Lemma pos_at_map (f : vec -> vec) slab nums c pb i :
  (i < natoms slab)%nat ->
  pos_at (mkAtoms nums (map f (positions slab)) c pb) i = f (pos_at slab i).
Proof.
  intros Hi. unfold pos_at. cbn [positions].
  rewrite (nth_indep _ vzero (f vzero)) by (rewrite length_map; exact Hi).
  apply map_nth.
Qed.

(** X14. Alignment is a rigid motion: it keeps the distance between any two
    atoms, the lengths and mutual angles of the cell vectors (their scalar
    products) and the signed volume of the cell. *)
Theorem align_is_rigid atomic_masses slab s' :
  outcome (align_slab_to_z atomic_masses slab) = inr s' ->
  (forall i j, (i < natoms slab)%nat -> (j < natoms slab)%nat ->
     distance (pos_at s' i) (pos_at s' j)
     = distance (pos_at slab i) (pos_at slab j)) /\
  gram (cell s') = gram (cell slab) /\
  signed_volume (cell s') = signed_volume (cell slab).
Proof.
  intros H.
  destruct (align_cases atomic_masses slab) as [E | (c & s & v & Hc & Hv & E)].
  - rewrite E in H. injection H as <-. auto.
  - rewrite E in H. injection H as <-. cbn [cell positions].
    split; [| split].
    + intros i j Hi Hj. unfold distance, norm. f_equal.
      set (ctr := get_center_of_mass atomic_masses slab).
      set (f := fun p => vadd (rotate_row c s v (vsub p ctr)) ctr).
      fold f. rewrite !pos_at_map by assumption. unfold f.
      replace (vsub (vadd (rotate_row c s v (vsub (pos_at slab i) ctr)) ctr)
                    (vadd (rotate_row c s v (vsub (pos_at slab j) ctr)) ctr))
        with (rotate_row c s v (vsub (pos_at slab i) (pos_at slab j))).
      * now apply rotate_row_dot.
      * replace (vsub (pos_at slab i) (pos_at slab j))
          with (vsub (vsub (pos_at slab i) ctr) (vsub (pos_at slab j) ctr))
          by (unfold vsub; cbn; f_equal; lra).
        rewrite rotate_row_sub. unfold vsub, vadd; cbn. f_equal; lra.
    + unfold gram; cbn [row0 row1 row2].
      now rewrite !rotate_row_dot.
    + unfold signed_volume; cbn [row0 row1 row2].
      rewrite rotate_row_cross by assumption. now apply rotate_row_dot.
Qed.

(** ** Orienter: the centre of mass *)

Lemma combine_map_r {A B C} (f : B -> C) (xs : list A) (ys : list B) :
  combine xs (map f ys) = map (fun xy => (fst xy, f (snd xy))) (combine xs ys).
Proof.
  revert ys. induction xs as [| x xs IH]; intros [| y ys]; simpl;
    try reflexivity.
  now rewrite IH.
Qed.

Lemma map_fst_combine {A B} (xs : list A) (ys : list B) :
  length xs = length ys -> map fst (combine xs ys) = xs.
Proof.
  revert ys. induction xs as [| x xs IH]; intros [| y ys]; simpl;
    try reflexivity; try discriminate.
  intros H. injection H as H. now rewrite IH.
Qed.

(** Weighted sum of points turned about [ctr]. *)
Lemma weighted_sum_rotated c s v ctr (l : list (R * vec)) :
  vsum (map (fun mp => vscale (fst mp) (snd mp))
          (map (fun mp =>
                  (fst mp, vadd (rotate_row c s v (vsub (snd mp) ctr)) ctr)) l))
  = vadd (rotate_row c s v
            (vsub (vsum (map (fun mp => vscale (fst mp) (snd mp)) l))
                  (vscale (Rsum (map fst l)) ctr)))
         (vscale (Rsum (map fst l)) ctr).
Proof.
  induction l as [| [m p] l IH].
  - destruct v as [a b d], ctr as [x y z].
    unfold rotate_row, dot, cross, vadd, vsub, vscale, vsum, Rsum, vzero; cbn.
    f_equal; ring.
  - cbn [map vsum fold_right fst snd Rsum].
    change (fold_right vadd vzero ?l) with (vsum l).
    change (fold_right Rplus 0 ?l) with (Rsum l).
    rewrite IH.
    generalize (vsum (map (fun mp => vscale (fst mp) (snd mp)) l)).
    generalize (Rsum (map fst l)). intros S W.
    destruct v as [a b d], ctr as [x y z], p as [px py pz], W as [wx wy wz].
    unfold rotate_row, dot, cross, vadd, vsub, vscale; cbn. f_equal; ring.
Qed.

(** X15. The rotation is taken about the centre of mass, so alignment leaves
    the centre of mass where it was (one mass per position, total mass not
    zero). *)
Theorem align_keeps_centre_of_mass atomic_masses slab s' :
  length (numbers slab) = length (positions slab) ->
  Rsum (get_masses atomic_masses slab) <> 0 ->
  outcome (align_slab_to_z atomic_masses slab) = inr s' ->
  get_center_of_mass atomic_masses s' = get_center_of_mass atomic_masses slab.
Proof.
  intros Hlen Hmass H.
  destruct (align_cases atomic_masses slab) as [E | (c & s & v & Hc & Hv & E)].
  - rewrite E in H. now injection H as <-.
  - rewrite E in H. injection H as <-.
    set (ctr := get_center_of_mass atomic_masses slab).
    unfold get_center_of_mass at 1. unfold get_masses. cbn [numbers positions].
    fold (get_masses atomic_masses slab).
    rewrite combine_map_r, weighted_sum_rotated.
    rewrite map_fst_combine
      by (unfold get_masses; now rewrite length_map).
    assert (Hc0 : vsum (map (fun mp => vscale (fst mp) (snd mp))
                          (combine (get_masses atomic_masses slab)
                                   (positions slab)))
                  = vscale (Rsum (get_masses atomic_masses slab)) ctr).
    { unfold ctr, get_center_of_mass. cbv zeta.
      generalize (vsum (map (fun mp => vscale (fst mp) (snd mp))
                          (combine (get_masses atomic_masses slab)
                                   (positions slab)))).
      intros [x y z]. unfold vscale, vdiv; cbn. f_equal; field; exact Hmass. }
    rewrite Hc0.
    generalize (Rsum (get_masses atomic_masses slab)) Hmass. intros S HS.
    destruct v as [a b d], ctr as [x y z].
    unfold rotate_row, dot, cross, vadd, vsub, vscale, vdiv; cbn.
    f_equal; field; exact HS.
Qed.

Lemma align_on_its_side :
  exists s', outcome (align_slab_to_z atomic_masses_H_Pt slab_on_its_side)
             = inr s'.
Proof.
  destruct (align_tilted_about_x atomic_masses_H_Pt slab_on_its_side
              0 1 (V3 0 (-1) 0)) as (s1 & r2 & H1 & _);
    [reflexivity | lra | lra | lra
    | rewrite acos_0; pose proof PI_bounds; unfold angle_tol; lra |].
  now exists s1.
Qed.

Lemma align_keeps_centre_of_mass_witness :
  exists s',
    outcome (align_slab_to_z atomic_masses_H_Pt slab_on_its_side) = inr s' /\
    get_center_of_mass atomic_masses_H_Pt s'
    = get_center_of_mass atomic_masses_H_Pt slab_on_its_side.
Proof.
  destruct align_on_its_side as (s' & H). exists s'. split; [exact H |].
  apply (align_keeps_centre_of_mass atomic_masses_H_Pt slab_on_its_side s').
  - reflexivity.
  - unfold get_masses, Rsum; cbn. lra.
  - exact H.
Defined.

Lemma align_is_rigid_witness :
  exists s',
    outcome (align_slab_to_z atomic_masses_H_Pt slab_on_its_side) = inr s' /\
    (forall i j, (i < natoms slab_on_its_side)%nat ->
                 (j < natoms slab_on_its_side)%nat ->
       distance (pos_at s' i) (pos_at s' j)
       = distance (pos_at slab_on_its_side i) (pos_at slab_on_its_side j)) /\
    gram (cell s') = gram (cell slab_on_its_side) /\
    signed_volume (cell s') = signed_volume (cell slab_on_its_side).
Proof.
  destruct align_on_its_side as (s' & H). exists s'. split; [exact H |].
  exact (align_is_rigid atomic_masses_H_Pt slab_on_its_side s' H).
Defined.

(** ** Assembler: the loop over the sites *)






(** ** File names *)

Lemma append_cancel_l (a b c : string) :
  (a ++ b = a ++ c)%string -> b = c.
Proof.
  induction a as [| x a IH]; cbn; intros H; [exact H |].
  injection H as H. now apply IH.
Qed.

Lemma length_append (a b : string) :
  String.length (a ++ b) = (String.length a + String.length b)%nat.
Proof. induction a as [| x a IH]; cbn; [reflexivity | now rewrite IH]. Qed.

Lemma append_cancel_r (a b c : string) :
  (a ++ c = b ++ c)%string -> a = b.
Proof.
  revert b. induction a as [| x a IH]; intros [| y b]; cbn; intros H.
  - reflexivity.
  - apply (f_equal String.length) in H. cbn in H.
    rewrite length_append in H. lia.
  - apply (f_equal String.length) in H. cbn in H.
    rewrite length_append in H. lia.
  - injection H as -> H. f_equal. now apply IH.
Qed.

Lemma string_of_uint_no_underscore d :
  no_underscore (NilEmpty.string_of_uint d) = true.
Proof. induction d; cbn; auto. Qed.

Lemma str_of_nat_no_underscore n : no_underscore (str_of_nat n) = true.
Proof.
  unfold str_of_nat, NilZero.string_of_uint.
  destruct (Nat.to_uint n) eqn:E; try reflexivity;
    rewrite <- E; apply string_of_uint_no_underscore.
Qed.

(** [str(int)] can be read back. *)
Lemma str_of_nat_inj n m : str_of_nat n = str_of_nat m -> n = m.
Proof.
  assert (G : forall k,
             option_map Nat.of_uint (NilZero.uint_of_string (str_of_nat k))
             = Some k).
  { intros k. unfold str_of_nat.
    destruct (Nat.to_uint k) eqn:E;
      [cbn; f_equal; rewrite <- (DecimalNat.Unsigned.of_to k), E; reflexivity
      | rewrite NilZero.usu by discriminate; cbn [option_map];
        rewrite <- E; f_equal; apply DecimalNat.Unsigned.of_to ..]. }
  intros H. pose proof (G n) as Gn. rewrite H, G in Gn. congruence.
Qed.

(** Two fields joined by an underscore are told apart when the first field
    has no underscore. *)
Lemma split_at_underscore (s1 s2 t1 t2 : string) :
  no_underscore s1 = true -> no_underscore s2 = true ->
  (s1 ++ "_" ++ t1 = s2 ++ "_" ++ t2)%string -> s1 = s2 /\ t1 = t2.
Proof.
  revert s2. induction s1 as [| c s1 IH]; intros [| d s2]; cbn; intros H1 H2 H.
  - injection H as H. auto.
  - injection H as <- _. discriminate.
  - injection H as -> _. discriminate.
  - injection H as -> H.
    apply andb_true_iff in H1. apply andb_true_iff in H2.
    destruct (IH s2 (proj2 H1) (proj2 H2) H) as [-> ->]. auto.
Qed.

Lemma label_string_inj l1 l2 : label_string l1 = label_string l2 -> l1 = l2.
Proof.
  pose proof str_of_nat_no_underscore as Hd.
  destruct l1 as [i | i j | i j k], l2 as [i' | i' j' | i' j' k'];
    cbn [label_string]; intros H; try (cbn in H; discriminate).
  - apply (append_cancel_l "Top_") in H. apply str_of_nat_inj in H. congruence.
  - apply (append_cancel_l "Bridge_") in H.
    apply split_at_underscore in H; [| apply Hd | apply Hd].
    destruct H as [Hi Hj].
    apply str_of_nat_inj in Hi. apply str_of_nat_inj in Hj. congruence.
  - apply (append_cancel_l "Hollow_") in H.
    apply split_at_underscore in H; [| apply Hd | apply Hd].
    destruct H as [Hi H].
    apply split_at_underscore in H; [| apply Hd | apply Hd].
    destruct H as [Hj Hk].
    apply str_of_nat_inj in Hi. apply str_of_nat_inj in Hj.
    apply str_of_nat_inj in Hk. congruence.
Qed.

Lemma prefix_empty (s : string) : String.prefix "" s = true.
Proof. now destruct s. Qed.

(** Whether [a ++ b] starts with a slash does not depend on what follows
    the first character of [b]. *)
Lemma prefix_slash_append (a : string) (x : ascii) (b c : string) :
  String.prefix "/" (a ++ String x b) = String.prefix "/" (a ++ String x c).
Proof.
  assert (G : forall y s s',
             String.prefix "/" (String y s) = String.prefix "/" (String y s')).
  { intros y s s'. change (String.prefix "/" (String y ?t))
      with (if ascii_dec "/" y then String.prefix "" t else false).
    now rewrite !prefix_empty. }
  destruct a as [| y a]; cbn [append]; apply G.
Qed.

Lemma site_path_inj out_dir base l1 l2 :
  site_path out_dir base l1 = site_path out_dir base l2 -> l1 = l2.
Proof.
  unfold site_path, os_path_join. intros H.
  assert (P : String.prefix "/" (site_file base l1)
              = String.prefix "/" (site_file base l2)).
  { unfold site_file. cbn [append]. apply prefix_slash_append. }
  rewrite <- P in H.
  assert (E : site_file base l1 = site_file base l2).
  { destruct (String.prefix "/" (site_file base l1)); [exact H |].
    destruct (String.eqb out_dir "" || ends_with_slash out_dir)%bool.
    - now apply append_cancel_l in H.
    - apply append_cancel_l in H. now apply (append_cancel_l "/") in H. }
  unfold site_file in E. apply append_cancel_l in E.
  apply (append_cancel_l "_") in E. apply append_cancel_r in E.
  now apply label_string_inj.
Qed.

(** X17. The label of a site can be read back from its text, and the path of
    its file from the label: in one output directory and for one base name,
    two different labels never give the same file. *)
Theorem site_files_differ out_dir base l1 l2 :
  l1 <> l2 -> site_path out_dir base l1 <> site_path out_dir base l2.
Proof. intros Hne E. apply Hne. eapply site_path_inj. exact E. Qed.

Lemma site_files_differ_witness :
  site_path "out" "slab" (Bridge 1 12) <> site_path "out" "slab" (Bridge 11 2).
Proof.
  apply (site_files_differ "out" "slab" (Bridge 1 12) (Bridge 11 2)).
  discriminate.
Defined.

(** ** The body of the loop of [main], end to end *)

Lemma align_returns atomic_masses slab :
  exists s', outcome (align_slab_to_z atomic_masses slab) = inr s' /\
             natoms s' = natoms slab.
Proof.
  destruct (align_cases atomic_masses slab) as [E | (c & s & v & _ & _ & E)].
  - exists slab. now rewrite E.
  - eexists. split; [exact E |]. unfold natoms; cbn. apply length_map.
Qed.

Lemma identify_in_range ConvexHull slab pct surf :
  outcome (identify_surface_atoms_via_hull ConvexHull slab pct) = inr surf ->
  0 <= pct <= 100 /\ Forall (fun i => (i < natoms slab)%nat) surf.
Proof.
  intros H. split.
  - destruct (Rle_dec 0 pct) as [H0 | H0];
      [destruct (Rle_dec pct 100) as [H1 | H1]; [lra |] |];
      exfalso; unfold identify_surface_atoms_via_hull in H;
      rewrite (percentile_out_of_range _ pct) in H by lra; discriminate.
  - assert (Hz : exists z_th, percentile (heights slab) pct = ret z_th).
    { unfold identify_surface_atoms_via_hull in H. fold (heights slab) in H.
      apply outcome_bind_inr in H. destruct H as (z & Hz & _).
      exists z. now apply percentile_ret. }
    destruct Hz as (z_th & Hz).
    assert (Hc : forall i, In i (candidates slab z_th) ->
                           (i < natoms slab)%nat)
      by (intros i Hi; now apply candidates_In in Hi).
    apply Forall_forall. intros i Hi.
    destruct (identify_cases ConvexHull slab pct z_th Hz) as [[_ E] | [_ E]];
      rewrite E in H.
    + injection H as <-. now apply Hc.
    + apply outcome_bind_inr in H. destruct H as (vs & _ & H).
      apply Hc. eapply take_In; eassumption.
Qed.


(** Once the slab is aligned, the object holds the aligned structure and the
    rest of the body works on it. *)
Lemma process_slab_aligned atomic_masses atomic_numbers ConvexHull find_mic
    w slab fname base args aligned :
  outcome (align_slab_to_z atomic_masses (heap w slab)) = inr aligned ->
  outcome (process_slab atomic_masses atomic_numbers ConvexHull find_mic
             w slab fname base args)
  = outcome
      (surf <- identify_surface_atoms_via_hull ConvexHull aligned
                 (arg_percentile args) ;;
       match surf with
       | [] => logging WARNING (MsgNoSurface fname) ;;;
               ret (store w slab aligned)
       | _ :: _ =>
           sites <- generate_adsorption_sites find_mic aligned surf
                      (arg_ads_dist args) (arg_dist_thr args)
                      (arg_margin args) ;;
           write_sites atomic_numbers (store w slab aligned) slab sites
             base args
       end).
Proof.
  intros Ha. unfold process_slab. rewrite (outcome_bind_ok _ _ _ Ha).
  cbv zeta. unfold store at 1 3. cbn [heap]. rewrite Nat.eqb_refl.
  reflexivity.
Qed.

(** X18. For a slab with at least one atom an exception of the body of the
    loop comes from one of three places only: [numpy.percentile], with
    [ValueError] for a percentile outside [0, 100]; the hull routine, called
    on three or more candidates of the aligned slab; or the loop over the
    sites, in which the adsorbate atom is made and the file is written.  The
    orienter and the site generator never fail in the pipeline: the orienter
    never fails at all, and the selector only returns atom indices. *)
Theorem process_slab_failures atomic_masses atomic_numbers ConvexHull find_mic
    w slab fname base args e :
  hull_contract ConvexHull ->
  (0 < natoms (heap w slab))%nat ->
  outcome (process_slab atomic_masses atomic_numbers ConvexHull find_mic
             w slab fname base args) = inl e ->
  exists aligned,
    outcome (align_slab_to_z atomic_masses (heap w slab)) = inr aligned /\
    ((e = ValueError /\
      (arg_percentile args < 0 \/ 100 < arg_percentile args))
     \/
     (0 <= arg_percentile args <= 100 /\
      exists z_th,
        percentile (heights aligned) (arg_percentile args) = ret z_th /\
        (3 <= length (candidates aligned z_th))%nat /\
        ConvexHull (candidate_points aligned z_th) = inl e)
     \/
     (exists surf sites,
        outcome (identify_surface_atoms_via_hull ConvexHull aligned
                   (arg_percentile args)) = inr surf /\
        outcome (generate_adsorption_sites find_mic aligned surf
                   (arg_ads_dist args) (arg_dist_thr args) (arg_margin args))
          = inr sites /\
        outcome (write_sites atomic_numbers (store w slab aligned) slab
                   sites base args) = inl e)).
Proof.
  intros Hhull Hn H.
  destruct (align_returns atomic_masses (heap w slab)) as (aligned & Ha & Hna).
  exists aligned. split; [exact Ha |].
  rewrite (process_slab_aligned _ _ _ _ _ _ _ _ _ _ Ha) in H.
  destruct (outcome (identify_surface_atoms_via_hull ConvexHull aligned
                       (arg_percentile args))) as [e' | surf] eqn:Ei.
  - rewrite (outcome_bind_raises _ _ _ Ei) in H. injection H as <-.
    destruct (identify_raises ConvexHull aligned (arg_percentile args) e'
                Hhull ltac:(lia) Ei) as [Hv | (Hp & z_th & Hz & Hl & Hh)].
    + now left.
    + right; left. split; [exact Hp |]. now exists z_th.
  - rewrite (outcome_bind_ok _ _ _ Ei) in H.
    destruct (identify_in_range _ _ _ _ Ei) as [Hp Hv].
    destruct surf as [| i surf].
    { rewrite bind_logging in H. discriminate. }
    destruct (generate_adsorption_sites_returns find_mic aligned (i :: surf)
                (arg_ads_dist args) (arg_dist_thr args) (arg_margin args) Hv)
      as (sites & Hs).
    rewrite (outcome_bind_ok _ _ _ Hs) in H.
    right; right. exists (i :: surf), sites. auto.
Qed.

Lemma align_cell_4_4_10 atomic_masses slab :
  cell slab = cell_4_4_10 -> align_slab_to_z atomic_masses slab = ret slab.
Proof.
  intros Hc. unfold align_slab_to_z.
  rewrite rotation_angle_is_axis_angle. rewrite Hc.
  assert (Hn : cell_normal cell_4_4_10 = V3 0 0 16)
    by (unfold cell_normal; cbn; vec_eq).
  rewrite Hn. unfold angle_to_z_axis.
  rewrite (norm_eq (V3 0 0 16) 16) by (unfold dot; cbn; lra).
  cbn [vz]. replace (16 / 16) with 1 by lra.
  rewrite Rabs_R1, clip_id, acos_1 by lra.
  pose proof angle_tol_pos. Rcompare. reflexivity.
Qed.

Example process_collinear :
  outcome (process_slab atomic_masses_H_Pt atomic_numbers_H_Pt ConvexHull3
             find_mic_open world_collinear 0 "line.vasp" "line" args_default)
  = inl QhullError.
Proof.
  rewrite (process_slab_aligned _ _ _ _ _ _ _ _ _ slab_collinear)
    by (cbn [heap world_collinear]; now rewrite align_cell_4_4_10).
  apply outcome_bind_raises. exact surface_collinear.
Qed.

Lemma process_slab_failures_witness :
  exists aligned,
    outcome (align_slab_to_z atomic_masses_H_Pt (heap world_collinear 0))
      = inr aligned /\
    ((QhullError = ValueError /\
      (arg_percentile args_default < 0 \/ 100 < arg_percentile args_default))
     \/
     (0 <= arg_percentile args_default <= 100 /\
      exists z_th,
        percentile (heights aligned) (arg_percentile args_default)
          = ret z_th /\
        (3 <= length (candidates aligned z_th))%nat /\
        ConvexHull3 (candidate_points aligned z_th) = inl QhullError)
     \/
     (exists surf sites,
        outcome (identify_surface_atoms_via_hull ConvexHull3 aligned
                   (arg_percentile args_default)) = inr surf /\
        outcome (generate_adsorption_sites find_mic_open aligned surf
                   (arg_ads_dist args_default) (arg_dist_thr args_default)
                   (arg_margin args_default)) = inr sites /\
        outcome (write_sites atomic_numbers_H_Pt
                   (store world_collinear 0 aligned) 0 sites "line"
                   args_default) = inl QhullError)).
Proof.
  apply (process_slab_failures atomic_masses_H_Pt atomic_numbers_H_Pt
           ConvexHull3 find_mic_open world_collinear 0 "line.vasp" "line"
           args_default QhullError).
  - exact ConvexHull3_contract.
  - cbn. lia.
  - exact process_collinear.
Defined.





(** ** File names and extensions *)

Lemma rfind_from_None i j c s :
  rfind_from i c s = None -> rfind_from j c s = None.
Proof.
  revert i j. induction s as [| x s IH]; cbn; intros i j H; [reflexivity |].
  destruct (rfind_from (S i) c s) eqn:E; [discriminate |].
  rewrite (IH _ (S j) E). destruct (Ascii.eqb x c); [discriminate | reflexivity].
Qed.

Lemma rfind_from_app i c s t :
  rfind_from i c (s ++ t)
  = match rfind_from (i + String.length s) c t with
    | Some j => Some j
    | None => rfind_from i c s
    end.
Proof.
  revert i. induction s as [| x s IH]; intros i.
  - cbn. rewrite Nat.add_0_r. now destruct (rfind_from i c t).
  - cbn [append rfind_from String.length]. rewrite IH.
    replace (S i + String.length s)%nat with (i + S (String.length s))%nat
      by lia.
    now destruct (rfind_from (i + S (String.length s)) c t).
Qed.

Lemma substring_0_0 s : substring 0 0 s = EmptyString.
Proof. now destruct s. Qed.

Lemma substring_app_l s t : substring 0 (String.length s) (s ++ t) = s.
Proof.
  induction s as [| x s IH]; cbn; [apply substring_0_0 | now rewrite IH].
Qed.

Lemma substring_all s : substring 0 (String.length s) s = s.
Proof. induction s as [| x s IH]; cbn; [reflexivity | now rewrite IH]. Qed.

Lemma substring_app_r s t :
  substring (String.length s) (String.length t) (s ++ t) = t.
Proof. induction s as [| x s IH]; cbn; [apply substring_all | exact IH]. Qed.

(** A name made of a stem and an extension is split where they meet. *)
Lemma splitext_stem (c : ascii) (rest e : string) :
  c <> "."%char ->
  rfind_from 0 "/" (String c rest) = None ->
  rfind_from 0 "." e = None ->
  rfind_from 0 "/" e = None ->
  splitext (String c rest ++ String "." e) = (String c rest, String "." e).
Proof.
  intros Hc Hsep Hdot Hsep'. set (stem := String c rest) in *.
  assert (Ed : rfind "." (stem ++ String "." e)
               = Z.of_nat (String.length stem)).
  { unfold rfind. rewrite rfind_from_app.
    change (rfind_from ?i "." (String "." e))
      with (match rfind_from (S i) "." e with
            | Some j => Some j
            | None => Some i
            end).
    now rewrite (rfind_from_None 0 _ _ _ Hdot). }
  assert (Es : rfind "/" (stem ++ String "." e) = (-1)%Z).
  { unfold rfind. rewrite rfind_from_app.
    change (rfind_from ?i "/" (String "." e))
      with (match rfind_from (S i) "/" e with
            | Some j => Some j
            | None => None
            end).
    now rewrite (rfind_from_None 0 _ _ _ Hsep'), Hsep. }
  unfold splitext. rewrite Ed, Es. cbv zeta.
  replace (Z.of_nat (String.length stem) >? -1)%Z with true
    by (symmetry; apply Z.gtb_lt; lia).
  rewrite Nat2Z.id. change (Z.to_nat (-1 + 1)) with 0%nat.
  rewrite Nat.sub_0_r.
  replace (existsb _ (seq 0 (String.length stem))) with true.
  - rewrite substring_app_l. f_equal.
    rewrite length_append.
    replace (String.length stem + String.length (String "." e)
             - String.length stem)%nat
      with (String.length (String "." e)) by lia.
    apply substring_app_r.
  - symmetry. unfold stem. cbn [String.length seq existsb append substring].
    rewrite substring_0_0.
    assert (E : String.eqb (String c EmptyString) "." = false).
    { apply String.eqb_neq. intros E. injection E as E. now apply Hc. }
    rewrite E. reflexivity.
Qed.

(** X20. A slab file is named by a stem that starts with a character other
    than the dot and has no slash, followed by [.vasp] or [.xyz]: both are
    accepted by the test of the loop, and both give the stem as base name.
    Two inputs [stem.vasp] and [stem.xyz] of one directory therefore write
    their sites to the same files. *)
Theorem same_stem_same_files (c : ascii) (rest : string) out_dir lbl :
  c <> "."%char ->
  rfind "/" (String c rest) = (-1)%Z ->
  is_slab_name (String c rest ++ ".vasp") = true /\
  is_slab_name (String c rest ++ ".xyz") = true /\
  fst (splitext (String c rest ++ ".vasp")) = String c rest /\
  fst (splitext (String c rest ++ ".xyz")) = String c rest /\
  site_path out_dir (fst (splitext (String c rest ++ ".vasp"))) lbl
  = site_path out_dir (fst (splitext (String c rest ++ ".xyz"))) lbl.
Proof.
  intros Hc Hsep.
  assert (Hsep' : rfind_from 0 "/" (String c rest) = None).
  { unfold rfind in Hsep.
    destruct (rfind_from 0 "/" (String c rest)); [lia | reflexivity]. }
  assert (Ev : splitext (String c rest ++ ".vasp")
               = (String c rest, ".vasp"%string))
    by (now apply splitext_stem).
  assert (Ex : splitext (String c rest ++ ".xyz")
               = (String c rest, ".xyz"%string))
    by (now apply splitext_stem).
  assert (Hend : forall suffix,
             endswith (String c rest ++ suffix) suffix = true).
  { intros suffix. unfold endswith. rewrite length_append.
    replace (String.length (String c rest) + String.length suffix
             - String.length suffix)%nat
      with (String.length (String c rest)) by lia.
    rewrite substring_app_r, String.eqb_refl.
    rewrite andb_true_r. apply Nat.leb_le. lia. }
  unfold is_slab_name. rewrite !Hend, Ev, Ex. cbn [fst].
  rewrite orb_true_r. auto.
Qed.

Lemma same_stem_same_files_witness :
  is_slab_name ("slab" ++ ".vasp") = true /\
  is_slab_name ("slab" ++ ".xyz") = true /\
  fst (splitext ("slab" ++ ".vasp")) = "slab"%string /\
  fst (splitext ("slab" ++ ".xyz")) = "slab"%string /\
  site_path "out" (fst (splitext ("slab" ++ ".vasp"))) (Top 0)
  = site_path "out" (fst (splitext ("slab" ++ ".xyz"))) (Top 0).
Proof.
  apply (same_stem_same_files "s" "lab" "out" (Top 0)).
  - discriminate.
  - reflexivity.
Defined.

(** ** The loop of [main] *)

Section DriverFacts.

Variable atomic_masses : nat -> R.
Variable atomic_numbers : string -> option nat.
Variable ConvexHull : list (R * R) -> exn + list nat.
Variable find_mic : vec -> Cell -> bool * bool * bool -> vec * R.
Variable read : string -> exn + Atoms.

Lemma main_loop_skip w input_dir args fname rest :
  is_slab_name fname = false ->
  main_loop atomic_masses atomic_numbers ConvexHull find_mic read
    w input_dir args (fname :: rest)
  = main_loop atomic_masses atomic_numbers ConvexHull find_mic read
      w input_dir args rest.
Proof. intros H. cbn [main_loop]. now rewrite H. Qed.

Lemma main_loop_unreadable w input_dir args fname rest e :
  is_slab_name fname = true ->
  read (os_path_join input_dir fname) = inl e ->
  main_loop atomic_masses atomic_numbers ConvexHull find_mic read
    w input_dir args (fname :: rest)
  = (FailedToRead fname e
       :: fst (main_loop atomic_masses atomic_numbers ConvexHull find_mic
                 read w input_dir args rest),
     snd (main_loop atomic_masses atomic_numbers ConvexHull find_mic read
         w input_dir args rest)).
Proof.
  intros H Hr. cbn [main_loop]. rewrite H, Hr. cbn [negb].
  now destruct (main_loop _ _ _ _ _ w input_dir args rest).
Qed.

Lemma main_loop_raises_at w input_dir args fname rest s e :
  is_slab_name fname = true ->
  read (os_path_join input_dir fname) = inr s ->
  outcome (process_slab atomic_masses atomic_numbers ConvexHull find_mic
             (fst (alloc w s)) (snd (alloc w s)) fname
             (fst (splitext fname)) args) = inl e ->
  snd (main_loop atomic_masses atomic_numbers ConvexHull find_mic read
         w input_dir args (fname :: rest)) = inl e.
Proof.
  intros H Hr Hb. cbn [main_loop].
  rewrite H, Hr. cbn [negb]. unfold alloc in *. cbn [fst snd] in Hb.
  destruct (process_slab _ _ _ _ _ _ _ _ _) as [l [e' | w2]];
    cbn in Hb; [| discriminate].
  now injection Hb as ->.
Qed.

Lemma main_loop_continues w input_dir args fname rest s w2 :
  is_slab_name fname = true ->
  read (os_path_join input_dir fname) = inr s ->
  outcome (process_slab atomic_masses atomic_numbers ConvexHull find_mic
             (fst (alloc w s)) (snd (alloc w s)) fname
             (fst (splitext fname)) args) = inr w2 ->
  snd (main_loop atomic_masses atomic_numbers ConvexHull find_mic read
         w input_dir args (fname :: rest))
  = snd (main_loop atomic_masses atomic_numbers ConvexHull find_mic read
         w2 input_dir args rest).
Proof.
  intros H Hr Hb. cbn [main_loop].
  rewrite H, Hr. cbn [negb]. unfold alloc in *. cbn [fst snd] in Hb.
  destruct (process_slab _ _ _ _ _ _ _ _ _) as [l [e' | w2']];
    cbn in Hb; [discriminate |].
  injection Hb as ->.
  now destruct (main_loop _ _ _ _ _ w2 input_dir args rest).
Qed.

(** X21. Files whose names end in neither [.vasp] nor [.xyz] play no part in
    the run, and a file that cannot be read is reported and passed over:
    when no slab file of the directory can be read, the run ends normally,
    has changed nothing, and has reported each slab file once, in order. *)
Theorem unreadable_files_are_passed_over w input_dir args files :
  (forall fname, In fname files -> is_slab_name fname = true ->
     exists e, read (os_path_join input_dir fname) = inl e) ->
  snd (main_loop atomic_masses atomic_numbers ConvexHull find_mic read
         w input_dir args files) = inr w /\
  exists errors,
    fst (main_loop atomic_masses atomic_numbers ConvexHull find_mic read
         w input_dir args files)
    = map (fun fe => FailedToRead (fst fe) (snd fe)) errors /\
    map fst errors = filter is_slab_name files /\
    forall fname e, In (fname, e) errors ->
      read (os_path_join input_dir fname) = inl e.
Proof.
  induction files as [| fname rest IH]; intros Hall.
  - split; [reflexivity |]. exists []. cbn. intuition.
  - destruct IH as (Hout & errors & Hlog & Hnames & Herr).
    { intros f Hf. apply Hall. now right. }
    destruct (is_slab_name fname) eqn:Hs.
    + destruct (Hall fname (or_introl eq_refl) Hs) as (e & He).
      rewrite (main_loop_unreadable _ _ _ _ _ _ Hs He). cbn [fst snd].
      split; [exact Hout |]. exists ((fname, e) :: errors).
      cbn [map fst snd filter]. rewrite Hs, Hlog, Hnames.
      repeat split. intros f e' [E | Hin]; [now injection E as <- <- |].
      now apply Herr.
    + rewrite (main_loop_skip _ _ _ _ _ Hs).
      split; [exact Hout |]. exists errors. cbn [filter]. rewrite Hs. auto.
Qed.

(** X22. The run ends with an exception only when the processing of some
    slab file that was read raises it: reading never ends the run, and the
    exception is the one of [process_slab] on that file, with base name
    [os.path.splitext(fname)[0]]. *)
Theorem run_ends_only_in_processing w input_dir args files e :
  snd (main_loop atomic_masses atomic_numbers ConvexHull find_mic read
         w input_dir args files) = inl e ->
  exists fname s w0,
    In fname files /\
    is_slab_name fname = true /\
    read (os_path_join input_dir fname) = inr s /\
    outcome (process_slab atomic_masses atomic_numbers ConvexHull find_mic
             (fst (alloc w0 s)) (snd (alloc w0 s)) fname
               (fst (splitext fname)) args) = inl e.
Proof.
  revert w. induction files as [| fname rest IH]; intros w H;
    [discriminate |].
  assert (Hrest : forall w1,
            snd (main_loop atomic_masses atomic_numbers ConvexHull find_mic
                   read w1 input_dir args rest) = inl e ->
            exists f s w0, In f (fname :: rest) /\ is_slab_name f = true /\
              read (os_path_join input_dir f) = inr s /\
              outcome (process_slab atomic_masses atomic_numbers ConvexHull
                         find_mic (fst (alloc w0 s)) (snd (alloc w0 s)) f
                         (fst (splitext f)) args) = inl e).
  { intros w1 H1. destruct (IH w1 H1) as (f & s & w0 & Hin & Hrem).
    exists f, s, w0. split; [now right | exact Hrem]. }
  destruct (is_slab_name fname) eqn:Hs.
  - destruct (read (os_path_join input_dir fname)) as [e' | s] eqn:Hr.
    + rewrite (main_loop_unreadable _ _ _ _ _ _ Hs Hr) in H. cbn [snd] in H.
      now apply (Hrest w).
    + destruct (outcome (process_slab atomic_masses atomic_numbers ConvexHull
                           find_mic (fst (alloc w s)) (snd (alloc w s)) fname
                           (fst (splitext fname)) args)) as [e' | w2] eqn:Hb.
      * rewrite (main_loop_raises_at _ _ _ _ _ _ _ Hs Hr Hb) in H.
        injection H as ->. exists fname, s, w.
        split; [now left |]. auto.
      * rewrite (main_loop_continues _ _ _ _ _ _ _ Hs Hr Hb) in H.
        now apply (Hrest w2).
  - rewrite (main_loop_skip _ _ _ _ _ Hs) in H. now apply (Hrest w).
Qed.

End DriverFacts.

Lemma process_slab_collinear w slab fname base :
  heap w slab = slab_collinear ->
  outcome (process_slab atomic_masses_H_Pt atomic_numbers_H_Pt ConvexHull3
             find_mic_open w slab fname base args_default)
  = inl QhullError.
Proof.
  intros Hh.
  rewrite (process_slab_aligned _ _ _ _ _ _ _ _ _ slab_collinear)
    by (rewrite Hh; now rewrite align_cell_4_4_10).
  apply outcome_bind_raises. exact surface_collinear.
Qed.

Lemma unreadable_files_are_passed_over_witness :
  snd (main_loop atomic_masses_H_Pt atomic_numbers_H_Pt ConvexHull3
         find_mic_open read_nothing world_one_slab "in" args_default
         ["a.vasp"; "notes.txt"; "b.xyz"]%string) = inr world_one_slab /\
  exists errors,
    fst (main_loop atomic_masses_H_Pt atomic_numbers_H_Pt ConvexHull3
           find_mic_open read_nothing world_one_slab "in" args_default
           ["a.vasp"; "notes.txt"; "b.xyz"]%string)
    = map (fun fe => FailedToRead (fst fe) (snd fe)) errors /\
    map fst errors
    = filter is_slab_name ["a.vasp"; "notes.txt"; "b.xyz"]%string /\
    forall fname e, In (fname, e) errors ->
      read_nothing (os_path_join "in" fname) = inl e.
Proof.
  apply (unreadable_files_are_passed_over atomic_masses_H_Pt
           atomic_numbers_H_Pt ConvexHull3 find_mic_open read_nothing
           world_one_slab "in" args_default
           ["a.vasp"; "notes.txt"; "b.xyz"]%string).
  intros fname _ _. exists ValueError. reflexivity.
Defined.

Lemma run_ends_only_in_processing_witness :
  exists fname s w0,
    In fname ["notes.txt"; "line.vasp"; "other.xyz"]%string /\
    is_slab_name fname = true /\
    read_collinear (os_path_join "in" fname) = inr s /\
    outcome (process_slab atomic_masses_H_Pt atomic_numbers_H_Pt ConvexHull3
               find_mic_open (fst (alloc w0 s)) (snd (alloc w0 s)) fname
               (fst (splitext fname)) args_default) = inl QhullError.
Proof.
  apply (run_ends_only_in_processing atomic_masses_H_Pt atomic_numbers_H_Pt
           ConvexHull3 find_mic_open read_collinear world_one_slab "in"
           args_default ["notes.txt"; "line.vasp"; "other.xyz"]%string
           QhullError).
  rewrite main_loop_skip by reflexivity.
  apply (main_loop_raises_at _ _ _ _ _ _ _ _ _ _ slab_collinear);
    [reflexivity | reflexivity |].
  apply process_slab_collinear. unfold alloc; cbn. reflexivity.
Defined.

(** ** Orienter: what the rotation achieves *)

Lemma rotate_row_vdiv c s v p k :
  k <> 0 -> rotate_row c s v (vdiv p k) = vdiv (rotate_row c s v p) k.
Proof.
  intros Hk. destruct v as [a b d], p as [px py pz].
  unfold rotate_row, dot, cross, vadd, vsub, vscale, vdiv; cbn.
  f_equal; field; exact Hk.
Qed.

Lemma rotate_row_vopp c s v p :
  rotate_row c s v (vopp p) = vopp (rotate_row c s v p).
Proof.
  destruct v as [a b d], p as [px py pz].
  unfold rotate_row, dot, cross, vadd, vsub, vscale, vopp; cbn.
  f_equal; ring.
Qed.

Lemma vopp_vopp v : vopp (vopp v) = v.
Proof. destruct v. unfold vopp; cbn. f_equal; ring. Qed.

Lemma rotate_row_norm c s v p :
  dot v v = 1 -> c * c + s * s = 1 -> norm (rotate_row c s v p) = norm p.
Proof. intros Hv Hc. unfold norm. now rewrite rotate_row_dot. Qed.

(** Turning a unit vector [n] about [n x z]: its height after the turn. *)
Lemma rotated_height c s n :
  dot n n = 1 -> cross n target <> vzero ->
  vz (rotate_row c s (vdiv (cross n target) (norm (cross n target))) n)
  = c * vz n + s * norm (cross n target).
Proof.
  intros Hu Hx. pose proof (norm_pos_of_nonzero _ Hx) as Hpos.
  pose proof (norm_sqr (cross n target)) as Hsq.
  set (r := norm (cross n target)) in *.
  destruct n as [a b d].
  unfold rotate_row, dot, cross, vadd, vsub, vscale, vdiv, target in *;
    cbn in *.
  assert (Hr : a * a + b * b = r * r) by lra.
  field_simplify_eq; [| lra].
  replace (a ^ 2) with (r * r - b * b) by (simpl; lra). ring.
Qed.

Lemma tilt_sine n :
  dot n n = 1 -> norm (cross n target) = sin (acos (vz n)).
Proof.
  intros Hu. destruct n as [a b d].
  unfold dot in Hu; cbn in Hu.
  assert (Hd : -1 <= d <= 1) by nra.
  cbn [vz]. rewrite sin_acos by exact Hd.
  unfold norm. f_equal. unfold dot, cross, target, Rsqr; cbn. lra.
Qed.

(** X23. Whenever the orienter rotates, it stops short of the z axis.  The
    angle to the axis is computed in radians and handed to a routine that
    reads degrees, so the slab is turned by [angle * pi / 180] only; the
    angle the orienter finds on the slab it returns is the old one times
    [1 - pi / 180]. *)
Theorem alignment_leaves_a_residual_tilt atomic_masses slab :
  cell_normal (cell slab) <> vzero ->
  angle_tol < rotation_angle (cell slab) ->
  exists s',
    outcome (align_slab_to_z atomic_masses slab) = inr s' /\
    rotation_angle (cell s')
    = rotation_angle (cell slab) * (1 - PI / 180).
Proof.
  intros Hv Hang.
  pose proof PI_bounds as HPI. pose proof angle_tol_pos as Htol.
  destruct (upward_normal_unit _ Hv) as [Hu Hz].
  pose proof (rotation_axis_nonzero _ Hv Hang) as Hx.
  pose proof (vdiv_norm_unit _ Hx) as Hax.
  pose proof (norm_pos_of_nonzero _ Hv) as HN.
  (* the angle found on the input *)
  assert (Hth : rotation_angle (cell slab)
                = acos (vz (upward_normal (cell slab)))).
  { unfold rotation_angle. cbv zeta.
    replace (dot (upward_normal (cell slab)) target)
      with (vz (upward_normal (cell slab)))
      by (unfold dot, target; cbn; lra).
    rewrite clip_id; [reflexivity |].
    destruct (upward_normal (cell slab)) as [a b d].
    unfold dot in Hu; cbn in *. nra. }
  set (n := upward_normal (cell slab)) in *.
  set (th := rotation_angle (cell slab)) in *.
  assert (Hd : -1 <= vz n <= 1).
  { destruct n as [a b d]. unfold dot in Hu; cbn in *. nra. }
  assert (Hcos : cos th = vz n) by (rewrite Hth; now apply cos_acos).
  assert (Hsin : sin th = norm (cross n target))
    by (rewrite Hth; symmetry; now apply tilt_sine).
  assert (Hth_range : 0 <= th <= PI / 2).
  { pose proof (acos_bound (vz n)) as Hb. rewrite <- Hth in Hb.
    split; [lra |].
    destruct (Rle_dec th (PI / 2)) as [Hle | Hgt]; [exact Hle | exfalso].
    assert (cos th < 0) by (apply cos_lt_0; lra). lra. }
  set (ph := th * (PI / 180)).
  assert (Hph : 0 < ph <= th) by (unfold ph; split; nra).
  assert (Hcs : cos ph * cos ph + sin ph * sin ph = 1).
  { pose proof (sin2_cos2 ph) as U. unfold Rsqr in U. lra. }
  set (axis := vdiv (cross n target) (norm (cross n target))) in *.
  assert (Hnax : norm axis = 1).
  { apply norm_eq; [lra | rewrite Hax; lra]. }
  destruct (align_rotates atomic_masses slab axis Hv Hang eq_refl Hnax)
    as (s' & Hs' & Hcell).
  exists s'. split; [exact Hs' |].
  fold th in Hcell. fold ph in Hcell.
  (* the height of the turned normal *)
  assert (Hh : vz (rotate_row (cos ph) (sin ph) axis n) = cos (th - ph)).
  { unfold axis. rewrite rotated_height by assumption.
    rewrite cos_minus, Hcos, Hsin. ring. }
  assert (Hpos : 0 < cos (th - ph)) by (apply cos_gt_0; lra).
  (* the normal found on the output *)
  assert (Hn' : upward_normal (cell s')
                = rotate_row (cos ph) (sin ph) axis n).
  { assert (Hcn : cell_normal (cell s')
                  = rotate_row (cos ph) (sin ph) axis
                      (cell_normal (cell slab))).
    { rewrite Hcell. unfold cell_normal. cbn [row0 row1].
      now apply rotate_row_cross. }
    unfold upward_normal at 1. cbv zeta. rewrite !Hcn.
    rewrite rotate_row_norm by assumption.
    rewrite <- rotate_row_vdiv by lra.
    unfold n, upward_normal in Hh |- *. cbv zeta in Hh |- *.
    set (m := vdiv (cell_normal (cell slab))
                   (norm (cell_normal (cell slab)))) in *.
    destruct (Rltb (vz m) 0) eqn:Em.
    - rewrite rotate_row_vopp in Hh |- *.
      assert (E : vz (rotate_row (cos ph) (sin ph) axis m) < 0).
      { destruct (rotate_row (cos ph) (sin ph) axis m) as [x y z].
        unfold vopp in Hh; cbn in *. lra. }
      now rewrite (proj2 (Rltb_true_iff _ _) E).
    - assert (E : 0 <= vz (rotate_row (cos ph) (sin ph) axis m)) by lra.
      now rewrite (proj2 (Rltb_false_iff _ _) E). }
  unfold rotation_angle at 1. cbv zeta. rewrite Hn'.
  replace (dot (rotate_row (cos ph) (sin ph) axis n) target)
    with (vz (rotate_row (cos ph) (sin ph) axis n))
    by (unfold dot, target; cbn; lra).
  rewrite Hh. pose proof (COS_bound (th - ph)) as Hb.
  rewrite clip_id by lra. rewrite acos_cos by lra.
  unfold ph. lra.
Qed.

Lemma alignment_leaves_a_residual_tilt_witness :
  exists s',
    outcome (align_slab_to_z atomic_masses_H_Pt slab_on_its_side) = inr s' /\
    rotation_angle (cell s')
    = rotation_angle (cell slab_on_its_side) * (1 - PI / 180).
Proof.
  assert (Hn : cell_normal (cell slab_on_its_side) = V3 0 (-1) 0)
    by (unfold cell_normal; cbn; vec_eq).
  apply (alignment_leaves_a_residual_tilt atomic_masses_H_Pt
           slab_on_its_side).
  - rewrite Hn. intros E. injection E as E. lra.
  - rewrite rotation_angle_is_axis_angle, Hn. unfold angle_to_z_axis.
    rewrite (norm_eq (V3 0 (-1) 0) 1) by (unfold dot; cbn; lra).
    cbn [vz]. replace (0 / 1) with 0 by lra.
    rewrite Rabs_R0, clip_id, acos_0 by lra.
    pose proof PI_bounds. unfold angle_tol. lra.
Defined.
